(** * The skills installer: name sanitizing, path containment, canonical
      store, content writer, agent projection and reconciliation

    Shallow embedding of [installer.ts], [skills.ts] and [agents.ts].

    - JavaScript strings are lists of UTF-16 code units ([list N]).
    - [path] is Node's POSIX implementation ([sep] is a slash).
    - The file system is a finite map from absolute, normalized paths to
      nodes; every [fs/promises] call may also fail for reasons of the
      environment, which a schedule of injected faults decides.
    - [async] functions are computations in a state-and-exception monad;
      [try]/[catch] is [try_catch]. *)

From Stdlib Require Import NArith String Ascii.
From stdpp Require Import base option list gmap sets.

Open Scope N_scope.

(** * The program *)

(** ** JavaScript strings *)

Module JS.

Definition jschar : Type := N.
Definition jsstring : Type := list N.

(** A string literal of the source, as code units. *)
Definition lit (s : string) : jsstring :=
  map N_of_ascii (list_ascii_of_string s).

Definition is_ascii (c : jschar) : Prop := c < 128.

(** [String.prototype.startsWith]. *)
Fixpoint startsWith (s p : jsstring) {struct p} : bool :=
  match p, s with
  | [], _ => true
  | _ :: _, [] => false
  | a :: p', b :: s' => (a =? b) && startsWith s' p'
  end.

(** Strict equality [===] of two strings. *)
Fixpoint streq (a b : jsstring) {struct a} : bool :=
  match a, b with
  | [], [] => true
  | x :: a', y :: b' => (x =? y) && streq a' b'
  | _, _ => false
  end.

(** [toLowerCase] on the ASCII range: [A-Z] to [a-z]. *)
Definition lowerChar (c : jschar) : jschar :=
  if (65 <=? c) && (c <=? 90) then c + 32 else c.

(** The text before, and after, the first occurrence of [c]. *)
Fixpoint before (c : jschar) (s : jsstring) : jsstring :=
  match s with
  | [] => []
  | x :: s' => if x =? c then [] else x :: before c s'
  end.

Fixpoint after (c : jschar) (s : jsstring) : jsstring :=
  match s with
  | [] => []
  | x :: s' => if x =? c then s' else after c s'
  end.

End JS.
Import JS.

Notation "'js' s" := (JS.lit s%string) (at level 9, s at level 0, only parsing).

(** What [gray-matter] hands back for the front matter of a [SKILL.md]:
    [data.name], [data.description] (empty when missing) and
    [data.metadata?.internal === true]. *)
Module FrontMatter.
Record t : Type := mk {
  name : jsstring;
  description : jsstring;
  internal : bool;
}.
End FrontMatter.

(** The part of the host (the JavaScript engine, the process and the
    libraries the installer calls) that the code depends on but does not
    define. [toLowerCase] is Unicode-aware in the engine; all the
    installer relies on is its behaviour on ASCII text. *)
Class Host : Type := {
  toLowerCase : jsstring → jsstring;
  toLowerCase_ascii :
    ∀ s, Forall is_ascii s → toLowerCase s = map lowerChar s;
  (** [process.cwd()], an absolute path, and [os.homedir()]. *)
  process_cwd : jsstring;
  process_cwd_absolute : head process_cwd = Some 47;
  homedir : jsstring;
  (** The longest absolute path the operating system accepts. *)
  PATH_MAX : nat;
  (** [process.env], [xdgConfig] of [xdg-basedir] and the answers of
      [existsSync] when [agents.ts] is loaded. *)
  env : jsstring → option jsstring;
  xdgConfig : option jsstring;
  existsSyncAtLoad : jsstring → bool;
  (** [matter(content).data]; [None] when the parser throws. *)
  matter : jsstring → option FrontMatter.t;
}.

(** ** NameSanitizer ([installer.ts], [sanitizeName]) *)

Section NameSanitizer.
Context `{Host}.

Definition hyphen : jschar := 45.
Definition dot : jschar := 46.
Definition underscore : jschar := 95.

(** The class [[a-z0-9._]]. *)
Definition isNameChar (c : jschar) : bool :=
  ((97 <=? c) && (c <=? 122)) || ((48 <=? c) && (c <=? 57))
  || (c =? dot) || (c =? underscore).

(** The class [[.\-]]. *)
Definition isDotOrHyphen (c : jschar) : bool := (c =? dot) || (c =? hyphen).

(** [.replace(/[^a-z0-9._]+/g, '-')]: every maximal run of characters
    outside the class becomes one hyphen. [inRun] tells that the
    previous character already belonged to the run being replaced. *)
Fixpoint replaceRuns (inRun : bool) (s : jsstring) : jsstring :=
  match s with
  | [] => []
  | c :: s' =>
      if isNameChar c then c :: replaceRuns false s'
      else if inRun then replaceRuns true s'
      else hyphen :: replaceRuns true s'
  end.

Fixpoint dropLeading (s : jsstring) : jsstring :=
  match s with
  | [] => []
  | c :: s' => if isDotOrHyphen c then dropLeading s' else s
  end.

Definition dropTrailing (s : jsstring) : jsstring :=
  reverse (dropLeading (reverse s)).

(** [.replace(/^[.\-]+|[.\-]+$/g, '')]: the first alternative removes
    the leading run, the second the run that reaches the end. *)
Definition trimDotsHyphens (s : jsstring) : jsstring :=
  dropTrailing (dropLeading s).

Definition substring0 (n : nat) (s : jsstring) : jsstring := take n s.

Definition placeholder : jsstring := js "unnamed-skill".

Definition sanitizeName (name : jsstring) : jsstring :=
  let sanitized := trimDotsHyphens (replaceRuns false (toLowerCase name)) in
  match substring0 255 sanitized with
  | [] => placeholder
  | r => r
  end.

End NameSanitizer.

(** ** Node's [path] module (POSIX) *)

Module Path.
Section Path.
Context `{Host}.

Definition slash : jschar := 47.
Definition sep : jsstring := [slash].
Definition dotdot : jsstring := [dot; dot].

(** The segments between slashes; a string without a slash is one
    segment, and empty segments stand for doubled, leading or trailing
    slashes. *)
Fixpoint split (s : jsstring) : list jsstring :=
  match s with
  | [] => [[]]
  | c :: s' =>
      if c =? slash then [] :: split s'
      else match split s' with
           | h :: t => (c :: h) :: t
           | [] => [[c]]
           end
  end.

Fixpoint joinSlash (segs : list jsstring) : jsstring :=
  match segs with
  | [] => []
  | [x] => x
  | x :: rest => x ++ slash :: joinSlash rest
  end.

(** [normalizeString]: [acc] is the stack of segments kept so far, the
    last one first. A [..] removes the segment before it; where there
    is none it is kept only if the path may climb above its start. *)
Fixpoint normSegs (allowAboveRoot : bool) (acc segs : list jsstring)
  : list jsstring :=
  match segs with
  | [] => reverse acc
  | x :: rest =>
      if streq x [] || streq x [dot] then normSegs allowAboveRoot acc rest
      else if streq x dotdot then
        match acc with
        | top :: acc' =>
            if streq top dotdot then
              normSegs allowAboveRoot
                (if allowAboveRoot then dotdot :: acc else acc) rest
            else normSegs allowAboveRoot acc' rest
        | [] =>
            normSegs allowAboveRoot
              (if allowAboveRoot then [dotdot] else []) rest
        end
      else normSegs allowAboveRoot (x :: acc) rest
  end.

Definition normalizeString (path : jsstring) (allowAboveRoot : bool)
  : jsstring :=
  joinSlash (normSegs allowAboveRoot [] (split path)).

Definition isAbsolute (path : jsstring) : bool :=
  match path with c :: _ => c =? slash | [] => false end.

(** [path.resolve(...args)]: the arguments are taken from the right
    until one is absolute; the working directory comes last. *)
Fixpoint resolveFrom (rargs : list jsstring) (acc : jsstring)
  : jsstring * bool :=
  match rargs with
  | [] => (acc, false)
  | p :: rest =>
      match p with
      | [] => resolveFrom rest acc
      | _ =>
          let acc' := p ++ slash :: acc in
          if isAbsolute p then (acc', true) else resolveFrom rest acc'
      end
  end.

Definition resolve (args : list jsstring) : jsstring :=
  let '(resolvedPath, resolvedAbsolute) :=
    resolveFrom (reverse (process_cwd :: args)) [] in
  let n := normalizeString resolvedPath (negb resolvedAbsolute) in
  if resolvedAbsolute then slash :: n
  else match n with [] => [dot] | _ => n end.

Definition normalize (path : jsstring) : jsstring :=
  match path with
  | [] => [dot]
  | _ =>
      let abs := isAbsolute path in
      let trailingSeparator :=
        match last path with Some c => c =? slash | None => false end in
      match normalizeString path (negb abs) with
      | [] => if abs then sep
              else if trailingSeparator then [dot; slash] else [dot]
      | n =>
          let n' := if trailingSeparator then n ++ sep else n in
          if abs then slash :: n' else n'
      end
  end.

(** [path.join(...args)]. *)
Definition join (args : list jsstring) : jsstring :=
  match filter (λ a, a ≠ []) args with
  | [] => [dot]
  | parts => normalize (joinSlash parts)
  end.

(** [path.dirname]: the scan runs from the end down to index 1. *)
Fixpoint dirnameScan (matchedSlash : bool) (r : jsstring)
  : option jsstring :=
  match r with
  | [] => None
  | c :: r' =>
      if c =? slash then
        if matchedSlash then dirnameScan true r' else Some r'
      else dirnameScan false r'
  end.

Definition dirname (path : jsstring) : jsstring :=
  match path with
  | [] => [dot]
  | c0 :: rest =>
      let hasRoot := c0 =? slash in
      match dirnameScan true (reverse rest) with
      | None => if hasRoot then sep else [dot]
      | Some r' =>
          match r' with
          | [] => if hasRoot then [slash; slash] else [c0]
          | _ => c0 :: reverse r'
          end
      end
  end.

(** [path.basename] without a suffix argument. *)
Fixpoint basenameScan (matchedSlash : bool) (r acc : jsstring) : jsstring :=
  match r with
  | [] => acc
  | c :: r' =>
      if c =? slash then
        if matchedSlash then basenameScan true r' acc else acc
      else basenameScan false r' (c :: acc)
  end.

Definition basename (path : jsstring) : jsstring :=
  basenameScan true (reverse path) [].

(** The segments of an absolute, normalized path: the key under which
    the file system stores a node. *)
Definition key (path : jsstring) : list jsstring :=
  match split (resolve [path]) with
  | _ :: segs => filter (λ x, x ≠ []) segs
  | [] => []
  end.

Definition render (segs : list jsstring) : jsstring :=
  slash :: joinSlash segs.

Fixpoint commonPrefix (a b : list jsstring) : nat :=
  match a, b with
  | x :: a', y :: b' => if streq x y then S (commonPrefix a' b') else O
  | _, _ => O
  end.

(** [path.relative(from, to)]: climb out of what is left of [from],
    then descend into what is left of [to]. *)
Definition relative (from to : jsstring) : jsstring :=
  let f := key from in
  let t := key to in
  let n := commonPrefix f t in
  joinSlash (replicate (length f - n) dotdot ++ drop n t).

End Path.
End Path.
Import Path.

(** ** PathGuard ([installer.ts], [isPathSafe]) *)

Section PathGuard.
Context `{Host}.

Definition isPathSafe (basePath targetPath : jsstring) : bool :=
  let normalizedBase := normalize (resolve [basePath]) in
  let normalizedTarget := normalize (resolve [targetPath]) in
  startsWith normalizedTarget (normalizedBase ++ sep)
  || streq normalizedTarget normalizedBase.

End PathGuard.

(** ** The file system and the monad of [async] functions *)

Inductive node : Type :=
  | File (content : jsstring)
  | Dir
  | Symlink (target : jsstring).

(** Failures of the environment, which no state of the tree explains. *)
Inductive EnvCode : Type := EACCES | EPERM | EIO | ENOSPC | EROFS | EBUSY.

Inductive ErrCode : Type :=
  | ENOENT | EEXIST | ENOTDIR | EISDIR | ELOOP | EINVAL | ENAMETOOLONG
  | ERR_FS_CP_EINVAL | ERR_FS_CP_DIR_TO_NON_DIR | ERR_FS_CP_NON_DIR_TO_DIR
  | ERR_INVALID_ARG_TYPE
  | Env (c : EnvCode).

(** An [Error] object: its [code] and its [message]. *)
Record Error : Type := mkError { code : ErrCode; message : jsstring }.

(** Calls that changed the tree, with the path they were given. *)
Inductive Op : Type :=
  | OpMkdir (path : jsstring)
  | OpRm (path : jsstring)
  | OpSymlink (target path : jsstring)
  | OpWriteFile (path content : jsstring)
  | OpCopyFile (src dest : jsstring).

Record World : Type := mkWorld {
  files : gmap (list jsstring) node;
  (** One entry per call still to come: [Some] makes that call fail. *)
  faults : list (option (EnvCode * jsstring));
  journal : list Op;
}.

Inductive outcome (A : Type) : Type :=
  | Ok (a : A)
  | Throw (e : Error)
  | Diverge.
Arguments Ok {A} a.
Arguments Throw {A} e.
Arguments Diverge {A}.

Definition M (A : Type) : Type := World → World * outcome A.

Definition ret {A} (a : A) : M A := λ w, (w, Ok a).
Definition throw {A} (e : Error) : M A := λ w, (w, Throw e).
Definition diverge {A} : M A := λ w, (w, Diverge).

Definition bind {A B} (m : M A) (k : A → M B) : M B :=
  λ w, match m w with
       | (w', Ok a) => k a w'
       | (w', Throw e) => (w', Throw e)
       | (w', Diverge) => (w', Diverge)
       end.

(** [try { m } catch (e) { handler e }]. *)
Definition try_catch {A} (m : M A) (handler : Error → M A) : M A :=
  λ w, match m w with
       | (w', Throw e) => handler e w'
       | r => r
       end.

Declare Scope async_scope.
Delimit Scope async_scope with async.
Notation "x <- m ;; k" := (bind m (λ x, k))
  (at level 100, m at next level, right associativity) : async_scope.
Notation "m ;; k" := (bind m (λ _, k))
  (at level 100, right associativity) : async_scope.
Open Scope async_scope.

(** [for (const x of xs) { body x }]. *)
Fixpoint forEach {A} (xs : list A) (body : A → M unit) : M unit :=
  match xs with
  | [] => ret tt
  | x :: xs' => body x ;; forEach xs' body
  end.

(** ** [fs/promises] *)

Module FS.
Section FS.
Context `{Host}.

Definition err (c : ErrCode) (what : string) : Error :=
  mkError c (lit what).

Definition get {A} (f : World → A) : M A := λ w, (w, Ok (f w)).

(** One change of the tree, computed from the tree as it is, and
    recorded in the journal if it goes through. *)
Definition update
    (change : gmap (list jsstring) node → Error + gmap (list jsstring) node)
    (op : Op) : M unit :=
  λ w, match change (files w) with
       | inl e => (w, Throw e)
       | inr m' => (mkWorld m' (faults w) (journal w ++ [op]), Ok tt)
       end.

(** Every call first asks the environment whether it may proceed. *)
Definition fault : M unit :=
  λ w, match faults w with
       | [] => (w, Ok tt)
       | None :: rest => (mkWorld (files w) rest (journal w), Ok tt)
       | Some (c, msg) :: rest =>
           (mkWorld (files w) rest (journal w), Throw (mkError (Env c) msg))
       end.

Definition liftE {A} (r : Error + A) : M A :=
  match r with inl e => throw e | inr a => ret a end.

(** The root is a directory; every other node is in the map. *)
Definition nodeAt (m : gmap (list jsstring) node) (k : list jsstring)
  : option node :=
  match k with [] => Some Dir | _ => m !! k end.

Definition parentKey (k : list jsstring) : list jsstring :=
  take (length k - 1) k.

Definition tooLong (path : jsstring) : bool :=
  bool_decide (PATH_MAX < length (render (key path)))%nat.

(** File names: what [readdir] may return. *)
Definition validName (x : jsstring) : bool :=
  negb (streq x []) && negb (streq x [dot]) && negb (streq x dotdot)
  && forallb (λ c, negb (c =? slash)) x.

(** Following the links at the end of a path, as [stat] does; the
    kernel gives up after 40 of them. *)
Fixpoint follow (budget : nat) (m : gmap (list jsstring) node)
    (path : jsstring) : Error + (jsstring * node) :=
  match budget with
  | O => inl (err ELOOP "ELOOP: too many symbolic links encountered")
  | S budget' =>
      match nodeAt m (key path) with
      | None => inl (err ENOENT "ENOENT: no such file or directory")
      | Some (Symlink target) =>
          follow budget' m
            (resolve [render (parentKey (key path)); target])
      | Some n => inr (render (key path), n)
      end
  end.

Definition MAXSYMLINKS : nat := 40.

Inductive Stats : Type := StFile | StDir | StLink.

Definition statsOf (n : node) : Stats :=
  match n with File _ => StFile | Dir => StDir | Symlink _ => StLink end.

Definition isSymbolicLink (s : Stats) : bool :=
  match s with StLink => true | _ => false end.
Definition isDirectory (s : Stats) : bool :=
  match s with StDir => true | _ => false end.
Definition isFile (s : Stats) : bool :=
  match s with StFile => true | _ => false end.

Definition lstat (path : jsstring) : M Stats :=
  fault ;;
  m <- get files ;;
  match nodeAt m (key path) with
  | None => throw (err ENOENT "ENOENT: no such file or directory, lstat")
  | Some n => ret (statsOf n)
  end.

Definition stat (path : jsstring) : M Stats :=
  fault ;;
  m <- get files ;;
  r <- liftE (follow MAXSYMLINKS m path) ;;
  ret (statsOf r.2).

Definition access (path : jsstring) : M unit :=
  fault ;;
  m <- get files ;;
  liftE (follow MAXSYMLINKS m path) ;;
  ret tt.

Definition readlink (path : jsstring) : M jsstring :=
  fault ;;
  m <- get files ;;
  match nodeAt m (key path) with
  | None => throw (err ENOENT "ENOENT: no such file or directory, readlink")
  | Some (Symlink t) => ret t
  | Some _ => throw (err EINVAL "EINVAL: invalid argument, readlink")
  end.

Definition readFile (path : jsstring) : M jsstring :=
  fault ;;
  m <- get files ;;
  r <- liftE (follow MAXSYMLINKS m path) ;;
  match r.2 with
  | File c => ret c
  | _ => throw (err EISDIR "EISDIR: illegal operation on a directory, read")
  end.

(** What is left of [k'] below [k], if [k'] is below [k]. *)
Fixpoint below (k k' : list jsstring) : option (list jsstring) :=
  match k, k' with
  | [], _ => Some k'
  | x :: k1, y :: k1' => if streq x y then below k1 k1' else None
  | _ :: _, [] => None
  end.

(** The entries of the directory stored under [k]. *)
Definition children (m : gmap (list jsstring) node) (k : list jsstring)
  : list (jsstring * node) :=
  omap (λ kn : list jsstring * node,
          match below k kn.1 with
          | Some [name] => if validName name then Some (name, kn.2) else None
          | _ => None
          end)
       (map_to_list m).

(** A [Dirent]: the name and the type of the entry itself. *)
Record Dirent : Type := mkDirent { name : jsstring; dtype : Stats }.

(** [readdir(path, { withFileTypes: true })]. *)
Definition readdir (path : jsstring) : M (list Dirent) :=
  fault ;;
  m <- get files ;;
  r <- liftE (follow MAXSYMLINKS m path) ;;
  match r.2 with
  | Dir => ret (map (λ e, mkDirent e.1 (statsOf e.2)) (children m (key r.1)))
  | _ => throw (err ENOTDIR "ENOTDIR: not a directory, scandir")
  end.

(** [mkdir -p]: [pre] exists and is a directory. *)
Fixpoint mkdirFrom (m : gmap (list jsstring) node)
    (pre rest : list jsstring) : Error + gmap (list jsstring) node :=
  match rest with
  | [] => inr m
  | x :: rest' =>
      let k := pre ++ [x] in
      match m !! k with
      | None => mkdirFrom (<[k := Dir]> m) k rest'
      | Some Dir => mkdirFrom m k rest'
      | Some (File _) =>
          inl (match rest' with
               | [] => err EEXIST "EEXIST: file already exists, mkdir"
               | _ => err ENOTDIR "ENOTDIR: not a directory, mkdir"
               end)
      | Some (Symlink _) =>
          match rest', follow MAXSYMLINKS m (render k) with
          | [], inr (_, Dir) => inr m
          | [], _ => inl (err EEXIST "EEXIST: file already exists, mkdir")
          | _, _ => inl (err ENOTDIR "ENOTDIR: not a directory, mkdir")
          end
      end
  end.

(** [mkdir(path, { recursive: true })]. *)
Definition mkdir (path : jsstring) : M unit :=
  fault ;;
  if tooLong path
  then throw (err ENAMETOOLONG "ENAMETOOLONG: name too long, mkdir")
  else update (λ m, mkdirFrom m [] (key path)) (OpMkdir path).

Definition removeTree (m : gmap (list jsstring) node) (k : list jsstring)
  : gmap (list jsstring) node :=
  filter (λ kn, ¬ k `prefix_of` kn.1) m.

(** [rm(path, { recursive, force })]. *)
Definition rm (path : jsstring) (recursive force : bool) : M unit :=
  fault ;;
  m <- get files ;;
  match m !! key path with
  | None =>
      if force then ret tt
      else throw (err ENOENT "ENOENT: no such file or directory, rm")
  | Some Dir =>
      if recursive
      then update (λ m, inr (removeTree m (key path))) (OpRm path)
      else throw (err EISDIR "ERR_FS_EISDIR: path is a directory, rm")
  | Some _ => update (λ m, inr (delete (key path) m)) (OpRm path)
  end.

(** [symlink(target, path, type)]; the type only matters on Windows. *)
Definition symlink (target path : jsstring) (type : option jsstring)
  : M unit :=
  fault ;;
  if tooLong path
  then throw (err ENAMETOOLONG "ENAMETOOLONG: name too long, symlink")
  else
    update
      (λ m, match target, nodeAt m (key path),
                  nodeAt m (parentKey (key path)) with
            | [], _, _ =>
                inl (err ENOENT "ENOENT: no such file or directory, symlink")
            | _, Some _, _ =>
                inl (err EEXIST "EEXIST: file already exists, symlink")
            | _, None, Some Dir => inr (<[key path := Symlink target]> m)
            | _, None, Some _ =>
                inl (err ENOTDIR "ENOTDIR: not a directory, symlink")
            | _, None, None =>
                inl (err ENOENT "ENOENT: no such file or directory, symlink")
            end)
      (OpSymlink target path).

(** Creating or replacing the regular file at the end of [path]. *)
Definition putFile (m : gmap (list jsstring) node) (path content : jsstring)
  : Error + gmap (list jsstring) node :=
  match key path, nodeAt m (key path), nodeAt m (parentKey (key path)) with
  | [], _, _ => inl (err EISDIR "EISDIR: illegal operation on a directory")
  | _, Some Dir, _ => inl (err EISDIR "EISDIR: illegal operation on a directory")
  | _, Some (Symlink _), _ => inl (err ELOOP "ELOOP: symbolic link in the way")
  | k, _, Some Dir => inr (<[k := File content]> m)
  | _, _, Some _ => inl (err ENOTDIR "ENOTDIR: not a directory, open")
  | _, _, None => inl (err ENOENT "ENOENT: no such file or directory, open")
  end.

(** The last link of the chain that starts at [path]: where a write
    through [path] lands. *)
Fixpoint landing (budget : nat) (m : gmap (list jsstring) node)
    (path : jsstring) : Error + jsstring :=
  match budget with
  | O => inl (err ELOOP "ELOOP: too many symbolic links encountered")
  | S budget' =>
      match nodeAt m (key path) with
      | Some (Symlink target) =>
          landing budget' m (resolve [render (parentKey (key path)); target])
      | _ => inr (render (key path))
      end
  end.

(** Opening [path] for writing follows the links at its end, then
    creates or truncates the file there. *)
Definition writeThrough (path content : jsstring)
    (m : gmap (list jsstring) node) : Error + gmap (list jsstring) node :=
  match landing MAXSYMLINKS m path with
  | inl e => inl e
  | inr target => putFile m target content
  end.

(** [writeFile(path, content, 'utf-8')]. *)
Definition writeFile (path content : jsstring) : M unit :=
  fault ;;
  if tooLong path
  then throw (err ENAMETOOLONG "ENAMETOOLONG: name too long, open")
  else update (writeThrough path content) (OpWriteFile path content).

(** [unlink(path)] removes a file or a link, never a directory. *)
Definition unlinked (path : jsstring) (m : gmap (list jsstring) node)
  : Error + gmap (list jsstring) node :=
  match m !! key path with
  | None => inl (err ENOENT "ENOENT: no such file or directory, unlink")
  | Some Dir => inl (err EISDIR "EISDIR: illegal operation on a directory, unlink")
  | Some _ => inr (delete (key path) m)
  end.

(** [mkdir(path)] without [recursive]. *)
Definition mkdirOne (path : jsstring) (m : gmap (list jsstring) node)
  : Error + gmap (list jsstring) node :=
  match nodeAt m (key path), nodeAt m (parentKey (key path)) with
  | Some _, _ => inl (err EEXIST "EEXIST: file already exists, mkdir")
  | None, Some Dir => inr (<[key path := Dir]> m)
  | None, Some _ => inl (err ENOTDIR "ENOTDIR: not a directory, mkdir")
  | None, None => inl (err ENOENT "ENOENT: no such file or directory, mkdir")
  end.

Definition isENOENT (e : Error) : bool :=
  match code e with ENOENT => true | _ => false end.

(** [cp(src, dest, { dereference: true, recursive: true })], one level
    per unit of [fuel]. [src] is read through its links. A directory is
    created at [dest] unless one is there, and its entries follow; a
    file replaces what [dest] names, which is unlinked first. *)
Fixpoint cpNode (fuel : nat) (src dest : jsstring) : M unit :=
  match fuel with
  | O => diverge
  | S fuel' =>
      fault ;;
      m <- get files ;;
      s <- liftE (follow MAXSYMLINKS m src) ;;
      d <- (match follow MAXSYMLINKS m dest with
            | inr d => ret (Some d)
            | inl e => if isENOENT e then ret None else throw e
            end) ;;
      if tooLong dest
      then throw (err ENAMETOOLONG "ENAMETOOLONG: name too long, cp")
      else
      match s.2, d with
      | _, Some (dpath, _) =>
          if streq s.1 dpath
          then throw (err ERR_FS_CP_EINVAL "src and dest cannot be the same")
          else ret tt
      | _, None => ret tt
      end ;;
      match s.2, d with
      | Dir, Some (_, Dir) | Dir, None =>
          if bool_decide (key src `prefix_of` key dest)
          then throw (err ERR_FS_CP_EINVAL
                        "cannot copy a directory to a subdirectory of self")
          else
            (match d with
             | None => update (mkdirOne dest) (OpMkdir dest)
             | Some _ => ret tt
             end) ;;
            forEach (children m (key s.1))
              (λ e, cpNode fuel' (join [s.1; e.1]) (join [dest; e.1]))
      | Dir, Some _ =>
          throw (err ERR_FS_CP_DIR_TO_NON_DIR
                   "cannot overwrite non-directory with directory")
      | File _, Some (_, Dir) =>
          throw (err ERR_FS_CP_NON_DIR_TO_DIR
                   "cannot overwrite directory with non-directory")
      | File c, Some _ =>
          update (λ m, match unlinked dest m with
                       | inl e => inl e
                       | inr m' => writeThrough dest c m'
                       end)
            (OpCopyFile src dest)
      | File c, None => update (writeThrough dest c) (OpCopyFile src dest)
      | Symlink _, _ => throw (err ELOOP "ELOOP: too many symbolic links")
      end
  end.

Definition cp (src dest : jsstring) : M unit :=
  cpNode (S PATH_MAX) src dest.

End FS.
End FS.
Import FS.

(** ** [types.ts] *)

Inductive AgentType : Type :=
  | amp | antigravity | augment | claude_code | openclaw | cline
  | codebuddy | codex | command_code | continue | crush | cursor | droid
  | gemini_cli | github_copilot | goose | junie | kilo | kimi_cli
  | kiro_cli | kode | mcpjam | mistral_vibe | mux | opencode | openclaude
  | openhands | pi | qoder | qwen_code | replit | roo | trae | trae_cn
  | windsurf | zencoder | neovate | pochi | adal.

Module AgentConfig.
Record t : Type := mk {
  name : jsstring;
  displayName : jsstring;
  skillsDir : jsstring;
  (** [undefined] if the agent does not support global installation. *)
  globalSkillsDir : option jsstring;
}.
End AgentConfig.

Module Skill.
Record t : Type := mk {
  name : jsstring;
  description : jsstring;
  path : jsstring;
  rawContent : option jsstring;
  (** [metadata.internal === true]; no other metadata is inspected. *)
  internal : bool;
}.
End Skill.

Module RemoteSkill.
Record t : Type := mk {
  name : jsstring;
  description : jsstring;
  content : jsstring;
  installName : jsstring;
  sourceUrl : jsstring;
  providerId : jsstring;
  sourceIdentifier : jsstring;
}.
End RemoteSkill.

Module MintlifySkill.
Record t : Type := mk {
  name : jsstring;
  description : jsstring;
  content : jsstring;
  mintlifySite : jsstring;
  sourceUrl : jsstring;
}.
End MintlifySkill.

Module WellKnownSkill.
(** Modelled from the spec: [providers/wellknown.ts], which declares the
    type, is not part of the sources at hand. The installer reads the
    install name and the map of relative paths to contents, which it
    iterates in insertion order. *)
Record t : Type := mk {
  installName : jsstring;
  files : list (jsstring * jsstring);
}.
End WellKnownSkill.

(** ** [agents.ts] *)

Section Agents.
Context `{Host}.

Definition isWhiteSpace (c : jschar) : bool :=
  ((9 <=? c) && (c <=? 13)) || (c =? 32) || (c =? 160) || (c =? 5760)
  || ((8192 <=? c) && (c <=? 8202)) || (c =? 8232) || (c =? 8233)
  || (c =? 8239) || (c =? 8287) || (c =? 12288) || (c =? 65279).

Fixpoint dropWhile (p : jschar → bool) (s : jsstring) : jsstring :=
  match s with
  | [] => []
  | c :: s' => if p c then dropWhile p s' else s
  end.

(** [String.prototype.trim]. *)
Definition trim (s : jsstring) : jsstring :=
  reverse (dropWhile isWhiteSpace (reverse (dropWhile isWhiteSpace s))).

(** [a || b] on strings: the empty string is falsy. *)
Definition orString (a : option jsstring) (b : jsstring) : jsstring :=
  match a with
  | Some (c :: r) => c :: r
  | _ => b
  end.

Definition home : jsstring := homedir.
Definition configHome : jsstring :=
  match xdgConfig with Some c => c | None => join [home; js ".config"] end.
Definition codexHome : jsstring :=
  orString (trim <$> env (js "CODEX_HOME")) (join [home; js ".codex"]).
Definition claudeHome : jsstring :=
  orString (trim <$> env (js "CLAUDE_CONFIG_DIR")) (join [home; js ".claude"]).

Definition agents (a : AgentType) : AgentConfig.t :=
  match a with
  | amp =>
      AgentConfig.mk (js "amp") (js "Amp") (js ".agents/skills")
        (Some (join [configHome; js "agents/skills"]))
  | antigravity =>
      AgentConfig.mk (js "antigravity") (js "Antigravity") (js ".agent/skills")
        (Some (join [home; js ".gemini/antigravity/global_skills"]))
  | augment =>
      AgentConfig.mk (js "augment") (js "Augment") (js ".augment/rules")
        (Some (join [home; js ".augment/rules"]))
  | claude_code =>
      AgentConfig.mk (js "claude-code") (js "Claude Code") (js ".claude/skills")
        (Some (join [claudeHome; js "skills"]))
  | openclaw =>
      AgentConfig.mk (js "openclaw") (js "OpenClaw") (js "skills")
        (Some (if existsSyncAtLoad (join [home; js ".openclaw"])
             then join [home; js ".openclaw/skills"]
             else if existsSyncAtLoad (join [home; js ".clawdbot"])
             then join [home; js ".clawdbot/skills"]
             else join [home; js ".moltbot/skills"]))
  | cline =>
      AgentConfig.mk (js "cline") (js "Cline") (js ".cline/skills")
        (Some (join [home; js ".cline/skills"]))
  | codebuddy =>
      AgentConfig.mk (js "codebuddy") (js "CodeBuddy") (js ".codebuddy/skills")
        (Some (join [home; js ".codebuddy/skills"]))
  | codex =>
      AgentConfig.mk (js "codex") (js "Codex") (js ".codex/skills")
        (Some (join [codexHome; js "skills"]))
  | command_code =>
      AgentConfig.mk (js "command-code") (js "Command Code") (js ".commandcode/skills")
        (Some (join [home; js ".commandcode/skills"]))
  | continue =>
      AgentConfig.mk (js "continue") (js "Continue") (js ".continue/skills")
        (Some (join [home; js ".continue/skills"]))
  | crush =>
      AgentConfig.mk (js "crush") (js "Crush") (js ".crush/skills")
        (Some (join [home; js ".config/crush/skills"]))
  | cursor =>
      AgentConfig.mk (js "cursor") (js "Cursor") (js ".cursor/skills")
        (Some (join [home; js ".cursor/skills"]))
  | droid =>
      AgentConfig.mk (js "droid") (js "Droid") (js ".factory/skills")
        (Some (join [home; js ".factory/skills"]))
  | gemini_cli =>
      AgentConfig.mk (js "gemini-cli") (js "Gemini CLI") (js ".gemini/skills")
        (Some (join [home; js ".gemini/skills"]))
  | github_copilot =>
      AgentConfig.mk (js "github-copilot") (js "GitHub Copilot") (js ".github/skills")
        (Some (join [home; js ".copilot/skills"]))
  | goose =>
      AgentConfig.mk (js "goose") (js "Goose") (js ".goose/skills")
        (Some (join [configHome; js "goose/skills"]))
  | junie =>
      AgentConfig.mk (js "junie") (js "Junie") (js ".junie/skills")
        (Some (join [home; js ".junie/skills"]))
  | kilo =>
      AgentConfig.mk (js "kilo") (js "Kilo Code") (js ".kilocode/skills")
        (Some (join [home; js ".kilocode/skills"]))
  | kimi_cli =>
      AgentConfig.mk (js "kimi-cli") (js "Kimi Code CLI") (js ".agents/skills")
        (Some (join [home; js ".config/agents/skills"]))
  | kiro_cli =>
      AgentConfig.mk (js "kiro-cli") (js "Kiro CLI") (js ".kiro/skills")
        (Some (join [home; js ".kiro/skills"]))
  | kode =>
      AgentConfig.mk (js "kode") (js "Kode") (js ".kode/skills")
        (Some (join [home; js ".kode/skills"]))
  | mcpjam =>
      AgentConfig.mk (js "mcpjam") (js "MCPJam") (js ".mcpjam/skills")
        (Some (join [home; js ".mcpjam/skills"]))
  | mistral_vibe =>
      AgentConfig.mk (js "mistral-vibe") (js "Mistral Vibe") (js ".vibe/skills")
        (Some (join [home; js ".vibe/skills"]))
  | mux =>
      AgentConfig.mk (js "mux") (js "Mux") (js ".mux/skills")
        (Some (join [home; js ".mux/skills"]))
  | opencode =>
      AgentConfig.mk (js "opencode") (js "OpenCode") (js ".opencode/skills")
        (Some (join [configHome; js "opencode/skills"]))
  | openclaude =>
      AgentConfig.mk (js "openclaude") (js "OpenClaude IDE") (js ".openclaude/skills")
        (Some (join [home; js ".openclaude/skills"]))
  | openhands =>
      AgentConfig.mk (js "openhands") (js "OpenHands") (js ".openhands/skills")
        (Some (join [home; js ".openhands/skills"]))
  | pi =>
      AgentConfig.mk (js "pi") (js "Pi") (js ".pi/skills")
        (Some (join [home; js ".pi/agent/skills"]))
  | qoder =>
      AgentConfig.mk (js "qoder") (js "Qoder") (js ".qoder/skills")
        (Some (join [home; js ".qoder/skills"]))
  | qwen_code =>
      AgentConfig.mk (js "qwen-code") (js "Qwen Code") (js ".qwen/skills")
        (Some (join [home; js ".qwen/skills"]))
  | replit =>
      AgentConfig.mk (js "replit") (js "Replit") (js ".agent/skills")
        None
  | roo =>
      AgentConfig.mk (js "roo") (js "Roo Code") (js ".roo/skills")
        (Some (join [home; js ".roo/skills"]))
  | trae =>
      AgentConfig.mk (js "trae") (js "Trae") (js ".trae/skills")
        (Some (join [home; js ".trae/skills"]))
  | trae_cn =>
      AgentConfig.mk (js "trae-cn") (js "Trae CN") (js ".trae/skills")
        (Some (join [home; js ".trae-cn/skills"]))
  | windsurf =>
      AgentConfig.mk (js "windsurf") (js "Windsurf") (js ".windsurf/skills")
        (Some (join [home; js ".codeium/windsurf/skills"]))
  | zencoder =>
      AgentConfig.mk (js "zencoder") (js "Zencoder") (js ".zencoder/skills")
        (Some (join [home; js ".zencoder/skills"]))
  | neovate =>
      AgentConfig.mk (js "neovate") (js "Neovate") (js ".neovate/skills")
        (Some (join [home; js ".neovate/skills"]))
  | pochi =>
      AgentConfig.mk (js "pochi") (js "Pochi") (js ".pochi/skills")
        (Some (join [home; js ".pochi/skills"]))
  | adal =>
      AgentConfig.mk (js "adal") (js "AdaL") (js ".adal/skills")
        (Some (join [home; js ".adal/skills"]))
  end.

(** [Object.keys(agents)], in the order of the declaration. *)
Definition agentKeys : list AgentType :=
  [amp; antigravity; augment; claude_code; openclaw; cline; codebuddy;
   codex; command_code; continue; crush; cursor; droid; gemini_cli;
   github_copilot; goose; junie; kilo; kimi_cli; kiro_cli; kode; mcpjam;
   mistral_vibe; mux; opencode; openclaude; openhands; pi; qoder;
   qwen_code; replit; roo; trae; trae_cn; windsurf; zencoder; neovate;
   pochi; adal].

End Agents.

(** ** [installer.ts] *)

Inductive InstallMode : Type := symlink_mode | copy_mode.

Module InstallResult.
Record t : Type := mk {
  success : bool;
  path : jsstring;
  canonicalPath : option jsstring;
  mode : InstallMode;
  symlinkFailed : option bool;
  error : option jsstring;
}.
End InstallResult.

Module Options.
Record t : Type := mk {
  global : option bool;
  cwd : option jsstring;
  mode : option InstallMode;
}.
End Options.

Section Installer.
Context `{Host}.

Definition AGENTS_DIR : jsstring := js ".agents".
Definition SKILLS_SUBDIR : jsstring := js "skills".

(** The model is of POSIX hosts, where [platform()] is not ['win32']. *)
Definition platform : jsstring := js "linux".

Definition getCanonicalSkillsDir (global : bool) (cwd : option jsstring)
  : jsstring :=
  let baseDir := if global then homedir else orString cwd process_cwd in
  join [baseDir; AGENTS_DIR; SKILLS_SUBDIR].

Definition resolveSymlinkTarget (linkPath linkTarget : jsstring) : jsstring :=
  resolve [dirname linkPath; linkTarget].

Definition isELOOP (e : Error) : bool :=
  match code e with ELOOP => true | _ => false end.

Definition ensureDirectory (path : jsstring) : M unit :=
  try_catch
    (stats <- lstat path ;;
     if isSymbolicLink stats then rm path true true else ret tt)
    (λ e, if negb (isENOENT e)
          then if isELOOP e then rm path true true else throw e
          else ret tt) ;;
  mkdir path.

(** Returns [true] if the link is in place, [false] if the caller has
    to copy instead. *)
Definition createSymlink (target linkPath : jsstring) : M bool :=
  try_catch
    (let resolvedTarget := resolve [target] in
     let resolvedLinkPath := resolve [linkPath] in
     if streq resolvedTarget resolvedLinkPath then ret true
     else
       done <- try_catch
         (stats <- lstat linkPath ;;
          if isSymbolicLink stats then
            existingTarget <- readlink linkPath ;;
            if streq (resolveSymlinkTarget linkPath existingTarget)
                 resolvedTarget
            then ret true
            else rm linkPath false false ;; ret false
          else rm linkPath true false ;; ret false)
         (λ e, (if isELOOP e
                then try_catch (rm linkPath false true) (λ _, ret tt)
                else ret tt) ;;
               ret false) ;;
       if (done : bool) then ret true
       else
         let linkDir := dirname linkPath in
         mkdir linkDir ;;
         let relativePath := relative linkDir target in
         let symlinkType :=
           if streq platform (js "win32") then Some (js "junction")
           else None in
         symlink relativePath linkPath symlinkType ;;
         ret true)
    (λ _, ret false).

Definition EXCLUDE_FILES : list jsstring := [js "README.md"; js "metadata.json"].
Definition EXCLUDE_DIRS : list jsstring := [js ".git"].

Definition has (set : list jsstring) (x : jsstring) : bool :=
  existsb (streq x) set.

Definition isExcluded (name : jsstring) (isDirectory : bool) : bool :=
  if has EXCLUDE_FILES name then true
  else if startsWith name (js "_") then true
  else if isDirectory && has EXCLUDE_DIRS name then true
  else false.

(** The callbacks of [Promise.all] are run one after the other, in the
    order of the entries; the first failure is the one reported. *)
Fixpoint copyDirectory (fuel : nat) (src dest : jsstring) : M unit :=
  match fuel with
  | O => diverge
  | S fuel' =>
      mkdir dest ;;
      entries <- readdir src ;;
      forEach
        (filter (λ entry, isExcluded (name entry) (isDirectory (dtype entry))
                          = false) entries)
        (λ entry,
           let srcPath := join [src; name entry] in
           let destPath := join [dest; name entry] in
           if isDirectory (dtype entry)
           then copyDirectory fuel' srcPath destPath
           else cp srcPath destPath)
  end.

(** [path.join] with an argument that may be [undefined]: Node checks
    the arguments before it joins them. *)
Definition joinArgs (args : list (option jsstring)) : M jsstring :=
  match mapM id args with
  | Some strs => ret (join strs)
  | None =>
      throw (err ERR_INVALID_ARG_TYPE
               "The path argument must be of type string. Received undefined")
  end.

Definition traversalError : jsstring :=
  js "Invalid skill name: potential path traversal detected".

Definition failed (agentDir : jsstring) (installMode : InstallMode)
    (message : jsstring) : InstallResult.t :=
  InstallResult.mk false agentDir None installMode None (Some message).

Definition installSkillForAgent (fuel : nat) (skill : Skill.t)
    (agentType : AgentType) (options : Options.t) : M InstallResult.t :=
  let agent := agents agentType in
  let isGlobal := default false (Options.global options) in
  let cwd := orString (Options.cwd options) process_cwd in
  let rawSkillName :=
    orString (Some (Skill.name skill)) (basename (Skill.path skill)) in
  let skillName := sanitizeName rawSkillName in
  let canonicalBase := getCanonicalSkillsDir isGlobal (Some cwd) in
  let canonicalDir := join [canonicalBase; skillName] in
  let agentBase :=
    if isGlobal then AgentConfig.globalSkillsDir agent
    else Some (join [cwd; AgentConfig.skillsDir agent]) in
  agentDir <- joinArgs [agentBase; Some skillName] ;;
  let installMode := default symlink_mode (Options.mode options) in
  if negb (isPathSafe canonicalBase canonicalDir)
  then ret (failed agentDir installMode traversalError)
  else if negb (isPathSafe (default [] agentBase) agentDir)
  then ret (failed agentDir installMode traversalError)
  else
    try_catch
      (match installMode with
       | copy_mode =>
           mkdir agentDir ;;
           copyDirectory fuel (Skill.path skill) agentDir ;;
           ret (InstallResult.mk true agentDir None copy_mode None None)
       | symlink_mode =>
           ensureDirectory canonicalDir ;;
           copyDirectory fuel (Skill.path skill) canonicalDir ;;
           symlinkCreated <- createSymlink canonicalDir agentDir ;;
           if negb symlinkCreated then
             try_catch (rm agentDir true true) (λ _, ret tt) ;;
             mkdir agentDir ;;
             copyDirectory fuel (Skill.path skill) agentDir ;;
             ret (InstallResult.mk true agentDir (Some canonicalDir)
                    symlink_mode (Some true) None)
           else
             ret (InstallResult.mk true agentDir (Some canonicalDir)
                    symlink_mode None None)
       end)
      (λ e, ret (failed agentDir installMode (message e))).

(** [flag ? a : b] on an optional flag: [undefined] is falsy. *)
Definition truthy (flag : option bool) : bool :=
  match flag with Some true => true | _ => false end.

Definition isSkillInstalled (skillName : jsstring) (agentType : AgentType)
    (options : Options.t) : M bool :=
  let agent := agents agentType in
  let sanitized := sanitizeName skillName in
  let targetBase :=
    if truthy (Options.global options)
    then AgentConfig.globalSkillsDir agent
    else Some (join [orString (Options.cwd options) process_cwd;
                     AgentConfig.skillsDir agent]) in
  skillDir <- joinArgs [targetBase; Some sanitized] ;;
  if negb (isPathSafe (default [] targetBase) skillDir) then ret false
  else try_catch (access skillDir ;; ret true) (λ _, ret false).

(** What a function that is not [async] throws: an error of Node, with
    its code, or [new Error(message)]. *)
Inductive Exception : Type :=
  | NodeError (e : Error)
  | PlainError (message : jsstring).

(** [path.join] with an argument that may be [undefined], outside of
    [async] functions. *)
Definition joinChecked (args : list (option jsstring))
  : Exception + jsstring :=
  match mapM id args with
  | Some strs => inr (join strs)
  | None =>
      inl (NodeError
             (err ERR_INVALID_ARG_TYPE
                "The path argument must be of type string. Received undefined"))
  end.

Definition getInstallPath (skillName : jsstring) (agentType : AgentType)
    (options : Options.t) : Exception + jsstring :=
  let agent := agents agentType in
  let cwd := orString (Options.cwd options) process_cwd in
  let sanitized := sanitizeName skillName in
  let targetBase :=
    if truthy (Options.global options)
    then AgentConfig.globalSkillsDir agent
    else Some (join [cwd; AgentConfig.skillsDir agent]) in
  match joinChecked [targetBase; Some sanitized] with
  | inl e => inl e
  | inr installPath =>
      if negb (isPathSafe (default [] targetBase) installPath)
      then inl (PlainError traversalError)
      else inr installPath
  end.

Definition getCanonicalPath (skillName : jsstring) (options : Options.t)
  : Exception + jsstring :=
  let sanitized := sanitizeName skillName in
  let canonicalBase :=
    getCanonicalSkillsDir (default false (Options.global options))
      (Options.cwd options) in
  let canonicalPath := join [canonicalBase; sanitized] in
  if negb (isPathSafe canonicalBase canonicalPath)
  then inl (PlainError traversalError)
  else inr canonicalPath.

(** Deprecated in favour of [installRemoteSkillForAgent]. *)
Definition installMintlifySkillForAgent (skill : MintlifySkill.t)
    (agentType : AgentType) (options : Options.t) : M InstallResult.t :=
  let agent := agents agentType in
  let isGlobal := default false (Options.global options) in
  let cwd := orString (Options.cwd options) process_cwd in
  let installMode := default symlink_mode (Options.mode options) in
  let skillName := sanitizeName (MintlifySkill.mintlifySite skill) in
  let canonicalBase := getCanonicalSkillsDir isGlobal (Some cwd) in
  let canonicalDir := join [canonicalBase; skillName] in
  let agentBase :=
    if isGlobal then AgentConfig.globalSkillsDir agent
    else Some (join [cwd; AgentConfig.skillsDir agent]) in
  agentDir <- joinArgs [agentBase; Some skillName] ;;
  if negb (isPathSafe canonicalBase canonicalDir)
  then ret (failed agentDir installMode traversalError)
  else if negb (isPathSafe (default [] agentBase) agentDir)
  then ret (failed agentDir installMode traversalError)
  else
    try_catch
      (match installMode with
       | copy_mode =>
           mkdir agentDir ;;
           let skillMdPath := join [agentDir; js "SKILL.md"] in
           writeFile skillMdPath (MintlifySkill.content skill) ;;
           ret (InstallResult.mk true agentDir None copy_mode None None)
       | symlink_mode =>
           ensureDirectory canonicalDir ;;
           let skillMdPath := join [canonicalDir; js "SKILL.md"] in
           writeFile skillMdPath (MintlifySkill.content skill) ;;
           symlinkCreated <- createSymlink canonicalDir agentDir ;;
           if negb symlinkCreated then
             try_catch (rm agentDir true true) (λ _, ret tt) ;;
             mkdir agentDir ;;
             let agentSkillMdPath := join [agentDir; js "SKILL.md"] in
             writeFile agentSkillMdPath (MintlifySkill.content skill) ;;
             ret (InstallResult.mk true agentDir (Some canonicalDir)
                    symlink_mode (Some true) None)
           else
             ret (InstallResult.mk true agentDir (Some canonicalDir)
                    symlink_mode None None)
       end)
      (λ e, ret (failed agentDir installMode (message e))).

Definition installRemoteSkillForAgent (skill : RemoteSkill.t)
    (agentType : AgentType) (options : Options.t) : M InstallResult.t :=
  let agent := agents agentType in
  let isGlobal := default false (Options.global options) in
  let cwd := orString (Options.cwd options) process_cwd in
  let installMode := default symlink_mode (Options.mode options) in
  let skillName := sanitizeName (RemoteSkill.installName skill) in
  let canonicalBase := getCanonicalSkillsDir isGlobal (Some cwd) in
  let canonicalDir := join [canonicalBase; skillName] in
  let agentBase :=
    if isGlobal then AgentConfig.globalSkillsDir agent
    else Some (join [cwd; AgentConfig.skillsDir agent]) in
  agentDir <- joinArgs [agentBase; Some skillName] ;;
  if negb (isPathSafe canonicalBase canonicalDir)
  then ret (failed agentDir installMode traversalError)
  else if negb (isPathSafe (default [] agentBase) agentDir)
  then ret (failed agentDir installMode traversalError)
  else
    try_catch
      (match installMode with
       | copy_mode =>
           mkdir agentDir ;;
           let skillMdPath := join [agentDir; js "SKILL.md"] in
           writeFile skillMdPath (RemoteSkill.content skill) ;;
           ret (InstallResult.mk true agentDir None copy_mode None None)
       | symlink_mode =>
           ensureDirectory canonicalDir ;;
           let skillMdPath := join [canonicalDir; js "SKILL.md"] in
           writeFile skillMdPath (RemoteSkill.content skill) ;;
           symlinkCreated <- createSymlink canonicalDir agentDir ;;
           if negb symlinkCreated then
             try_catch (rm agentDir true true) (λ _, ret tt) ;;
             mkdir agentDir ;;
             let agentSkillMdPath := join [agentDir; js "SKILL.md"] in
             writeFile agentSkillMdPath (RemoteSkill.content skill) ;;
             ret (InstallResult.mk true agentDir (Some canonicalDir)
                    symlink_mode (Some true) None)
           else
             ret (InstallResult.mk true agentDir (Some canonicalDir)
                    symlink_mode None None)
       end)
      (λ e, ret (failed agentDir installMode (message e))).

(** The inner function of [installWellKnownSkillForAgent]. *)
Definition writeSkillFiles (skill : WellKnownSkill.t) (targetDir : jsstring)
  : M unit :=
  mkdir targetDir ;;
  forEach (WellKnownSkill.files skill)
    (λ '(filePath, content),
       let fullPath := join [targetDir; filePath] in
       if negb (isPathSafe targetDir fullPath) then ret tt
       else
         let parentDir := dirname fullPath in
         (if negb (streq parentDir targetDir) then mkdir parentDir
          else ret tt) ;;
         writeFile fullPath content).

Definition installWellKnownSkillForAgent (skill : WellKnownSkill.t)
    (agentType : AgentType) (options : Options.t) : M InstallResult.t :=
  let agent := agents agentType in
  let isGlobal := default false (Options.global options) in
  let cwd := orString (Options.cwd options) process_cwd in
  let installMode := default symlink_mode (Options.mode options) in
  let skillName := sanitizeName (WellKnownSkill.installName skill) in
  let canonicalBase := getCanonicalSkillsDir isGlobal (Some cwd) in
  let canonicalDir := join [canonicalBase; skillName] in
  let agentBase :=
    if isGlobal then AgentConfig.globalSkillsDir agent
    else Some (join [cwd; AgentConfig.skillsDir agent]) in
  agentDir <- joinArgs [agentBase; Some skillName] ;;
  if negb (isPathSafe canonicalBase canonicalDir)
  then ret (failed agentDir installMode traversalError)
  else if negb (isPathSafe (default [] agentBase) agentDir)
  then ret (failed agentDir installMode traversalError)
  else
    try_catch
      (match installMode with
       | copy_mode =>
           writeSkillFiles skill agentDir ;;
           ret (InstallResult.mk true agentDir None copy_mode None None)
       | symlink_mode =>
           writeSkillFiles skill canonicalDir ;;
           symlinkCreated <- createSymlink canonicalDir agentDir ;;
           if negb symlinkCreated then
             try_catch (rm agentDir true true) (λ _, ret tt) ;;
             writeSkillFiles skill agentDir ;;
             ret (InstallResult.mk true agentDir (Some canonicalDir)
                    symlink_mode (Some true) None)
           else
             ret (InstallResult.mk true agentDir (Some canonicalDir)
                    symlink_mode None None)
       end)
      (λ e, ret (failed agentDir installMode (message e))).

End Installer.

(** ** [skills.ts] *)

Module DiscoverSkillsOptions.
Record t : Type := mk { includeInternal : option bool }.
End DiscoverSkillsOptions.

(** A loop that updates [s] in place inside a [try] whose handler drops
    the error: an iteration that throws ends the loop and leaves [s] as
    the iterations before it made it. *)
Fixpoint loopInTry {A S} (xs : list A) (body : A → S → M S) (s : S) : M S :=
  match xs with
  | [] => ret s
  | x :: xs' =>
      λ w, match body x s w with
           | (w', Ok s') => loopInTry xs' body s' w'
           | (w', Throw _) => (w', Ok s)
           | (w', Diverge) => (w', Diverge)
           end
  end.

(** A loop that updates [s] in place and lets a failure through. *)
Fixpoint foldLoop {A S} (xs : list A) (body : A → S → M S) (s : S) : M S :=
  match xs with
  | [] => ret s
  | x :: xs' => s' <- body x s ;; foldLoop xs' body s'
  end.

Section Skills.
Context `{Host}.

Definition SKIP_DIRS : list jsstring :=
  [js "node_modules"; js ".git"; js "dist"; js "build"; js "__pycache__"].

Definition shouldInstallInternalSkills : bool :=
  match env (js "INSTALL_INTERNAL_SKILLS") with
  | Some v => streq v (js "1") || streq v (js "true")
  | None => false
  end.

Definition hasSkillMd (dir : jsstring) : M bool :=
  try_catch
    (let skillPath := join [dir; js "SKILL.md"] in
     stats <- stat skillPath ;;
     ret (isFile stats))
    (λ _, ret false).

Definition parseSkillMd (skillMdPath : jsstring)
    (options : option DiscoverSkillsOptions.t) : M (option Skill.t) :=
  try_catch
    (content <- readFile skillMdPath ;;
     match matter content with
     | None => throw (err EINVAL "front matter cannot be parsed")
     | Some data =>
         if streq (FrontMatter.name data) []
            || streq (FrontMatter.description data) []
         then ret None
         else
           let isInternal := FrontMatter.internal data in
           let includeInternal :=
             default false (options ≫= DiscoverSkillsOptions.includeInternal) in
           if isInternal && negb shouldInstallInternalSkills
              && negb includeInternal
           then ret None
           else ret (Some (Skill.mk (FrontMatter.name data)
                             (FrontMatter.description data)
                             (dirname skillMdPath) (Some content)
                             (FrontMatter.internal data)))
     end)
    (λ _, ret None).

(** [findSkillDirs(dir, depth, maxDepth)] with [levels] standing for
    [maxDepth + 1 - depth]: none left means [depth > maxDepth]. *)
Fixpoint findSkillDirsFrom (levels : nat) (dir : jsstring)
  : M (list jsstring) :=
  match levels with
  | O => ret []
  | S levels' =>
      try_catch
        (hasSkill <- hasSkillMd dir ;;
         entries <- try_catch (readdir dir) (λ _, ret []) ;;
         let currentDir := if (hasSkill : bool) then [dir] else [] in
         subDirResults <-
           (fix all (es : list Dirent) : M (list (list jsstring)) :=
              match es with
              | [] => ret []
              | entry :: es' =>
                  r <- findSkillDirsFrom levels' (join [dir; name entry]) ;;
                  rs <- all es' ;;
                  ret (r :: rs)
              end)
             (filter (λ entry, isDirectory (dtype entry) = true
                               ∧ has SKIP_DIRS (name entry) = false) entries) ;;
         ret (currentDir ++ concat subDirResults))
        (λ _, ret [])
  end.

Definition findSkillDirs (dir : jsstring) : M (list jsstring) :=
  findSkillDirsFrom 6 dir.

Definition prioritySearchDirs (searchPath : jsstring) : list jsstring :=
  searchPath ::
  map (λ d, join [searchPath; lit d])
    ["skills"; "skills/.curated"; "skills/.experimental"; "skills/.system";
     ".agent/skills"; ".agents/skills"; ".claude/skills"; ".cline/skills";
     ".codebuddy/skills"; ".codex/skills"; ".commandcode/skills";
     ".continue/skills"; ".cursor/skills"; ".github/skills";
     ".goose/skills"; ".junie/skills"; ".kilocode/skills"; ".kiro/skills";
     ".mux/skills"; ".neovate/skills"; ".opencode/skills";
     ".openhands/skills"; ".pi/skills"; ".qoder/skills"; ".roo/skills";
     ".trae/skills"; ".windsurf/skills"; ".zencoder/skills"]%string.

(** The two locals of [discoverSkills]: the array and the [Set]. *)
Definition Found : Type := list Skill.t * gset jsstring.

(** [if (skill && !seenNames.has(skill.name)) { push; add }]. *)
Definition keepFirst (skill : option Skill.t) (st : Found) : Found :=
  match skill with
  | Some sk =>
      if bool_decide (Skill.name sk ∈ st.2) then st
      else (st.1 ++ [sk], {[Skill.name sk]} ∪ st.2)
  | None => st
  end.

(** The body of the loop over the entries of one search directory. *)
Definition visitEntry (options : option DiscoverSkillsOptions.t)
    (dir : jsstring) (entry : Dirent) (st : Found) : M Found :=
  if isDirectory (dtype entry) then
    let skillDir := join [dir; name entry] in
    found <- hasSkillMd skillDir ;;
    if (found : bool) then
      skill <- parseSkillMd (join [skillDir; js "SKILL.md"]) options ;;
      ret (keepFirst skill st)
    else ret st
  else ret st.

(** [for (const dir of prioritySearchDirs) { try { ... } catch { } }]. *)
Fixpoint searchDirs (options : option DiscoverSkillsOptions.t)
    (dirs : list jsstring) (st : Found) : M Found :=
  match dirs with
  | [] => ret st
  | dir :: dirs' =>
      st' <- try_catch
               (entries <- readdir dir ;;
                loopInTry entries (visitEntry options dir) st)
               (λ _, ret st) ;;
      searchDirs options dirs' st'
  end.

Definition discoverSkills (basePath : jsstring) (subpath : option jsstring)
    (options : option DiscoverSkillsOptions.t) : M (list Skill.t) :=
  let searchPath :=
    match subpath with
    | Some (c :: r) => join [basePath; c :: r]
    | _ => basePath
    end in
  direct <- hasSkillMd searchPath ;;
  early <- (if (direct : bool)
            then parseSkillMd (join [searchPath; js "SKILL.md"]) options
            else ret None) ;;
  match early with
  | Some skill => ret [skill]
  | None =>
      st <- searchDirs options (prioritySearchDirs searchPath) ([], ∅) ;;
      if bool_decide (length st.1 = 0%nat) then
        allSkillDirs <- findSkillDirs searchPath ;;
        st' <- foldLoop allSkillDirs
                 (λ skillDir st,
                    skill <- parseSkillMd (join [skillDir; js "SKILL.md"])
                               options ;;
                    ret (keepFirst skill st))
                 st ;;
        ret st'.1
      else ret st.1
  end.

Definition getSkillDisplayName (skill : Skill.t) : jsstring :=
  orString (Some (Skill.name skill)) (basename (Skill.path skill)).

Definition filterSkills (skills : list Skill.t) (inputNames : list jsstring)
  : list Skill.t :=
  let normalizedInputs := map toLowerCase inputNames in
  filter
    (λ skill,
       let name := toLowerCase (Skill.name skill) in
       let displayName := toLowerCase (getSkillDisplayName skill) in
       existsb (λ input, streq input name || streq input displayName)
         normalizedInputs = true)
    skills.

End Skills.

(** ** [installer.ts], [listInstalledSkills] *)

Inductive Scope : Type := project | global.

Module InstalledSkill.
Record t : Type := mk {
  name : jsstring;
  description : jsstring;
  path : jsstring;
  canonicalPath : jsstring;
  scope : Scope;
  agents : list AgentType;
}.
End InstalledSkill.

Module ListOptions.
Record t : Type := mk {
  global : option bool;
  cwd : option jsstring;
  agentFilter : option (list AgentType);
}.
End ListOptions.

Section Reconciler.
Context `{Host}.

(** [.replace(/\s+/g, '-')]. *)
Fixpoint replaceSpaces (inRun : bool) (s : jsstring) : jsstring :=
  match s with
  | [] => []
  | c :: s' =>
      if isWhiteSpace c
      then if inRun then replaceSpaces true s'
           else hyphen :: replaceSpaces true s'
      else c :: replaceSpaces false s'
  end.

(** [.replace(/[\/\\:\0]/g, '')]. *)
Definition dropSeparators (s : jsstring) : jsstring :=
  filter (λ c, c ≠ 47 ∧ c ≠ 92 ∧ c ≠ 58 ∧ c ≠ 0) s.

(** [Array.from(new Set(names))]: the first occurrence of each name. *)
Fixpoint uniq (seen names : list jsstring) : list jsstring :=
  match names with
  | [] => []
  | x :: rest =>
      if has seen x then uniq seen rest else x :: uniq (x :: seen) rest
  end.

(** Strategy 1: the candidate directory names, in order. *)
Fixpoint tryNames (agentBase : option jsstring) (names : list jsstring)
  : M bool :=
  match names with
  | [] => ret false
  | possibleName :: rest =>
      agentSkillDir <- joinArgs [agentBase; Some possibleName] ;;
      if negb (isPathSafe (default [] agentBase) agentSkillDir)
      then tryNames agentBase rest
      else
        ok <- try_catch (access agentSkillDir ;; ret true) (λ _, ret false) ;;
        if (ok : bool) then ret true else tryNames agentBase rest
  end.

(** Strategy 2: the descriptors of all directories of the agent. *)
Fixpoint scanAgentEntries (agentBase : jsstring) (skill : Skill.t)
    (agentEntries : list Dirent) : M bool :=
  match agentEntries with
  | [] => ret false
  | agentEntry :: rest =>
      if negb (isDirectory (dtype agentEntry))
      then scanAgentEntries agentBase skill rest
      else
        let candidateDir := join [agentBase; name agentEntry] in
        if negb (isPathSafe agentBase candidateDir)
        then scanAgentEntries agentBase skill rest
        else
          hit <- try_catch
            (let candidateSkillMd := join [candidateDir; js "SKILL.md"] in
             stat candidateSkillMd ;;
             candidateSkill <- parseSkillMd candidateSkillMd None ;;
             ret (match candidateSkill with
                  | Some c => streq (Skill.name c) (Skill.name skill)
                  | None => false
                  end))
            (λ _, ret false) ;;
          if (hit : bool) then ret true
          else scanAgentEntries agentBase skill rest
  end.

Definition undefinedPath : Error :=
  err ERR_INVALID_ARG_TYPE
    "The path argument must be of type string. Received undefined".

Definition isInstalledFor (scopeGlobal : bool) (cwd : jsstring)
    (entryName : jsstring) (skill : Skill.t) (agentType : AgentType)
  : M bool :=
  let agent := agents agentType in
  let agentBase :=
    if scopeGlobal then AgentConfig.globalSkillsDir agent
    else Some (join [cwd; AgentConfig.skillsDir agent]) in
  let possibleNames :=
    [entryName; sanitizeName (Skill.name skill);
     dropSeparators (replaceSpaces false (toLowerCase (Skill.name skill)))] in
  let uniqueNames := uniq [] possibleNames in
  found <- tryNames agentBase uniqueNames ;;
  if (found : bool) then ret true
  else
    try_catch
      (agentEntries <- match agentBase with
                       | Some b => readdir b
                       | None => throw undefinedPath
                       end ;;
       scanAgentEntries (default [] agentBase) skill agentEntries)
      (λ _, ret false).

Definition listInstalledSkills (options : ListOptions.t)
  : M (list InstalledSkill.t) :=
  let cwd := orString (ListOptions.cwd options) process_cwd in
  let scopes : list (bool * jsstring) :=
    match ListOptions.global options with
    | None => [(false, getCanonicalSkillsDir false (Some cwd));
               (true, getCanonicalSkillsDir true (Some cwd))]
    | Some g => [(g, getCanonicalSkillsDir g (Some cwd))]
    end in
  foldLoop scopes
    (λ scope installedSkills,
       try_catch
         (entries <- readdir scope.2 ;;
          loopInTry entries
            (λ entry installedSkills,
               if negb (isDirectory (dtype entry)) then ret installedSkills
               else
                 let skillDir := join [scope.2; name entry] in
                 let skillMdPath := join [skillDir; js "SKILL.md"] in
                 present <- try_catch (stat skillMdPath ;; ret true)
                              (λ _, ret false) ;;
                 if negb present then ret installedSkills
                 else
                   parsed <- parseSkillMd skillMdPath None ;;
                   match parsed with
                   | None => ret installedSkills
                   | Some skill =>
                       let agentsToCheck :=
                         default agentKeys (ListOptions.agentFilter options) in
                       installedAgents <-
                         foldLoop agentsToCheck
                           (λ agentType installedAgents,
                              found <- isInstalledFor scope.1 cwd
                                         (name entry) skill agentType ;;
                              ret (if (found : bool)
                                   then installedAgents ++ [agentType]
                                   else installedAgents))
                           [] ;;
                       ret (installedSkills ++
                            [InstalledSkill.mk (Skill.name skill)
                               (Skill.description skill) skillDir skillDir
                               (if scope.1 then global else project)
                               installedAgents])
                   end)
            installedSkills)
         (λ _, ret installedSkills))
    [].

End Reconciler.

(** ** [add.ts], the installation loop of [runAdd] *)

Module ResultRow.
Record t : Type := mk {
  skill : jsstring;
  agent : jsstring;
  result : InstallResult.t;
}.
End ResultRow.

Module OverwriteCheck.
Record t : Type := mk {
  skillName : jsstring;
  agent : AgentType;
  installed : bool;
}.
End OverwriteCheck.

Section RunAdd.
Context `{Host}.

(** [Promise.all(selectedSkills.flatMap((skill) => targetAgents.map(
    async (agent) => ...)))] in [runAdd]: the callbacks are run one
    after the other, in the order of the pairs; the first failure is
    the one reported. *)
Definition overwriteChecks (selectedSkills : list Skill.t)
    (targetAgents : list AgentType) (installGlobally : bool)
  : M (list OverwriteCheck.t) :=
  foldLoop
    (flat_map (λ skill, map (λ agent, (skill, agent)) targetAgents)
       selectedSkills)
    (λ '(skill, agent) checks,
       installed <- isSkillInstalled (Skill.name skill) agent
                      (Options.mk (Some installGlobally) None None) ;;
       ret (checks ++
            [OverwriteCheck.mk (Skill.name skill) agent installed]))
    [].

Definition installAll (fuel : nat) (selectedSkills : list Skill.t)
    (targetAgents : list AgentType) (installGlobally : bool)
    (installMode : InstallMode) : M (list ResultRow.t) :=
  foldLoop selectedSkills
    (λ skill results,
       foldLoop targetAgents
         (λ agent results,
            result <- installSkillForAgent fuel skill agent
                        (Options.mk (Some installGlobally) None
                           (Some installMode)) ;;
            ret (results ++
                 [ResultRow.mk (getSkillDisplayName skill)
                    (AgentConfig.displayName (agents agent)) result]))
         results)
    [].

End RunAdd.

(** ** [add.ts], [parseAddOptions] *)

Module AddOptions.
Record t : Type := mk {
  global : option bool;
  agent : option (list jsstring);
  yes : option bool;
  skill : option (list jsstring);
  list : option bool;
  all : option bool;
}.
Definition empty : t := mk None None None None None None.
End AddOptions.

Section AddCommand.

(** A string in a condition: the empty string is falsy. *)
Definition nonEmpty (s : jsstring) : bool :=
  match s with [] => false | _ => true end.

(** [while (i < args.length && nextArg && !nextArg.startsWith('-'))
    { values.push(nextArg); i++; nextArg = args[i]; }]: the loop ends
    before [fuel] does when [fuel] is the length of [args]. Returns [i]
    and [values] as the loop leaves them. *)
Fixpoint takeValues (fuel : nat) (args : list jsstring) (i : nat)
    (values : list jsstring) : nat * list jsstring :=
  match fuel with
  | O => (i, values)
  | S fuel' =>
      match args !! i with
      | Some nextArg =>
          if bool_decide (i < length args)%nat && nonEmpty nextArg
             && negb (startsWith nextArg (js "-"))
          then takeValues fuel' args (S i) (values ++ [nextArg])
          else (i, values)
      | None => (i, values)
      end
  end.

Definition isFlag (arg : jsstring) (short long : string) : bool :=
  streq arg (lit short) || streq arg (lit long).

(** The [for] loop from index [i] on; one unit of [fuel] per pass. *)
Fixpoint parseFrom (fuel : nat) (args : list jsstring) (i : nat)
    (options : AddOptions.t) (source : list jsstring)
  : list jsstring * AddOptions.t :=
  match fuel with
  | O => (source, options)
  | S fuel' =>
      match args !! i with
      | None => (source, options)
      | Some arg =>
          let '(AddOptions.mk g a y s l al) := options in
          if isFlag arg "-g" "--global" then
            parseFrom fuel' args (S i)
              (AddOptions.mk (Some true) a y s l al) source
          else if isFlag arg "-y" "--yes" then
            parseFrom fuel' args (S i)
              (AddOptions.mk g a (Some true) s l al) source
          else if isFlag arg "-l" "--list" then
            parseFrom fuel' args (S i)
              (AddOptions.mk g a y s (Some true) al) source
          else if streq arg (js "--all") then
            parseFrom fuel' args (S i)
              (AddOptions.mk g a y s l (Some true)) source
          else if isFlag arg "-a" "--agent" then
            let '(j, agent) :=
              takeValues (length args) args (S i) (default [] a) in
            parseFrom fuel' args (S (j - 1))
              (AddOptions.mk g (Some agent) y s l al) source
          else if isFlag arg "-s" "--skill" then
            let '(j, skill) :=
              takeValues (length args) args (S i) (default [] s) in
            parseFrom fuel' args (S (j - 1))
              (AddOptions.mk g a y (Some skill) l al) source
          else if nonEmpty arg && negb (startsWith arg (js "-")) then
            parseFrom fuel' args (S i) options (source ++ [arg])
          else parseFrom fuel' args (S i) options source
      end
  end.

Definition parseAddOptions (args : list jsstring)
  : list jsstring * AddOptions.t :=
  parseFrom (length args) args 0 AddOptions.empty [].

End AddCommand.

(** ** A host to run the program on *)

(** The host whose [toLowerCase] leaves every non-ASCII code unit alone;
    it agrees with any engine on ASCII names. *)
Program Instance asciiHost : Host := {|
  toLowerCase := map lowerChar;
  process_cwd := js "/work";
  homedir := js "/home/u";
  PATH_MAX := 96;
  env := λ _, None;
  xdgConfig := None;
  existsSyncAtLoad := λ _, false;
  (** A toy front matter: the name up to the first bar, then the
      description; [!] in front of the name marks an internal skill. *)
  matter := λ content,
    let internal := match content with c :: _ => c =? 33 | [] => false end in
    let body := if internal then drop 1 content else content in
    Some (FrontMatter.mk (before 124 body) (after 124 body) internal);
|}.
Next Obligation. reflexivity. Qed.
Next Obligation. reflexivity. Qed.

(** * Properties of the program *)

(** ** Strings *)

Lemma streq_spec a b : streq a b = true ↔ a = b.
Proof.
  revert b; induction a as [|x a IH]; intros [|y b]; simpl; try easy.
  rewrite andb_true_iff, N.eqb_eq, IH. split.
  - intros [-> ->]; reflexivity.
  - intros [= -> ->]; auto.
Qed.

Lemma streq_refl a : streq a a = true.
Proof. apply streq_spec; reflexivity. Qed.

Lemma startsWith_spec s p : startsWith s p = true ↔ ∃ r, s = p ++ r.
Proof.
  revert s; induction p as [|a p IH]; intros s; simpl.
  - split; [intros _; exists s; reflexivity | reflexivity].
  - destruct s as [|b s].
    + split; [discriminate | intros [r Hr]; discriminate].
    + rewrite andb_true_iff, N.eqb_eq, IH. split.
      * intros [-> [r ->]]; eauto.
      * intros [r [= -> ->]]; eauto.
Qed.

(** ** The sanitizer on the names of the tests *)

Section SanitizeExamples.
Let san := @sanitizeName asciiHost.

Example sanitize_lower : san (js "MySkill") = js "myskill".
Proof. reflexivity. Qed.
Example sanitize_spaces :
  san (js "Convex Best Practices") = js "convex-best-practices".
Proof. reflexivity. Qed.
Example sanitize_runs : san (js "skill@#$name") = js "skill-name".
Proof. reflexivity. Qed.
Example sanitize_traversal : san (js "../../etc/passwd") = js "etc-passwd".
Proof. reflexivity. Qed.
Example sanitize_drive :
  san (js "C:\Windows\System32") = js "c-windows-system32".
Proof. reflexivity. Qed.
Example sanitize_mixed : san (js ".-.-skill") = js "skill".
Proof. reflexivity. Qed.
Example sanitize_trailing : san (js "skill--") = js "skill".
Proof. reflexivity. Qed.
Example sanitize_keep : san (js "skill.v2_beta") = js "skill.v2_beta".
Proof. reflexivity. Qed.
Example sanitize_empty : san [] = js "unnamed-skill".
Proof. reflexivity. Qed.
Example sanitize_dots : san (js "...") = js "unnamed-skill".
Proof. reflexivity. Qed.
Example sanitize_long : san (replicate 300 97) = replicate 255 97.
Proof. vm_compute. reflexivity. Qed.
(** ['skill日本語'] and ['émoji🎉skill'] (a surrogate pair). *)
Example sanitize_cjk :
  san (js "skill" ++ [26085; 26412; 35486]) = js "skill".
Proof. reflexivity. Qed.
Example sanitize_emoji :
  san ([233] ++ js "moji" ++ [55356; 57225] ++ js "skill") = js "moji-skill".
Proof. reflexivity. Qed.
End SanitizeExamples.

(** *** Properties of the sanitizer *)

Section SanitizerFacts.
Context `{Host}.

(** The alphabet of a sanitized name. *)
Definition okChar (c : jschar) : bool := isNameChar c || (c =? hyphen).

Definition beginsDotHyphen (s : jsstring) : bool :=
  match head s with Some c => isDotOrHyphen c | None => false end.

Definition endsDotHyphen (s : jsstring) : bool :=
  match last s with Some c => isDotOrHyphen c | None => false end.

(** Shape of the output of [replaceRuns]: hyphens are the only
    characters outside the class and no two of them are adjacent. *)
Fixpoint clean (afterHyphen : bool) (s : jsstring) : bool :=
  match s with
  | [] => true
  | c :: s' =>
      if isNameChar c then clean false s'
      else (c =? hyphen) && negb afterHyphen && clean true s'
  end.

Lemma isNameChar_hyphen : isNameChar hyphen = false.
Proof. reflexivity. Qed.

Lemma clean_replaceRuns b s : clean b (replaceRuns b s) = true.
Proof.
  revert b; induction s as [|c s IH]; intros b; simpl; [done|].
  destruct (isNameChar c) eqn:Hc; simpl.
  - by rewrite Hc.
  - destruct b; simpl; [done|]. by rewrite IH.
Qed.

Lemma replaceRuns_clean b s : clean b s = true → replaceRuns b s = s.
Proof.
  revert b; induction s as [|c s IH]; intros b; simpl; [done|].
  destruct (isNameChar c) eqn:Hc.
  - intros Hs. by rewrite IH.
  - rewrite !andb_true_iff, N.eqb_eq, negb_true_iff.
    intros [[-> ->] Hs]. by rewrite IH.
Qed.

Lemma clean_weaken b s : clean b s = true → clean false s = true.
Proof.
  destruct s as [|c s]; simpl; [done|].
  destruct (isNameChar c); [done|].
  rewrite !andb_true_iff. intros [[-> _] ->]. done.
Qed.

Lemma clean_tail b c s : clean b (c :: s) = true → clean false s = true.
Proof.
  simpl. destruct (isNameChar c); [done|].
  rewrite !andb_true_iff. intros [_ Hs]. by eapply clean_weaken.
Qed.

Lemma clean_prefix b p q : clean b (p ++ q) = true → clean b p = true.
Proof.
  revert b; induction p as [|c p IH]; intros b; simpl; [done|].
  destruct (isNameChar c); [apply IH|].
  rewrite !andb_true_iff. intros [Hc Hs]. split; [done|]. by eapply IH.
Qed.

Lemma clean_ok b s : clean b s = true → Forall (λ c, okChar c = true) s.
Proof.
  revert b; induction s as [|c s IH]; intros b; simpl; [constructor|].
  unfold okChar at 1. destruct (isNameChar c) eqn:Hc.
  - intros Hs. constructor; [by rewrite Hc | by eapply IH].
  - rewrite !andb_true_iff. intros [[Hh _] Hs].
    constructor; [by rewrite Hc, Hh | by eapply IH].
Qed.

Lemma dropLeading_suffix s : dropLeading s `suffix_of` s.
Proof.
  induction s as [|c s IH]; simpl; [done|].
  destruct (isDotOrHyphen c); [by apply suffix_cons_r | done].
Qed.

Lemma dropLeading_begins s : beginsDotHyphen (dropLeading s) = false.
Proof.
  induction s as [|c s IH]; simpl; [done|].
  destruct (isDotOrHyphen c) eqn:Hc; [done|].
  unfold beginsDotHyphen; simpl. done.
Qed.

Lemma dropLeading_id s : beginsDotHyphen s = false → dropLeading s = s.
Proof.
  destruct s as [|c s]; [done|]. unfold beginsDotHyphen; simpl.
  by intros ->.
Qed.

Lemma dropTrailing_prefix s : dropTrailing s `prefix_of` s.
Proof.
  unfold dropTrailing.
  destruct (dropLeading_suffix (reverse s)) as [k Hk].
  exists (reverse k).
  rewrite <- reverse_app, <- Hk. by rewrite reverse_involutive.
Qed.

Lemma dropTrailing_ends s : endsDotHyphen (dropTrailing s) = false.
Proof.
  unfold endsDotHyphen, dropTrailing. rewrite last_reverse.
  apply dropLeading_begins.
Qed.

Lemma dropTrailing_id s : endsDotHyphen s = false → dropTrailing s = s.
Proof.
  unfold endsDotHyphen, dropTrailing. rewrite <- head_reverse. intros Hs.
  rewrite dropLeading_id; [apply reverse_involutive | done].
Qed.

Lemma begins_prefix p s :
  p `prefix_of` s → beginsDotHyphen s = false → beginsDotHyphen p = false.
Proof.
  intros [k ->]. destruct p as [|c p]; [done|]. done.
Qed.

Lemma clean_suffix s t :
  t `suffix_of` s → clean false s = true → clean false t = true.
Proof.
  intros [k ->]. induction k as [|c k IH]; simpl app; [done|].
  intros Hc. apply IH. by eapply clean_tail.
Qed.

(** The string between the two [replace] calls and [substring]. *)
Definition trimmed (name : jsstring) : jsstring :=
  trimDotsHyphens (replaceRuns false (toLowerCase name)).

Lemma trimmed_clean name : clean false (trimmed name) = true.
Proof.
  unfold trimmed, trimDotsHyphens.
  destruct (dropTrailing_prefix
              (dropLeading (replaceRuns false (toLowerCase name)))) as [k Hk].
  eapply clean_prefix. rewrite <- Hk.
  eapply clean_suffix; [apply dropLeading_suffix | apply clean_replaceRuns].
Qed.

Lemma trimmed_begins name : beginsDotHyphen (trimmed name) = false.
Proof.
  unfold trimmed, trimDotsHyphens.
  eapply begins_prefix; [apply dropTrailing_prefix | apply dropLeading_begins].
Qed.

Lemma trimmed_ends name : endsDotHyphen (trimmed name) = false.
Proof. apply dropTrailing_ends. Qed.

Lemma sanitizeName_unfold name :
  sanitizeName name =
    match take 255 (trimmed name) with [] => placeholder | r => r end.
Proof. reflexivity. Qed.

Lemma sanitizeName_cases name :
  (take 255 (trimmed name) = [] ∧ sanitizeName name = placeholder)
  ∨ (take 255 (trimmed name) ≠ [] ∧ sanitizeName name = take 255 (trimmed name)).
Proof.
  rewrite sanitizeName_unfold.
  destruct (take 255 (trimmed name)); [left | right]; done.
Qed.

Lemma sanitizeName_length name : (length (sanitizeName name) ≤ 255)%nat.
Proof.
  destruct (sanitizeName_cases name) as [[_ ->]|[_ ->]].
  - vm_compute. lia.
  - rewrite length_take. lia.
Qed.

Lemma sanitizeName_nonempty name : sanitizeName name ≠ [].
Proof. by destruct (sanitizeName_cases name) as [[_ ->]|[? ->]]. Qed.

Lemma sanitizeName_clean name : clean false (sanitizeName name) = true.
Proof.
  destruct (sanitizeName_cases name) as [[_ ->]|[_ ->]]; [done|].
  eapply clean_prefix. rewrite take_drop. apply trimmed_clean.
Qed.

Lemma sanitizeName_alphabet name :
  Forall (λ c, okChar c = true) (sanitizeName name).
Proof. eapply clean_ok, sanitizeName_clean. Qed.

Lemma sanitizeName_begins name : beginsDotHyphen (sanitizeName name) = false.
Proof.
  destruct (sanitizeName_cases name) as [[_ ->]|[_ ->]]; [done|].
  eapply begins_prefix; [apply prefix_take | apply trimmed_begins].
Qed.

(** Without truncation the name does not end with a dot or a hyphen. *)
Lemma sanitizeName_ends_short name :
  (length (trimmed name) ≤ 255)%nat → endsDotHyphen (sanitizeName name) = false.
Proof.
  intros Hlen.
  destruct (sanitizeName_cases name) as [[_ ->]|[_ ->]]; [done|].
  rewrite take_ge by done. apply trimmed_ends.
Qed.

Lemma okChar_ascii c : okChar c = true → is_ascii c.
Proof.
  unfold okChar, isNameChar, is_ascii, hyphen, dot, underscore.
  rewrite !orb_true_iff, !andb_true_iff, !N.eqb_eq, !N.leb_le. lia.
Qed.

Lemma okChar_lower c : okChar c = true → lowerChar c = c.
Proof.
  unfold okChar, isNameChar, lowerChar, hyphen, dot, underscore.
  rewrite !orb_true_iff, !andb_true_iff, !N.eqb_eq, !N.leb_le. intros Hc.
  destruct (65 <=? c) eqn:H1; [|done].
  destruct (c <=? 90) eqn:H2; [|done].
  apply N.leb_le in H1, H2. lia.
Qed.

Lemma toLowerCase_ok s :
  Forall (λ c, okChar c = true) s → toLowerCase s = s.
Proof.
  intros Hs. rewrite toLowerCase_ascii.
  - induction Hs as [|c s Hc _ IH]; simpl; [done|].
    by rewrite okChar_lower, IH.
  - eapply Forall_impl; [exact Hs | apply okChar_ascii].
Qed.

(** Names in sanitized form are fixed points of the sanitizer. *)
Lemma sanitizeName_fixed r :
  r ≠ [] → clean false r = true →
  beginsDotHyphen r = false → endsDotHyphen r = false →
  (length r ≤ 255)%nat →
  sanitizeName r = r.
Proof.
  intros Hne Hc Hb He Hlen. rewrite sanitizeName_unfold. unfold trimmed.
  rewrite toLowerCase_ok by (by eapply clean_ok).
  rewrite replaceRuns_clean by done.
  unfold trimDotsHyphens. rewrite dropLeading_id, dropTrailing_id by done.
  rewrite take_ge by done. by destruct r.
Qed.

Lemma sanitizeName_idempotent_when name :
  endsDotHyphen (sanitizeName name) = false →
  sanitizeName (sanitizeName name) = sanitizeName name.
Proof.
  intros He. apply sanitizeName_fixed; auto using sanitizeName_nonempty,
    sanitizeName_clean, sanitizeName_begins, sanitizeName_length.
Qed.

Lemma sanitizeName_idempotent_short name :
  (length (trimmed name) ≤ 255)%nat →
  sanitizeName (sanitizeName name) = sanitizeName name.
Proof.
  intros Hlen. by apply sanitizeName_idempotent_when, sanitizeName_ends_short.
Qed.

(** A name of 256 characters whose 255th character is a hyphen. *)
Definition longHyphenated : jsstring := replicate 254 97 ++ js "-b".

Lemma longHyphenated_ascii : Forall is_ascii longHyphenated.
Proof.
  apply Forall_forall. intros c Hc. unfold is_ascii.
  apply elem_of_app in Hc as [Hc|Hc].
  - apply elem_of_replicate in Hc as [-> _]. lia.
  - vm_compute in Hc.
    repeat (apply elem_of_cons in Hc as [->|Hc]); try lia.
    by apply elem_of_nil in Hc.
Qed.

Lemma sanitizeName_longHyphenated :
  sanitizeName longHyphenated = replicate 254 97 ++ [hyphen].
Proof.
  rewrite sanitizeName_unfold. unfold trimmed.
  rewrite toLowerCase_ascii by apply longHyphenated_ascii.
  vm_compute. reflexivity.
Qed.

Lemma sanitizeName_twice_longHyphenated :
  sanitizeName (sanitizeName longHyphenated) = replicate 254 97.
Proof.
  rewrite sanitizeName_longHyphenated, sanitizeName_unfold. unfold trimmed.
  rewrite toLowerCase_ascii.
  - vm_compute. reflexivity.
  - apply Forall_forall. intros c Hc. unfold is_ascii.
    apply elem_of_app in Hc as [Hc|Hc].
    + apply elem_of_replicate in Hc as [-> _]. lia.
    + apply list_elem_of_singleton in Hc as ->. unfold hyphen. lia.
Qed.

End SanitizerFacts.

Section SanitizerClaims.
Context `{Host}.

(** C2: [sanitizeName] is a function without effects, so it returns a
    value for every string, but it is not idempotent: the name made
    of 254 letters [a] followed by [-b] is sanitized to the 254
    letters followed by a hyphen, the cut at 255 characters coming
    after the hyphens at the ends are removed, and sanitizing that
    result gives the 254 letters alone. *)
Theorem sanitizeName_not_idempotent :
  sanitizeName longHyphenated = replicate 254 97 ++ [hyphen]
  ∧ sanitizeName (sanitizeName longHyphenated) = replicate 254 97
  ∧ streq (sanitizeName (sanitizeName longHyphenated))
      (sanitizeName longHyphenated) = false.
Proof.
  rewrite sanitizeName_twice_longHyphenated, sanitizeName_longHyphenated.
  split; [done|]. split; [done|]. by vm_compute.
Qed.

(** C3: the result of [sanitizeName] has at most 255 characters, is
    not empty, does not begin with a dot or a hyphen and is made of
    lowercase ASCII letters, digits, dots, underscores and hyphens
    only; but it can end with a hyphen: the name made of 254 letters
    [a] followed by [-b] is cut after the hyphen. *)
Theorem sanitizeName_may_end_with_hyphen :
  endsDotHyphen (sanitizeName longHyphenated) = true
  ∧ ∀ name,
      (length (sanitizeName name) ≤ 255)%nat
      ∧ (0 < length (sanitizeName name))%nat
      ∧ beginsDotHyphen (sanitizeName name) = false
      ∧ Forall (λ c, okChar c = true) (sanitizeName name).
Proof.
  split.
  - rewrite sanitizeName_longHyphenated. unfold endsDotHyphen.
    by rewrite last_snoc.
  - intros name. split; [apply sanitizeName_length|].
    split; [|split; [apply sanitizeName_begins | apply sanitizeName_alphabet]].
    pose proof (sanitizeName_nonempty name).
    destruct (sanitizeName name); [done | simpl; lia].
Qed.

(** X1: a name whose form before the cut has at most 255 characters
    is sanitized to a name that does not end with a dot or a hyphen, and
    sanitizing that name again changes nothing. *)
Theorem sanitizeName_short_names name :
  (length (trimmed name) ≤ 255)%nat →
  endsDotHyphen (sanitizeName name) = false
  ∧ sanitizeName (sanitizeName name) = sanitizeName name.
Proof.
  intros Hlen. split.
  - by apply sanitizeName_ends_short.
  - by apply sanitizeName_idempotent_short.
Qed.

End SanitizerClaims.

Lemma sanitizeName_short_names_witness :
  endsDotHyphen (@sanitizeName asciiHost (js "Convex Best Practices.")) = false
  ∧ @sanitizeName asciiHost
      (@sanitizeName asciiHost (js "Convex Best Practices."))
    = @sanitizeName asciiHost (js "Convex Best Practices.").
Proof.
  apply (@sanitizeName_short_names asciiHost (js "Convex Best Practices.")).
  vm_compute. lia.
Defined.


(** ** Paths *)

Section PathExamples.
Local Existing Instance asciiHost.

Example resolve_rel : resolve [js "a/../b/./c/"] = js "/work/b/c".
Proof. reflexivity. Qed.
Example resolve_abs : resolve [js "/x//y/../../../z"] = js "/z".
Proof. reflexivity. Qed.
Example resolve_two : resolve [js "/a/b"; js "../c"] = js "/a/c".
Proof. reflexivity. Qed.
Example resolve_root : resolve [js "/"] = js "/".
Proof. reflexivity. Qed.
Example resolve_empty : resolve [[]] = js "/work".
Proof. reflexivity. Qed.
Example normalize_rel : normalize (js "../a//b/../c/") = js "../a/c/".
Proof. reflexivity. Qed.
Example normalize_up : normalize (js "a/../../b") = js "../b".
Proof. reflexivity. Qed.
Example join_ex : join [js "/work"; js ".agents"; js "skills"] = js "/work/.agents/skills".
Proof. reflexivity. Qed.
Example join_up : join [js "/work/t"; js "../x"] = js "/work/x".
Proof. reflexivity. Qed.
Example join_none : join [[]; []] = js ".".
Proof. reflexivity. Qed.
Example dirname_ex : dirname (js "/a/b/c") = js "/a/b".
Proof. reflexivity. Qed.
Example dirname_top : dirname (js "/a") = js "/".
Proof. reflexivity. Qed.
Example dirname_trail : dirname (js "/a/b//") = js "/a".
Proof. reflexivity. Qed.
Example dirname_rel : dirname (js "a") = js ".".
Proof. reflexivity. Qed.
Example basename_ex : basename (js "/a/b/c/") = js "c".
Proof. reflexivity. Qed.
Example relative_ex :
  relative (js "/work/.claude/skills") (js "/work/.agents/skills/foo")
  = js "../../.agents/skills/foo".
Proof. reflexivity. Qed.
Example key_ex : key (js ".agents/skills") = [js "work"; js ".agents"; js "skills"].
Proof. reflexivity. Qed.
End PathExamples.

(** ** Path containment *)

Section PathGuardFacts.
Context `{Host}.

(** *** Segments of resolved paths *)

(** A segment of a normalized path: a file name. *)
Definition goodSeg (x : jsstring) : Prop :=
  x ≠ [] ∧ x ≠ [dot] ∧ x ≠ dotdot ∧ slash ∉ x.

Lemma split_nonempty s : split s ≠ [].
Proof.
  destruct s as [|c s]; simpl; [done|].
  destruct (c =? slash); [done|]. by destruct (split s).
Qed.

Lemma split_noslash s : Forall (λ x, slash ∉ x) (split s).
Proof.
  induction s as [|c s IH]; simpl.
  - repeat constructor. apply not_elem_of_nil.
  - destruct (c =? slash) eqn:Hc.
    + constructor; [apply not_elem_of_nil | done].
    + apply N.eqb_neq in Hc.
      destruct (split s) as [|h t]; inversion IH; subst.
      * repeat constructor. apply not_elem_of_cons. split; [done|].
        apply not_elem_of_nil.
      * constructor; [|done]. by apply not_elem_of_cons.
Qed.

Lemma split_seg_slash x r :
  slash ∉ x → split (x ++ slash :: r) = x :: split r.
Proof.
  induction x as [|c x IH]; simpl; intros Hx; [done|].
  apply not_elem_of_cons in Hx as [Hc Hx].
  apply N.eqb_neq in Hc. rewrite N.eqb_sym in Hc.
  rewrite Hc, IH by done. done.
Qed.

Lemma split_seg x : slash ∉ x → split x = [x].
Proof.
  induction x as [|c x IH]; simpl; intros Hx; [done|].
  apply not_elem_of_cons in Hx as [Hc Hx].
  apply N.eqb_neq in Hc. rewrite N.eqb_sym in Hc.
  rewrite Hc, IH by done. done.
Qed.

Lemma split_joinSlash segs :
  segs ≠ [] → Forall (λ x, slash ∉ x) segs → split (joinSlash segs) = segs.
Proof.
  induction segs as [|x segs IH]; [done|]. intros _ Hs.
  inversion Hs as [|? ? Hx Hs']; subst.
  destruct segs as [|y segs]; simpl.
  - by apply split_seg.
  - rewrite split_seg_slash by done. f_equal. by apply IH.
Qed.

Lemma joinSlash_app a b :
  a ≠ [] → b ≠ [] → joinSlash (a ++ b) = joinSlash a ++ slash :: joinSlash b.
Proof.
  induction a as [|x a IH]; [done|]. intros _ Hb.
  destruct a as [|y a].
  - simpl. by destruct b.
  - change (joinSlash ((x :: y :: a) ++ b))
      with (x ++ slash :: joinSlash ((y :: a) ++ b)).
    rewrite IH by done. simpl. by rewrite <- app_assoc.
Qed.

Lemma split_joinSlash_more b r :
  b ≠ [] → Forall (λ x, slash ∉ x) b →
  split (joinSlash b ++ slash :: r) = b ++ split r.
Proof.
  induction b as [|x b IH]; [done|]. intros _ Hs.
  inversion Hs as [|? ? Hx Hs']; subst.
  destruct b as [|y b].
  - simpl. by apply split_seg_slash.
  - change (joinSlash (x :: y :: b)) with (x ++ slash :: joinSlash (y :: b)).
    rewrite <- app_assoc. simpl app at 1.
    rewrite split_seg_slash by done. simpl. f_equal. by apply IH.
Qed.

Lemma goodSeg_noslash segs :
  Forall goodSeg segs → Forall (λ x, slash ∉ x) segs.
Proof.
  intros Hs. eapply Forall_impl; [exact Hs|]. by intros x (_ & _ & _ & ?).
Qed.

Lemma streq_false a b : a ≠ b → streq a b = false.
Proof.
  intros Hne. destruct (streq a b) eqn:E; [|done].
  by apply streq_spec in E.
Qed.

Lemma normSegs_good acc segs :
  Forall goodSeg segs → normSegs false acc segs = reverse acc ++ segs.
Proof.
  revert acc; induction segs as [|x segs IH]; intros acc Hs; simpl.
  - by rewrite app_nil_r.
  - inversion Hs as [|? ? (H1 & H2 & H3 & _) Hs']; subst.
    rewrite !streq_false by done. simpl. rewrite IH by done.
    by rewrite reverse_cons, <- app_assoc.
Qed.

Lemma normSegs_result acc segs :
  Forall goodSeg acc → Forall (λ x, slash ∉ x) segs →
  Forall goodSeg (normSegs false acc segs).
Proof.
  revert acc; induction segs as [|x segs IH]; intros acc Ha Hs; simpl.
  - by apply Forall_reverse.
  - inversion Hs as [|? ? Hx Hs']; subst.
    destruct (streq x []) eqn:E1; simpl; [by apply IH|].
    destruct (streq x [dot]) eqn:E2; simpl; [by apply IH|].
    destruct (streq x dotdot) eqn:E3.
    + destruct acc as [|top acc]; simpl; [by apply IH|].
      inversion Ha as [|? ? Htop Ha']; subst.
      destruct Htop as (_ & _ & Htop & _).
      rewrite streq_false by done. by apply IH.
    + apply IH; [|done]. constructor; [|done].
      repeat split; try done; intros ->;
        by rewrite ?streq_refl in E1, E2, E3.
Qed.

(** *** What [resolve] and [normalize] return *)

Lemma resolveFrom_cwd l acc :
  ∃ rp, resolveFrom (l ++ [process_cwd]) acc = (rp, true).
Proof.
  revert acc; induction l as [|p l IH]; intros acc; simpl.
  - pose proof process_cwd_absolute as Hc.
    destruct process_cwd as [|c t]; [done|]. simpl in *.
    injection Hc as ->. rewrite N.eqb_refl. eauto.
  - destruct p as [|c p]; [apply IH|].
    destruct (isAbsolute (c :: p)); eauto.
Qed.

Lemma resolve_render args :
  ∃ segs, Forall goodSeg segs ∧ resolve args = render segs.
Proof.
  unfold resolve. rewrite reverse_cons.
  destruct (resolveFrom_cwd (reverse args) []) as [rp ->]. simpl.
  eexists. split; [|reflexivity].
  apply normSegs_result; [constructor | apply split_noslash].
Qed.

Lemma goodSeg_nonempty_filter segs :
  Forall goodSeg segs → filter (λ x : jsstring, x ≠ []) segs = segs.
Proof.
  induction 1 as [|x segs (Hx & _) _ IH]; [done|].
  rewrite filter_cons_True by done. by rewrite IH.
Qed.

Lemma split_render segs :
  Forall goodSeg segs →
  split (render segs) = [] :: match segs with [] => [[]] | _ => segs end.
Proof.
  intros Hs. unfold render. simpl. f_equal.
  destruct segs as [|x segs]; [done|].
  apply split_joinSlash; [done | by apply goodSeg_noslash].
Qed.

Lemma resolve_key path :
  Forall goodSeg (key path) ∧ resolve [path] = render (key path).
Proof.
  destruct (resolve_render [path]) as (segs & Hs & Hr).
  unfold key. rewrite Hr, split_render by done.
  destruct segs as [|x segs]; [by split|].
  rewrite goodSeg_nonempty_filter by done. by split.
Qed.

Lemma key_good path : Forall goodSeg (key path).
Proof. apply resolve_key. Qed.

Lemma last_joinSlash_noslash segs :
  segs ≠ [] → Forall goodSeg segs → last (joinSlash segs) ≠ Some slash.
Proof.
  induction segs as [|x segs IH]; [done|]. intros _ Hs.
  inversion Hs as [|? ? (Hx & _ & _ & Hn) Hs']; subst.
  destruct segs as [|y segs].
  - simpl. intros Hl. apply Hn.
    destruct x as [|c x] using rev_ind; [done|].
    rewrite last_snoc in Hl. injection Hl as ->.
    apply elem_of_app. right. by apply list_elem_of_singleton.
  - change (joinSlash (x :: y :: segs))
      with (x ++ slash :: joinSlash (y :: segs)).
    assert (joinSlash (y :: segs) ≠ []) as Hne.
    { inversion Hs' as [|? ? (Hy & _) _]; subst.
      destruct segs; simpl; [done|]. by destruct y. }
    rewrite last_app. rewrite last_cons.
    destruct (last (joinSlash (y :: segs))) eqn:El.
    + by apply IH.
    + by apply last_None in El.
Qed.

Lemma normalize_render segs :
  Forall goodSeg segs → normalize (render segs) = render segs.
Proof.
  intros Hs. destruct segs as [|x segs]; [reflexivity|].
  assert (joinSlash (x :: segs) ≠ []) as Hne.
  { inversion Hs as [|? ? (Hx & _) _]; subst.
    destruct segs; simpl; [done|]. by destruct x. }
  pose proof (last_joinSlash_noslash (x :: segs) ltac:(done) Hs) as Hl.
  assert (normalizeString (render (x :: segs)) false = joinSlash (x :: segs))
    as Hn.
  { unfold normalizeString. rewrite split_render by done.
    change (normSegs false [] ([] :: x :: segs))
      with (normSegs false [] (x :: segs)).
    by rewrite normSegs_good. }
  unfold normalize. unfold render at 1.
  change (isAbsolute (slash :: joinSlash (x :: segs))) with true.
  cbv zeta. simpl negb. rewrite Hn.
  change (isAbsolute (render (x :: segs))) with true.
  assert (last (render (x :: segs)) = last (joinSlash (x :: segs))) as ->.
  { unfold render. rewrite last_cons.
    destruct (last (joinSlash (x :: segs))) eqn:El; [done|].
    by apply last_None in El. }
  destruct (last (joinSlash (x :: segs))) as [d|] eqn:Ed.
  - destruct (d =? slash) eqn:Hd.
    + apply N.eqb_eq in Hd. subst d. by destruct Hl.
    + unfold render. by destruct (joinSlash (x :: segs)).
  - by apply last_None in Ed.
Qed.

Lemma normalize_resolve path :
  normalize (resolve [path]) = render (key path).
Proof.
  destruct (resolve_key path) as [Hs ->]. by apply normalize_render.
Qed.

Lemma joinSlash_nonempty x segs :
  Forall goodSeg (x :: segs) → joinSlash (x :: segs) ≠ [].
Proof.
  intros Hs. inversion Hs as [|? ? (Hx & _) _]; subst.
  destruct segs; simpl; [done|]. by destruct x.
Qed.

Lemma joinSlash_inj t b :
  Forall goodSeg t → Forall goodSeg b → joinSlash t = joinSlash b → t = b.
Proof.
  intros Ht Hb E. destruct t as [|x t], b as [|y b]; [done| | |].
  - symmetry in E. by apply joinSlash_nonempty in E.
  - by apply joinSlash_nonempty in E.
  - rewrite <- (split_joinSlash (x :: t)), <- (split_joinSlash (y :: b));
      auto using goodSeg_noslash. by rewrite E.
Qed.

Lemma render_inj t b :
  Forall goodSeg t → Forall goodSeg b → render t = render b → t = b.
Proof. intros Ht Hb [= E]. by apply joinSlash_inj. Qed.

(** A rendered path starts with another one followed by a slash exactly
    when the segments of the latter, which is not the root, are a
    proper prefix of its own. *)
Lemma render_startsWith t b :
  Forall goodSeg t → Forall goodSeg b →
  startsWith (render t) (render b ++ sep) = true
  ↔ b ≠ [] ∧ ∃ rest, rest ≠ [] ∧ t = b ++ rest.
Proof.
  intros Ht Hb. rewrite startsWith_spec. unfold render, sep. split.
  - intros [r E]. simpl in E. injection E as E.
    destruct b as [|y b].
    + simpl in E. destruct t as [|x t]; [done|].
      exfalso. inversion Ht as [|? ? (Hx & _ & _ & Hn) Ht']; subst.
      destruct x as [|c x]; [done|].
      destruct t; simpl in E; injection E as -> _;
        apply Hn; apply elem_of_cons; by left.
    + split; [done|]. exists (split r). split; [apply split_nonempty|].
      destruct t as [|x t]; [by destruct (joinSlash (y :: b))|].
      rewrite <- (split_joinSlash (x :: t)) by auto using goodSeg_noslash.
      rewrite E, <- app_assoc.
      apply split_joinSlash_more; auto using goodSeg_noslash.
  - intros (Hne & rest & Hr & ->).
    exists (joinSlash rest). rewrite joinSlash_app by done.
    simpl. by rewrite <- app_assoc.
Qed.

Theorem isPathSafe_segments basePath targetPath :
  isPathSafe basePath targetPath = true
  ↔ key targetPath = key basePath
    ∨ (key basePath ≠ [] ∧
       ∃ rest, rest ≠ [] ∧ key targetPath = key basePath ++ rest).
Proof.
  unfold isPathSafe. rewrite !normalize_resolve, orb_true_iff.
  rewrite render_startsWith by apply key_good.
  rewrite streq_spec. split.
  - intros [Hp | E]; [by right | left].
    eapply render_inj; eauto using key_good.
  - intros [-> | Hp]; [by right | by left].
Qed.

End PathGuardFacts.

Section GuardClaims.
Context `{Host}.



End GuardClaims.



(** *** Joining a file name to a directory *)

Section PathJoin.
Context `{Host}.

(** A segment that [normalizeString] keeps as it is. *)
Definition plain (x : jsstring) : Prop := x ≠ [] ∧ x ≠ [dot] ∧ x ≠ dotdot.

Lemma goodSeg_plain x : goodSeg x → plain x.
Proof. intros (? & ? & ? & _). by repeat split. Qed.

Lemma split_app_slash a b : split (a ++ slash :: b) = split a ++ split b.
Proof.
  induction a as [|c a IH]; simpl; [done|].
  destruct (c =? slash); [by rewrite IH|].
  rewrite IH. pose proof (split_nonempty a) as Hne.
  by destruct (split a).
Qed.

Lemma normSegs_app a acc l1 l2 :
  normSegs a acc (l1 ++ l2) = normSegs a (reverse (normSegs a acc l1)) l2.
Proof.
  revert acc; induction l1 as [|x l1 IH]; intros acc; simpl.
  - by rewrite reverse_involutive.
  - destruct (streq x [] || streq x [dot]); [apply IH|].
    destruct (streq x dotdot); [|apply IH].
    destruct acc as [|top acc]; [apply IH|].
    destruct (streq top dotdot); apply IH.
Qed.

Lemma normSegs_plain a acc x l :
  plain x → normSegs a acc (x :: l) = normSegs a (x :: acc) l.
Proof. intros (H1 & H2 & H3). simpl. by rewrite !streq_false. Qed.

Lemma normSegs_empty a acc l : normSegs a acc ([] :: l) = normSegs a acc l.
Proof. done. Qed.

Lemma normSegs_snoc a acc l n :
  plain n → normSegs a acc (l ++ [n]) = normSegs a acc l ++ [n].
Proof.
  intros Hn. rewrite normSegs_app, normSegs_plain by done. simpl.
  by rewrite reverse_cons, reverse_involutive.
Qed.

Lemma normSegs_snoc_empty a acc l :
  normSegs a acc (l ++ [[]]) = normSegs a acc l.
Proof.
  rewrite normSegs_app, normSegs_empty. simpl. apply reverse_involutive.
Qed.

(** Normalizing twice: what the first pass kept, the second pass reads
    again with the same result. A relative first pass keeps leading
    [..] segments, which the second pass resolves against [acc]. *)
Lemma normSegs_again a acc acc' l :
  (a = false → acc = []) →
  Forall (λ x, plain x ∨ (a = true ∧ x = dotdot)) acc' →
  normSegs false acc (normSegs a acc' l)
  = normSegs false acc (reverse acc' ++ l).
Proof.
  intros Ha. revert acc'; induction l as [|x l IH]; intros acc' Hacc; simpl.
  - by rewrite app_nil_r.
  - destruct (streq x [] || streq x [dot]) eqn:E1.
    + rewrite IH by done. rewrite !(normSegs_app false acc (reverse acc')).
      simpl. by rewrite E1.
    + destruct (streq x dotdot) eqn:E2.
      * apply streq_spec in E2 as ->.
        destruct acc' as [|top acc'].
        -- destruct a.
           ++ rewrite IH by (repeat constructor; by right). done.
           ++ rewrite IH by done. rewrite Ha by done. done.
        -- inversion Hacc as [|? ? Htop Hacc']; subst.
           destruct (streq top dotdot) eqn:E3.
           ++ apply streq_spec in E3 as ->.
              destruct Htop as [(_ & _ & ?)|[-> _]]; [done|].
              rewrite IH by (constructor; [by right|done]).
              by rewrite reverse_cons, <- app_assoc.
           ++ assert (plain top) as Hp.
              { destruct Htop as [?|[_ ->]]; [done|].
                by rewrite streq_refl in E3. }
              rewrite IH by done.
              rewrite reverse_cons, <- app_assoc.
              rewrite !(normSegs_app false acc (reverse acc')).
              simpl app. rewrite normSegs_plain by done. simpl.
              destruct Hp as (_ & _ & Hp). by rewrite streq_false.
      * assert (plain x) as Hp.
        { apply orb_false_iff in E1 as [E1a E1b].
          repeat split; intros ->; by rewrite streq_refl in *. }
        rewrite IH by (constructor; [by left|done]).
        by rewrite reverse_cons, <- app_assoc.
Qed.

Lemma normSegs_noslash a acc l :
  Forall (λ x, slash ∉ x) acc → Forall (λ x, slash ∉ x) l →
  Forall (λ x, slash ∉ x) (normSegs a acc l).
Proof.
  assert (slash ∉ dotdot) as Hdd.
  { intros Hd. repeat (apply elem_of_cons in Hd as [Hd|Hd]; [done|]).
    by apply elem_of_nil in Hd. }
  revert acc; induction l as [|x l IH]; intros acc Hacc Hl; simpl.
  - by apply Forall_reverse.
  - inversion Hl; subst.
    destruct (streq x [] || streq x [dot]); [by apply IH|].
    destruct (streq x dotdot).
    + destruct acc as [|top acc].
      * apply IH; [|done]. destruct a; repeat constructor; done.
      * inversion Hacc; subst. destruct (streq top dotdot).
        -- apply IH; [|done]. destruct a; [by constructor | done].
        -- by apply IH.
    + apply IH; [by constructor | done].
Qed.

(** The segments of the string that [resolve] normalizes. *)
Definition rawSegs (path : jsstring) : list jsstring :=
  (if isAbsolute path then [] else split process_cwd) ++ split path.

Lemma key_rawSegs path : key path = normSegs false [] (rawSegs path).
Proof.
  destruct (resolve_key path) as [Hgood Hres].
  eapply render_inj; [done| |].
  { apply normSegs_result; [constructor|]. unfold rawSegs.
    apply Forall_app. split; [|apply split_noslash].
    destruct (isAbsolute path); [constructor | apply split_noslash]. }
  rewrite <- Hres. unfold resolve, rawSegs.
  pose proof process_cwd_absolute as Hc.
  destruct process_cwd as [|c0 cw] eqn:Ecwd; [done|].
  simpl in Hc. injection Hc as ->.
  unfold render, normalizeString.
  destruct path as [|p0 path].
  - simpl. by rewrite split_app_slash.
  - change (reverse [slash :: cw; p0 :: path])
      with [p0 :: path; slash :: cw].
    simpl resolveFrom. unfold isAbsolute.
    destruct (p0 =? slash) eqn:Ep; cbv iota beta; simpl negb.
    + rewrite app_comm_cons, split_app_slash.
      change (split []) with [([] : jsstring)].
      by rewrite normSegs_snoc_empty.
    + rewrite (app_comm_cons cw), split_app_slash.
      rewrite (app_comm_cons path), split_app_slash.
      change (split []) with [([] : jsstring)].
      by rewrite app_assoc, normSegs_snoc_empty.
Qed.

Lemma joinSlash_snoc_nonempty l n : n ≠ [] → joinSlash (l ++ [n]) ≠ [].
Proof.
  intros Hn. induction l as [|x l IH]; simpl; [done|].
  destruct (l ++ [n]) eqn:E; [by destruct l|]. by destruct x.
Qed.

Lemma goodSeg_head n : goodSeg n → isAbsolute n = false.
Proof.
  intros (Hn & _ & _ & Hs). destruct n as [|c n]; [done|]. simpl.
  apply N.eqb_neq. intros ->. apply Hs. apply elem_of_cons. by left.
Qed.

Lemma goodSeg_last n : goodSeg n → last n ≠ Some slash.
Proof.
  intros (Hn & _ & _ & Hs) Hl. apply Hs.
  destruct n as [|c n] using rev_ind; [done|].
  rewrite last_snoc in Hl. injection Hl as ->.
  apply elem_of_app. right. by apply list_elem_of_singleton.
Qed.

Lemma normalize_name n : goodSeg n → normalize n = n.
Proof.
  intros Hn. pose proof (goodSeg_head n Hn) as Hh.
  pose proof (goodSeg_last n Hn) as Hl.
  pose proof Hn as (Hne & _ & _ & Hs).
  unfold normalize. destruct n as [|c n]; [done|].
  rewrite Hh. simpl negb. cbv zeta. unfold normalizeString.
  rewrite split_seg by done.
  rewrite normSegs_plain by by apply goodSeg_plain.
  simpl normSegs. simpl joinSlash.
  destruct (last (c :: n)) as [d|]; [|done].
  destruct (d =? slash) eqn:Ed; [|done].
  apply N.eqb_eq in Ed. by subst.
Qed.

Lemma joinSlash_head l :
  l ≠ [] → Forall (λ x : jsstring, x ≠ [] ∧ slash ∉ x) l →
  isAbsolute (joinSlash l) = false.
Proof.
  intros Hne Hl. destruct l as [|x l]; [done|].
  inversion Hl as [|? ? [Hx Hs] _]; subst.
  destruct x as [|c x]; [done|].
  assert (isAbsolute (c :: x) = false) as Hc.
  { simpl. apply N.eqb_neq. intros ->. apply Hs. apply elem_of_cons. by left. }
  destruct l; simpl in *; done.
Qed.

Lemma normSegs_named a acc l :
  Forall (λ x : jsstring, x ≠ [] ∧ slash ∉ x) acc →
  Forall (λ x, slash ∉ x) l →
  Forall (λ x : jsstring, x ≠ [] ∧ slash ∉ x) (normSegs a acc l).
Proof.
  assert (dotdot ≠ [] ∧ slash ∉ dotdot) as Hdd.
  { split; [done|]. intros Hd.
    repeat (apply elem_of_cons in Hd as [Hd|Hd]; [done|]).
    by apply elem_of_nil in Hd. }
  revert acc; induction l as [|x l IH]; intros acc Hacc Hl; simpl.
  - by apply Forall_reverse.
  - inversion Hl; subst.
    destruct (streq x []) eqn:E1; simpl; [by apply IH|].
    destruct (streq x [dot]); simpl; [by apply IH|].
    destruct (streq x dotdot).
    + destruct acc as [|top acc].
      * apply IH; [|done].
        destruct a; [constructor; [exact Hdd | constructor] | constructor].
      * inversion Hacc; subst.
        destruct (streq top dotdot); apply IH; try done.
        destruct a; [constructor; [exact Hdd | done] | done].
    + apply IH; [|done]. constructor; [|done]. split; [|done].
      intros ->. by rewrite streq_refl in E1.
Qed.

Lemma join_empty n : n ≠ [] → join [[]; n] = normalize n.
Proof. destruct n; done. Qed.

Lemma join_two d n :
  d ≠ [] → n ≠ [] → join [d; n] = normalize (d ++ slash :: n).
Proof. destruct d, n; done. Qed.

(** [join(dir, name)] names the entry [name] of [dir]. *)
Theorem key_join d n : goodSeg n → key (join [d; n]) = key d ++ [n].
Proof.
  intros Hn. pose proof Hn as (Hne & _ & _ & Hs).
  pose proof (goodSeg_plain n Hn) as Hp.
  destruct d as [|d0 d].
  - rewrite join_empty, normalize_name by done.
    rewrite !key_rawSegs. unfold rawSegs.
    rewrite goodSeg_head by done. change (isAbsolute []) with false.
    rewrite (split_seg n) by done. change (split []) with [([] : jsstring)].
    by rewrite normSegs_snoc, normSegs_snoc_empty.
  - rewrite join_two by done.
    set (a := isAbsolute (d0 :: d)).
    set (S := normSegs (negb a) [] (split (d0 :: d))).
    assert (Forall (λ x, slash ∉ x) S) as HS.
    { apply normSegs_noslash; [constructor | apply split_noslash]. }
    assert (normalizeString ((d0 :: d) ++ slash :: n) (negb a)
            = joinSlash (S ++ [n])) as Hnorm.
    { unfold normalizeString. rewrite split_app_slash, (split_seg n) by done.
      by rewrite normSegs_snoc. }
    assert (normalize ((d0 :: d) ++ slash :: n)
            = if a then slash :: joinSlash (S ++ [n])
              else joinSlash (S ++ [n])) as Hz.
    { unfold normalize.
      change (isAbsolute ((d0 :: d) ++ slash :: n)) with a.
      change ((d0 :: d) ++ slash :: n) with (d0 :: (d ++ slash :: n)) at 1.
      cbv iota zeta. rewrite Hnorm.
      pose proof (joinSlash_snoc_nonempty S n Hne) as Hj.
      assert (last ((d0 :: d) ++ slash :: n) = last n) as ->.
      { rewrite last_app. rewrite last_cons.
        destruct (last n) eqn:El; [done|]. by apply last_None in El. }
      pose proof (goodSeg_last n Hn) as Hl.
      destruct (joinSlash (S ++ [n])) as [|j0 j] eqn:Ej;
        [exfalso; apply Hj; exact Ej|].
      destruct (last n) as [c|]; [|by destruct a].
      destruct (c =? slash) eqn:Ec; [|by destruct a].
      apply N.eqb_eq in Ec. by subst. }
    rewrite Hz, !key_rawSegs. unfold rawSegs. fold a.
    assert (split (joinSlash (S ++ [n])) = S ++ [n]) as Hsp.
    { apply split_joinSlash; [by destruct S|].
      apply Forall_app. split; [done | by repeat constructor]. }
    destruct a eqn:Ea.
    + change (isAbsolute (slash :: joinSlash (S ++ [n]))) with true.
      cbv iota. rewrite !app_nil_l.
      change (split (slash :: joinSlash (S ++ [n])))
        with ([] :: split (joinSlash (S ++ [n]))).
      rewrite Hsp, normSegs_empty, normSegs_snoc by done. f_equal.
      unfold S. simpl negb.
      by rewrite normSegs_again by (done || constructor).
    + assert (isAbsolute (joinSlash (S ++ [n])) = false) as ->.
      { apply joinSlash_head; [by destruct S|].
        apply Forall_app. split; [|by repeat constructor].
        unfold S. apply normSegs_named; [constructor | apply split_noslash]. }
      rewrite Hsp, app_assoc, normSegs_snoc by done. f_equal.
      rewrite !(normSegs_app false [] (split process_cwd)).
      unfold S. simpl negb.
      by rewrite normSegs_again by (done || constructor).
Qed.

End PathJoin.

(** ** Reasoning about computations *)

Section Outcomes.

(** [m] never runs out of fuel, and what it returns satisfies [P]. *)
Definition partial {A} (P : A → Prop) (m : M A) : Prop :=
  ∀ w, match (m w).2 with
       | Ok a => P a
       | Throw _ => True
       | Diverge => False
       end.

(** [m] always returns, and what it returns satisfies [P]. *)
Definition always {A} (P : A → Prop) (m : M A) : Prop :=
  ∀ w, ∃ a, (m w).2 = Ok a ∧ P a.

Lemma always_partial {A} (P : A → Prop) m : always P m → partial P m.
Proof. intros Hm w. by destruct (Hm w) as (a & -> & ?). Qed.

Lemma partial_mono {A} (P Q : A → Prop) m :
  (∀ a, P a → Q a) → partial P m → partial Q m.
Proof. intros HPQ Hm w. specialize (Hm w). destruct (m w).2; auto. Qed.

Lemma always_mono {A} (P Q : A → Prop) m :
  (∀ a, P a → Q a) → always P m → always Q m.
Proof. intros HPQ Hm w. destruct (Hm w) as (a & ? & ?). eauto. Qed.

Lemma always_ret {A} (P : A → Prop) a : P a → always P (ret a).
Proof. intros HP w. by exists a. Qed.

Lemma partial_ret {A} (P : A → Prop) a : P a → partial P (ret a).
Proof. intros HP w. done. Qed.

Lemma partial_throw {A} (P : A → Prop) e : partial P (throw e).
Proof. intros w. done. Qed.

Lemma partial_bind {A B} (R : A → Prop) (P : B → Prop) m k :
  partial R m → (∀ a, R a → partial P (k a)) → partial P (bind m k).
Proof.
  intros Hm Hk w. specialize (Hm w). unfold bind.
  destruct (m w) as [w' [a| |]]; simpl in *; [by apply Hk | done | done].
Qed.

Lemma always_bind {A B} (R : A → Prop) (P : B → Prop) m k :
  always R m → (∀ a, R a → always P (k a)) → always P (bind m k).
Proof.
  intros Hm Hk w. destruct (Hm w) as (a & Ha & HR). unfold bind.
  destruct (m w) as [w' r]; simpl in *; subst. by apply Hk.
Qed.

(** A handler that returns turns every failure into a result. *)
Lemma always_try_catch {A} (P : A → Prop) m h :
  partial P m → (∀ e, always P (h e)) → always P (try_catch m h).
Proof.
  intros Hm Hh w. specialize (Hm w). unfold try_catch.
  destruct (m w) as [w' [a|e|]]; simpl in *; [eauto | apply Hh | done].
Qed.

Lemma partial_try_catch {A} (P : A → Prop) m h :
  partial P m → (∀ e, partial P (h e)) → partial P (try_catch m h).
Proof.
  intros Hm Hh w. specialize (Hm w). unfold try_catch.
  destruct (m w) as [w' [a|e|]]; simpl in *; [done | apply Hh | done].
Qed.

Lemma always_loopInTry {A S} (I : S → Prop) (xs : list A) body s :
  (∀ x s, I s → partial I (body x s)) → I s →
  always I (loopInTry xs body s).
Proof.
  intros Hbody. revert s; induction xs as [|x xs IH]; intros s Hs w; simpl.
  - by exists s.
  - pose proof (Hbody x s Hs w) as Hb.
    destruct (body x s w) as [w' [s'| |]]; simpl in *; [by apply IH| |done].
    by exists s.
Qed.


Lemma partial_foldLoop {A S} (I : S → Prop) (xs : list A) body s :
  (∀ x s, I s → partial I (body x s)) → I s →
  partial I (foldLoop xs body s).
Proof.
  intros Hbody. revert s; induction xs as [|x xs IH]; intros s Hs; simpl.
  - by apply partial_ret.
  - eapply partial_bind; [by apply Hbody|]. intros s' Hs'. by apply IH.
Qed.

Lemma partial_forEach {A} (xs : list A) body :
  (∀ x, partial (λ _, True) (body x)) →
  partial (λ _, True) (forEach xs body).
Proof.
  intros Hbody. induction xs as [|x xs IH]; simpl.
  - by apply partial_ret.
  - eapply partial_bind; [apply Hbody|]. intros _ _. apply IH.
Qed.

End Outcomes.

(** The calls of [fs/promises] return or fail; none of them waits for
    ever. *)
Section PrimitivesReturn.
Context `{Host}.

Lemma partial_seq {A B} (P : B → Prop) (m : M A) k :
  partial (λ _, True) m → (∀ a, partial P (k a)) → partial P (bind m k).
Proof. intros Hm Hk. eapply partial_bind; [exact Hm | auto]. Qed.

Lemma partial_fault : partial (λ _, True) fault.
Proof. intros w. unfold fault. by destruct (faults w) as [|[[c msg]|] fs]. Qed.

Lemma partial_get {A} (f : World → A) : partial (λ _, True) (get f).
Proof. by intros w. Qed.

Lemma partial_liftE {A} (r : Error + A) : partial (λ _, True) (liftE r).
Proof. by destruct r. Qed.

Lemma partial_update change op : partial (λ _, True) (update change op).
Proof. intros w. unfold update. by destruct (change (files w)). Qed.

Ltac returns :=
  repeat first
    [ apply partial_fault | apply partial_get | apply partial_liftE
    | apply partial_update | apply partial_throw
    | apply partial_ret; exact I
    | apply partial_seq; [|intros ?]
    | case_match ].

Lemma partial_lstat p : partial (λ _, True) (lstat p).
Proof. unfold lstat. returns. Qed.
Lemma partial_stat p : partial (λ _, True) (stat p).
Proof. unfold stat. returns. Qed.
Lemma partial_access p : partial (λ _, True) (access p).
Proof. unfold access. returns. Qed.
Lemma partial_readlink p : partial (λ _, True) (readlink p).
Proof. unfold readlink. returns. Qed.
Lemma partial_readFile p : partial (λ _, True) (readFile p).
Proof. unfold readFile. returns. Qed.
Lemma partial_readdir p : partial (λ _, True) (readdir p).
Proof. unfold readdir. returns. Qed.
Lemma partial_mkdir p : partial (λ _, True) (mkdir p).
Proof. unfold mkdir. returns. Qed.
Lemma partial_rm p r f : partial (λ _, True) (rm p r f).
Proof. unfold rm. returns. Qed.
Lemma partial_symlink t p ty : partial (λ _, True) (symlink t p ty).
Proof. unfold symlink. returns. Qed.
Lemma partial_writeFile p c : partial (λ _, True) (writeFile p c).
Proof. unfold writeFile. returns. Qed.

End PrimitivesReturn.

(** ** Runs of computations *)

Section Runs.

Lemma bind_run {A B} (m : M A) (k : A → M B) w :
  bind m k w =
    match m w with
    | (w1, Ok a) => k a w1
    | (w1, Throw e) => (w1, Throw e)
    | (w1, Diverge) => (w1, Diverge)
    end.
Proof. reflexivity. Qed.

Lemma bind_Ok {A B} (m : M A) (k : A → M B) w w' b :
  bind m k w = (w', Ok b) →
  ∃ w1 a, m w = (w1, Ok a) ∧ k a w1 = (w', Ok b).
Proof.
  unfold bind. destruct (m w) as [w1 [a|e|]]; [eauto | done | done].
Qed.

(** A relation between the world before and after, kept by every step
    whatever the outcome. *)
Definition stable {A} (R : World → World → Prop) (m : M A) : Prop :=
  ∀ w, R w (m w).1.

Context (R : World → World → Prop) `{!PreOrder R}.

Lemma stable_ret {A} (a : A) : stable R (ret a).
Proof. intros w. reflexivity. Qed.

Lemma stable_throw {A} e : stable R (@throw A e).
Proof. intros w. reflexivity. Qed.

Lemma stable_diverge {A} : stable R (@diverge A).
Proof. intros w. reflexivity. Qed.

Lemma stable_bind {A B} (m : M A) (k : A → M B) :
  stable R m → (∀ a, stable R (k a)) → stable R (bind m k).
Proof.
  intros Hm Hk w. specialize (Hm w). unfold bind.
  destruct (m w) as [w1 [a|e|]]; simpl in *; [|done|done].
  etrans; [exact Hm | apply Hk].
Qed.

Lemma stable_try_catch {A} (m : M A) h :
  stable R m → (∀ e, stable R (h e)) → stable R (try_catch m h).
Proof.
  intros Hm Hh w. specialize (Hm w). unfold try_catch.
  destruct (m w) as [w1 [a|e|]]; simpl in *; [done| |done].
  etrans; [exact Hm | apply Hh].
Qed.

Lemma stable_forEach {A} (xs : list A) body :
  (∀ x, x ∈ xs → stable R (body x)) → stable R (forEach xs body).
Proof.
  induction xs as [|x xs IH]; intros Hbody; simpl.
  - apply stable_ret.
  - apply stable_bind; [apply Hbody; by left|]. intros _.
    apply IH. intros y Hy. apply Hbody. by right.
Qed.

Lemma stable_foldLoop {A S} (xs : list A) (body : A → S → M S) s :
  (∀ x s, stable R (body x s)) → stable R (foldLoop xs body s).
Proof.
  intros Hbody. revert s; induction xs as [|x xs IH]; intros s; simpl.
  - apply stable_ret.
  - apply stable_bind; [apply Hbody | intros s'; apply IH].
Qed.

Lemma stable_loopInTry {A S} (xs : list A) (body : A → S → M S) s :
  (∀ x s, stable R (body x s)) → stable R (loopInTry xs body s).
Proof.
  intros Hbody. revert s; induction xs as [|x xs IH]; intros s w; simpl.
  - reflexivity.
  - pose proof (Hbody x s w) as Hb.
    destruct (body x s w) as [w1 [s'| |]]; simpl in *; [|done|done].
    etrans; [exact Hb | apply IH].
Qed.

End Runs.

(** ** What the calls do to the tree *)

Section Tree.
Context `{Host}.

Lemma below_Some k k' r : below k k' = Some r ↔ k' = k ++ r.
Proof.
  revert k'; induction k as [|x k IH]; intros k'; simpl.
  - split; [by intros [= ->] | by intros ->].
  - destruct k' as [|y k']; [done|].
    destruct (streq x y) eqn:E.
    + apply streq_spec in E as ->. rewrite IH. split; [by intros -> | by intros [= ->]].
    + split; [done|]. intros [= -> _]. by rewrite streq_refl in E.
Qed.

Lemma validName_goodSeg x : validName x = true ↔ goodSeg x.
Proof.
  unfold validName, goodSeg.
  rewrite !andb_true_iff, !negb_true_iff.
  assert (∀ a b, streq a b = false ↔ a ≠ b) as Hne.
  { intros a b. split.
    - intros E ->. by rewrite streq_refl in E.
    - apply streq_false. }
  rewrite !Hne.
  assert (forallb (λ c, negb (c =? slash)) x = true ↔ slash ∉ x) as ->.
  { induction x as [|c x IH]; simpl.
    - split; [intros _; apply not_elem_of_nil | done].
    - rewrite andb_true_iff, IH, negb_true_iff, N.eqb_neq, not_elem_of_cons.
      split; intros [? ?]; split; auto. }
  tauto.
Qed.

Lemma children_spec m k name node :
  (name, node) ∈ children m k
  ↔ m !! (k ++ [name]) = Some node ∧ validName name = true.
Proof.
  unfold children. rewrite list_elem_of_omap. split.
  - intros ([k' n] & Hin & Hf). apply elem_of_map_to_list in Hin.
    simpl in Hf. destruct (below k k') as [[|x [|? ?]]|] eqn:Hb; try done.
    apply below_Some in Hb as ->.
    destruct (validName x) eqn:Hv; [|done]. by injection Hf as -> ->.
  - intros [Hm Hv]. exists (k ++ [name], node). split.
    + by apply elem_of_map_to_list.
    + simpl. rewrite (proj2 (below_Some k (k ++ [name]) [name])) by done.
      by rewrite Hv.
Qed.

Lemma children_valid m k e : e ∈ children m k → goodSeg e.1.
Proof.
  destruct e as [name node]. intros [_ Hv]%children_spec.
  by apply validName_goodSeg.
Qed.

Lemma children_NoDup m k : NoDup (children m k).*1.
Proof.
  unfold children.
  pose proof (NoDup_fst_map_to_list m) as Hnd.
  induction (map_to_list m) as [|[k' n] l IH]; simpl; [constructor|].
  inversion Hnd as [|? ? Hnotin Hnd']; subst.
  destruct (below k k') as [[|x [|? ?]]|] eqn:Hb; simpl; auto.
  destruct (validName x); simpl; auto.
  apply below_Some in Hb as ->.
  constructor; [|auto].
  intros Hin. apply Hnotin.
  apply list_elem_of_fmap in Hin as ([x' n'] & Hx & Hin). simpl in Hx. subst x'.
  apply list_elem_of_omap in Hin as ([k'' n''] & Hin & Hf). simpl in Hf.
  destruct (below k k'') as [[|y [|? ?]]|] eqn:Hb'; try done.
  apply below_Some in Hb' as ->.
  destruct (validName y); [|done]. injection Hf as -> ->.
  apply list_elem_of_fmap. by exists (k ++ [x], n').
Qed.

End Tree.

Section Effects.
Context `{Host}.

Opaque MAXSYMLINKS.

(** Nothing changed but the schedule of faults. *)
Definition same (w w' : World) : Prop :=
  files w' = files w ∧ journal w' = journal w.

Global Instance same_preorder : PreOrder same.
Proof.
  split; [by intros w|].
  intros w1 w2 w3 [? ?] [? ?]. split; congruence.
Qed.

Lemma same_fault : stable same fault.
Proof.
  intros w. unfold fault. by destruct (faults w) as [|[[c msg]|] fs].
Qed.

Lemma same_get {A} (f : World → A) : stable same (get f).
Proof. by intros w. Qed.

Lemma same_liftE {A} (r : Error + A) : stable same (liftE r).
Proof. by destruct r. Qed.

Local Ltac reads :=
  repeat first
    [ apply same_fault | apply same_get | apply same_liftE
    | apply (stable_throw same) | apply (stable_ret same)
    | apply (stable_bind same); [|intros ?]
    | case_match ].

Lemma same_lstat p : stable same (lstat p).
Proof. unfold lstat. reads. Qed.
Lemma same_stat p : stable same (stat p).
Proof. unfold stat. reads. Qed.
Lemma same_access p : stable same (access p).
Proof. unfold access. reads. Qed.
Lemma same_readlink p : stable same (readlink p).
Proof. unfold readlink. reads. Qed.
Lemma same_readFile p : stable same (readFile p).
Proof. unfold readFile. reads. Qed.
Lemma same_readdir p : stable same (readdir p).
Proof. unfold readdir. reads. Qed.

Lemma stable_weaken {A} (R R' : World → World → Prop) (m : M A) :
  (∀ w w', R w w' → R' w w') → stable R m → stable R' m.
Proof. intros HR Hm w. apply HR, Hm. Qed.

(** What is known of the result may be used for the steps after it. *)
Lemma stable_bind_partial {A B} R `{!PreOrder R} (Q : A → Prop)
    (m : M A) (k : A → M B) :
  stable R m → partial Q m → (∀ a, Q a → stable R (k a)) →
  stable R (bind m k).
Proof.
  intros Hm HQ Hk w. specialize (Hm w). specialize (HQ w). unfold bind.
  destruct (m w) as [w1 [a|e|]]; simpl in *; [|done|done].
  etrans; [exact Hm | by apply Hk].
Qed.

(** A relation between trees, read as one between worlds. *)
Definition onFiles (Rm : relation (gmap (list jsstring) node))
  : World → World → Prop :=
  λ w w', Rm (files w) (files w').

Global Instance onFiles_preorder Rm : PreOrder Rm → PreOrder (onFiles Rm).
Proof.
  intros HR. split; [intros w; unfold onFiles; reflexivity|].
  intros w1 w2 w3 H1 H2. unfold onFiles in *. by etrans.
Qed.

Lemma same_onFiles Rm `{!Reflexive Rm} w w' : same w w' → onFiles Rm w w'.
Proof. intros [E _]. unfold onFiles. by rewrite E. Qed.

Lemma stable_same {A} Rm `{!Reflexive Rm} (m : M A) :
  stable same m → stable (onFiles Rm) m.
Proof. apply stable_weaken. intros w w'. by apply same_onFiles. Qed.

Lemma stable_update Rm change op :
  (∀ m m', change m = inr m' → Rm m m') → Reflexive Rm →
  stable (onFiles Rm) (update change op).
Proof.
  intros Hc Hr w. unfold update, onFiles.
  destruct (change (files w)) as [e|m'] eqn:E; simpl; [reflexivity|].
  by apply Hc.
Qed.

(** Directories stay directories. *)
Definition keepsDirs (m m' : gmap (list jsstring) node) : Prop :=
  ∀ k, m !! k = Some Dir → m' !! k = Some Dir.

Global Instance keepsDirs_preorder : PreOrder keepsDirs.
Proof. split; [by intros m k | intros m1 m2 m3 H1 H2 k Hk; auto]. Qed.

(** No link at or below [D]. *)
Definition noLinks (D : list jsstring) (m : gmap (list jsstring) node)
  : Prop :=
  ∀ k t, D `prefix_of` k → m !! k ≠ Some (Symlink t).

(** All changes are at or below [D], as long as no link stands there. *)
Definition below (D : list jsstring) (m m' : gmap (list jsstring) node)
  : Prop :=
  keepsDirs m m' ∧
  (noLinks D m → noLinks D m' ∧ ∀ k, ¬ D `prefix_of` k → m' !! k = m !! k).

(** The same, apart from missing ancestors of [D] that were created as
    directories. *)
Definition within (D : list jsstring) (m m' : gmap (list jsstring) node)
  : Prop :=
  keepsDirs m m' ∧
  (noLinks D m → noLinks D m' ∧
    ∀ k, ¬ D `prefix_of` k →
      m' !! k = m !! k
      ∨ (m !! k = None ∧ m' !! k = Some Dir ∧ k `prefix_of` D)).

Global Instance below_preorder D : PreOrder (below D).
Proof.
  split.
  - intros m. split; [reflexivity | done].
  - intros m1 m2 m3 [Hd1 H1] [Hd2 H2]. split; [by etrans|].
    intros Hn. destruct (H1 Hn) as [Hn2 Hf1]. destruct (H2 Hn2) as [Hn3 Hf2].
    split; [done|]. intros k Hk. by rewrite Hf2, Hf1.
Qed.

Global Instance within_preorder D : PreOrder (within D).
Proof.
  split.
  - intros m. split; [reflexivity | intros Hn; split; [done | by left]].
  - intros m1 m2 m3 [Hd1 H1] [Hd2 H2]. split; [by etrans|].
    intros Hn. destruct (H1 Hn) as [Hn2 Hf1]. destruct (H2 Hn2) as [Hn3 Hf2].
    split; [done|]. intros k Hk.
    destruct (Hf1 k Hk) as [E1|(E1 & E1' & Hp)].
    + rewrite <- E1. by apply Hf2.
    + right. split; [done|]. split; [by apply Hd2 | done].
Qed.

Lemma below_within D m m' : below D m m' → within D m m'.
Proof.
  intros [Hd Hf]. split; [done|]. intros Hn. destruct (Hf Hn) as [Hn' Hf'].
  split; [done|]. intros k Hk. left. by apply Hf'.
Qed.

Lemma prefix_snoc_not (D : list jsstring) n k :
  ¬ D `prefix_of` k → ¬ (D ++ [n]) `prefix_of` k.
Proof. intros Hk [r ->]. apply Hk. exists ([n] ++ r). by rewrite app_assoc. Qed.

Lemma below_parent D n m m' : below (D ++ [n]) m m' → below D m m'.
Proof.
  intros [Hd Hf]. split; [done|]. intros Hn.
  destruct Hf as [Hn' Hf].
  { intros k t Hk. apply Hn. etrans; [|exact Hk]. by exists [n]. }
  split.
  - intros k t Hk. destruct (decide ((D ++ [n]) `prefix_of` k)) as [Hk'|Hk'].
    + by apply Hn'.
    + rewrite Hf by done. by apply Hn.
  - intros k Hk. by apply Hf, prefix_snoc_not.
Qed.

Lemma within_parent D n m m' : within (D ++ [n]) m m' → within D m m'.
Proof.
  intros [Hd Hf]. split; [done|]. intros Hn.
  destruct Hf as [Hn' Hf].
  { intros k t Hk. apply Hn. etrans; [|exact Hk]. by exists [n]. }
  assert (∀ k, ¬ D `prefix_of` k →
            m' !! k = m !! k
            ∨ (m !! k = None ∧ m' !! k = Some Dir ∧ k `prefix_of` D)) as Hf'.
  { intros k Hk. destruct (Hf k (prefix_snoc_not _ n _ Hk))
      as [E|(E1 & E2 & Hp)]; [by left|].
    right. repeat split; try done.
    destruct Hp as [r Hr]. destruct r as [|x r] using rev_ind.
    + rewrite app_nil_r in Hr. subst k. destruct Hk. by exists [n].
    + rewrite app_assoc in Hr. apply app_inj_tail in Hr as [-> _].
      by exists r. }
  split; [|done].
  intros k t Hk. destruct (decide ((D ++ [n]) `prefix_of` k)) as [Hk'|Hk'].
  - by apply Hn'.
  - destruct (Hf k Hk') as [E|(E1 & E2 & Hp)].
    + rewrite E. by apply Hn.
    + by rewrite E2.
Qed.

(** *** [mkdir -p] *)

Lemma mkdirFrom_frame m pre rest m' :
  mkdirFrom m pre rest = inr m' →
  ∀ k, m' !! k = m !! k
       ∨ (m !! k = None ∧ m' !! k = Some Dir
          ∧ k `prefix_of` (pre ++ rest) ∧ k ≠ pre ∧ pre `prefix_of` k).
Proof.
  revert m pre; induction rest as [|x rest IH]; intros m pre; simpl.
  - intros [= ->] k. by left.
  - destruct (m !! (pre ++ [x])) as [[c| |t]|] eqn:E.
    + by destruct rest.
    + intros Hrun k. destruct (IH _ _ Hrun k) as [E'|(E1 & E2 & Hp & Hne & Hpp)].
      * by left.
      * right. repeat split; try done.
        -- by rewrite <- app_assoc in Hp.
        -- intros ->. destruct Hpp as [r Hr].
           apply (f_equal length) in Hr. rewrite !length_app in Hr.
           simpl in Hr. lia.
        -- etrans; [|exact Hpp]. by exists [x].
    + destruct rest; [|discriminate].
      destruct (follow MAXSYMLINKS m (render (pre ++ [x])))
        as [e|[q [c| |t']]]; try discriminate.
      intros [= ->] k. by left.
    + intros Hrun k. destruct (IH _ _ Hrun k) as [E'|(E1 & E2 & Hp & Hne & Hpp)].
      * destruct (decide (k = pre ++ [x])) as [->|Hk].
        -- right. rewrite E', lookup_insert_eq. repeat split; try done.
           ++ by apply prefix_app, prefix_cons, prefix_nil.
           ++ intros Heq. apply (f_equal length) in Heq.
              rewrite length_app in Heq. simpl in Heq. lia.
           ++ by exists [x].
        -- left. by rewrite E', lookup_insert_ne.
      * right. rewrite lookup_insert_ne in E1 by done.
        repeat split; try done.
        -- by rewrite <- app_assoc in Hp.
        -- intros ->. destruct Hpp as [r Hr].
           apply (f_equal length) in Hr. rewrite !length_app in Hr.
           simpl in Hr. lia.
        -- etrans; [|exact Hpp]. by exists [x].
Qed.

Lemma mkdirFrom_dir m pre rest m' :
  mkdirFrom m pre rest = inr m' → rest ≠ [] →
  (∀ t, m !! (pre ++ rest) ≠ Some (Symlink t)) →
  m' !! (pre ++ rest) = Some Dir.
Proof.
  revert m pre; induction rest as [|x rest IH]; intros m pre; [done|].
  simpl. intros Hrun _ Hns.
  destruct rest as [|y rest].
  - simpl in *. destruct (m !! (pre ++ [x])) as [[c| |t]|] eqn:E.
    + done.
    + by injection Hrun as <-.
    + by destruct (Hns t).
    + injection Hrun as <-. by rewrite lookup_insert_eq.
  - assert (pre ++ x :: y :: rest = (pre ++ [x]) ++ y :: rest) as Eq
      by (by rewrite <- app_assoc).
    rewrite Eq in *.
    destruct (m !! (pre ++ [x])) as [[c| |t]|] eqn:E; try done.
    + by eapply IH.
    + eapply IH; [exact Hrun | done |].
      intros t. rewrite lookup_insert_ne; [apply Hns|].
      intros Heq. apply (f_equal length) in Heq.
      rewrite !length_app in Heq. simpl in Heq. lia.
Qed.

Lemma within_mkdir p : stable (onFiles (within (key p))) (mkdir p).
Proof.
  unfold mkdir.
  apply stable_bind; [apply _ | apply stable_same, same_fault; apply _ |].
  intros _. destruct (tooLong p); [apply stable_throw; apply _|].
  apply stable_update; [|apply _]. intros m m' E.
  pose proof (mkdirFrom_frame _ _ _ _ E) as Hf. split.
  - intros k Hk. destruct (Hf k) as [->|(E1 & _)]; congruence.
  - intros Hn. split.
    + intros k t Hk. destruct (Hf k) as [->|(_ & -> & _)]; [by apply Hn|done].
    + intros k Hk. destruct (Hf k) as [->|(E1 & E2 & Hp & _)];
        [by left | right; by rewrite app_nil_l in Hp].
Qed.

(** *** Writing one file *)

Lemma putFile_spec m path c m' :
  putFile m path c = inr m' →
  key path ≠ [] ∧ m' = <[key path := File c]> m
  ∧ m !! key path ≠ Some Dir.
Proof.
  unfold putFile. destruct (key path) as [|x k] eqn:Ek; [done|].
  unfold nodeAt at 1.
  destruct (m !! (x :: k)) as [[c'| |t]|] eqn:E; try done.
  all: destruct (nodeAt m (parentKey (x :: k))) as [[| |]|]; try done.
  all: by intros [= <-].
Qed.

Lemma key_render k : Forall goodSeg k → key (render k) = k.
Proof.
  intros Hk. rewrite key_rawSegs. unfold rawSegs.
  change (isAbsolute (render k)) with true. cbv iota. rewrite app_nil_l.
  rewrite split_render by done. rewrite normSegs_empty.
  destruct k as [|x k]; [done|]. by rewrite normSegs_good.
Qed.

Lemma key_render_key p : key (render (key p)) = key p.
Proof. apply key_render, key_good. Qed.

Lemma MAXSYMLINKS_pos : ∃ b, MAXSYMLINKS = S b.
Proof. Transparent MAXSYMLINKS. by exists 39%nat. Opaque MAXSYMLINKS. Qed.

Lemma landing_nolink m p :
  (∀ t, nodeAt m (key p) ≠ Some (Symlink t)) →
  landing MAXSYMLINKS m p = inr (render (key p)).
Proof.
  intros Hn. destruct MAXSYMLINKS_pos as [b ->]. simpl.
  destruct (nodeAt m (key p)) as [[c| |t]|]; try done. by destruct (Hn t).
Qed.

Lemma noLinks_nodeAt D m k t :
  noLinks D m → D `prefix_of` k → nodeAt m k ≠ Some (Symlink t).
Proof. intros Hn Hk. destruct k; [done|]. by apply Hn. Qed.

Lemma putFile_below m p c m' :
  putFile m p c = inr m' → below (key p) m m'.
Proof.
  intros (Hk & -> & Hd)%putFile_spec. split.
  - intros k E. destruct (decide (k = key p)) as [->|Hne]; [done|].
    by rewrite lookup_insert_ne.
  - intros Hn. split.
    + intros k t Hp. destruct (decide (k = key p)) as [->|Hne].
      * by rewrite lookup_insert_eq.
      * rewrite lookup_insert_ne by done. by apply Hn.
    + intros k Hp. rewrite lookup_insert_ne; [done|]. by intros <-.
Qed.

Lemma keepsDirs_putFile m p c m' : putFile m p c = inr m' → keepsDirs m m'.
Proof. intros Hp. by apply putFile_below in Hp as [? _]. Qed.

Lemma writeThrough_keepsDirs p c m m' :
  writeThrough p c m = inr m' → keepsDirs m m'.
Proof.
  unfold writeThrough. destruct (landing _ _ _) as [e|t]; [done|].
  apply keepsDirs_putFile.
Qed.

Lemma writeThrough_nolink p c m m' :
  (∀ t, nodeAt m (key p) ≠ Some (Symlink t)) →
  writeThrough p c m = inr m' →
  m' = <[key p := File c]> m ∧ key p ≠ [] ∧ m !! key p ≠ Some Dir.
Proof.
  intros Hn. unfold writeThrough. rewrite landing_nolink by done.
  intros (Hk & -> & Hd)%putFile_spec. rewrite key_render_key in *. done.
Qed.

Lemma writeThrough_below p c m m' :
  writeThrough p c m = inr m' → below (key p) m m'.
Proof.
  intros Hw. split; [by eapply writeThrough_keepsDirs|]. intros Hn.
  apply writeThrough_nolink in Hw as (-> & Hk & Hd);
    [|intros t; by apply (noLinks_nodeAt (key p))].
  split.
  - intros k t Hp. destruct (decide (k = key p)) as [->|Hne].
    + by rewrite lookup_insert_eq.
    + rewrite lookup_insert_ne by done. by apply Hn.
  - intros k Hp. rewrite lookup_insert_ne; [done|]. by intros <-.
Qed.

Lemma unlinked_spec p m m' :
  unlinked p m = inr m' → m' = delete (key p) m ∧ m !! key p ≠ Some Dir.
Proof.
  unfold unlinked. destruct (m !! key p) as [[c| |t]|]; try done;
    by intros [= <-].
Qed.

Lemma unlinked_below p m m' : unlinked p m = inr m' → below (key p) m m'.
Proof.
  intros [-> Hd]%unlinked_spec. split.
  - intros k E. destruct (decide (k = key p)) as [->|Hne]; [done|].
    by rewrite lookup_delete_ne.
  - intros Hn. split.
    + intros k t Hp. destruct (decide (k = key p)) as [->|Hne].
      * by rewrite lookup_delete_eq.
      * rewrite lookup_delete_ne by done. by apply Hn.
    + intros k Hp. rewrite lookup_delete_ne; [done|]. by intros <-.
Qed.

Lemma mkdirOne_spec p m m' :
  mkdirOne p m = inr m' →
  m' = <[key p := Dir]> m ∧ nodeAt m (key p) = None
  ∧ nodeAt m (parentKey (key p)) = Some Dir.
Proof.
  unfold mkdirOne. destruct (nodeAt m (key p)); [done|].
  destruct (nodeAt m (parentKey (key p))) as [[c| |t]|]; try done.
  by intros [= <-].
Qed.

Lemma mkdirOne_below p m m' : mkdirOne p m = inr m' → below (key p) m m'.
Proof.
  intros (-> & Hk & _)%mkdirOne_spec.
  assert (m !! key p = None) as Hnone by (by destruct (key p)).
  split.
  - intros k E. destruct (decide (k = key p)) as [->|Hne]; [congruence|].
    by rewrite lookup_insert_ne.
  - intros Hn. split.
    + intros k t Hp. destruct (decide (k = key p)) as [->|Hne].
      * by rewrite lookup_insert_eq.
      * rewrite lookup_insert_ne by done. by apply Hn.
    + intros k Hp. rewrite lookup_insert_ne; [done|]. by intros <-.
Qed.

(** *** [cp] *)

Lemma below_cpNode fuel src dest :
  stable (onFiles (below (key dest))) (cpNode fuel src dest).
Proof.
  revert src dest; induction fuel as [|fuel IH]; intros src dest; simpl.
  - apply stable_diverge; apply _.
  - apply stable_bind; [apply _ | apply stable_same, same_fault; apply _ |].
    intros _. apply stable_bind; [apply _ | apply stable_same, same_get; apply _ |].
    intros m. apply stable_bind; [apply _ | apply stable_same, same_liftE; apply _ |].
    intros s. apply stable_bind; [apply _ | |].
    { repeat case_match; (apply stable_ret || apply stable_throw); apply _. }
    intros d. destruct (tooLong dest); [apply stable_throw; apply _|].
    apply stable_bind; [apply _ | |].
    { repeat case_match; (apply stable_ret || apply stable_throw); apply _. }
    intros _.
    assert (stable (onFiles (below (key dest)))
              (forEach (children m (key s.1))
                 (λ e, cpNode fuel (join [s.1; e.1]) (join [dest; e.1]))))
      as Hrec.
    { apply stable_forEach; [apply _|]. intros e He.
      eapply stable_weaken; [|apply IH].
      intros w w'. unfold onFiles.
      rewrite key_join by (by eapply children_valid). apply below_parent. }
    destruct s as [sp [c| |t]]; simpl.
    + destruct d as [[dp [c'| |t']]|].
      * apply stable_update; [|apply _]. intros m1 m2.
        destruct (unlinked dest m1) as [e|m1'] eqn:E1; [done|]. intros E2.
        etrans; [by eapply unlinked_below | by eapply writeThrough_below].
      * apply stable_throw; apply _.
      * apply stable_update; [|apply _]. intros m1 m2.
        destruct (unlinked dest m1) as [e|m1'] eqn:E1; [done|]. intros E2.
        etrans; [by eapply unlinked_below | by eapply writeThrough_below].
      * apply stable_update; [|apply _]. intros m1 m2.
        apply writeThrough_below.
    + destruct d as [[dp [c'| |t']]|]; try (apply stable_throw; apply _).
      * case_bool_decide; [apply stable_throw; apply _|].
        apply stable_bind; [apply _ | apply stable_ret; apply _ | done].
      * case_bool_decide; [apply stable_throw; apply _|].
        apply stable_bind; [apply _ | | done].
        apply stable_update; [|apply _]. intros m1 m2. apply mkdirOne_below.
    + apply stable_throw; apply _.
Qed.

Lemma partial_readdir_names p :
  partial (Forall (λ e, goodSeg (name e))) (readdir p).
Proof.
  unfold readdir.
  eapply partial_bind; [apply partial_fault|]. intros _ _.
  eapply partial_bind; [apply partial_get|]. intros m _.
  eapply partial_bind; [apply partial_liftE|]. intros r _.
  destruct r.2; try apply partial_throw.
  apply partial_ret. apply Forall_fmap, Forall_forall.
  intros e He. simpl. by eapply children_valid.
Qed.

Lemma within_copyDirectory fuel src dest :
  stable (onFiles (within (key dest))) (copyDirectory fuel src dest).
Proof.
  revert src dest; induction fuel as [|fuel IH]; intros src dest; simpl.
  - apply stable_diverge; apply _.
  - apply stable_bind; [apply _ | apply within_mkdir |]. intros _.
    eapply stable_bind_partial;
      [apply _ | apply stable_same, same_readdir; apply _
      | apply partial_readdir_names |].
    intros entries Hnames. apply stable_forEach; [apply _|].
    intros entry [_ He]%list_elem_of_filter.
    assert (goodSeg (name entry)) as Hgood
      by (by eapply Forall_forall in Hnames).
    destruct (isDirectory (dtype entry)).
    + eapply stable_weaken; [|apply IH]. intros w w'. unfold onFiles.
      rewrite key_join by done. apply within_parent.
    + eapply stable_weaken; [|apply below_cpNode]. intros w w'.
      unfold onFiles. rewrite key_join by done.
      intros Hb. by apply below_parent, below_within in Hb.
Qed.

End Effects.

(** ** Copies end: paths grow and the system bounds them *)

Section Termination.
Context `{Host}.

Lemma partial_forEach_in {A} (xs : list A) body :
  (∀ x, x ∈ xs → partial (λ _, True) (body x)) →
  partial (λ _, True) (forEach xs body).
Proof.
  induction xs as [|x xs IH]; intros Hbody; simpl.
  - by apply partial_ret.
  - eapply partial_bind; [apply Hbody; by left|]. intros _ _.
    apply IH. intros y Hy. apply Hbody. by right.
Qed.

Lemma length_joinSlash_snoc k n :
  (length (joinSlash (k ++ [n])) ≥ length (joinSlash k) + length n)%nat.
Proof.
  destruct k as [|x k]; [simpl; lia|].
  rewrite joinSlash_app by done. rewrite length_app. simpl. lia.
Qed.

Lemma length_render_snoc k n :
  n ≠ [] → (length (render k) < length (render (k ++ [n])))%nat.
Proof.
  intros Hn. unfold render.
  pose proof (length_joinSlash_snoc k n) as Hl.
  assert (1 ≤ length n)%nat by (destruct n; simpl; [done|lia]).
  rewrite !length_cons. unfold jsstring, jschar in *. lia.
Qed.

Lemma length_render_join d n :
  goodSeg n →
  (length (render (key d)) < length (render (key (join [d; n]))))%nat.
Proof.
  intros Hn. rewrite key_join by done. apply length_render_snoc. apply Hn.
Qed.

Lemma partial_cpNode fuel src dest :
  (1 ≤ fuel)%nat →
  (PATH_MAX + 2 ≤ fuel + length (render (key dest)))%nat →
  partial (λ _, True) (cpNode fuel src dest).
Proof.
  revert src dest; induction fuel as [|fuel IH]; intros src dest Hf Hlen;
    [lia|].
  change (cpNode (S fuel) src dest) with
    (fault ;;
     m <- get files ;;
     s <- liftE (follow MAXSYMLINKS m src) ;;
     d <- (match follow MAXSYMLINKS m dest with
           | inr d => ret (Some d)
           | inl e => if isENOENT e then ret None else throw e
           end) ;;
     if tooLong dest
     then throw (err ENAMETOOLONG "ENAMETOOLONG: name too long, cp")
     else
     match s.2, d with
     | _, Some (dpath, _) =>
         if streq s.1 dpath
         then throw (err ERR_FS_CP_EINVAL "src and dest cannot be the same")
         else ret tt
     | _, None => ret tt
     end ;;
     match s.2, d with
     | Dir, Some (_, Dir) | Dir, None =>
         if bool_decide (key src `prefix_of` key dest)
         then throw (err ERR_FS_CP_EINVAL
                       "cannot copy a directory to a subdirectory of self")
         else
           (match d with
            | None => update (mkdirOne dest) (OpMkdir dest)
            | Some _ => ret tt
            end) ;;
           forEach (children m (key s.1))
             (λ e, cpNode fuel (join [s.1; e.1]) (join [dest; e.1]))
     | Dir, Some _ =>
         throw (err ERR_FS_CP_DIR_TO_NON_DIR
                  "cannot overwrite non-directory with directory")
     | File _, Some (_, Dir) =>
         throw (err ERR_FS_CP_NON_DIR_TO_DIR
                  "cannot overwrite directory with non-directory")
     | File c, Some _ =>
         update (λ m, match unlinked dest m with
                      | inl e => inl e
                      | inr m' => writeThrough dest c m'
                      end)
           (OpCopyFile src dest)
     | File c, None => update (writeThrough dest c) (OpCopyFile src dest)
     | Symlink _, _ => throw (err ELOOP "ELOOP: too many symbolic links")
     end).
  apply partial_seq; [apply partial_fault|]. intros _.
  apply partial_seq; [apply partial_get|]. intros m.
  apply partial_seq; [apply partial_liftE|]. intros s.
  apply partial_seq.
  { destruct (follow MAXSYMLINKS m dest) as [e|d0];
      [destruct (isENOENT e)|];
      (apply partial_ret; exact I) || apply partial_throw. }
  intros d. unfold tooLong. case_bool_decide as Hlong; [apply partial_throw|].
  assert (partial (λ _, True)
            (forEach (children m (key s.1))
               (λ e, cpNode fuel (join [s.1; e.1]) (join [dest; e.1]))))
    as Hrec.
  { apply partial_forEach_in. intros e He.
    pose proof (length_render_join dest e.1 (children_valid _ _ _ He)).
    unfold jsstring, jschar in *. apply IH; lia. }
  destruct s as [sp [c| |t]]; cbn [fst snd].
  - destruct d as [[dp [c'| |t']]|].
    all: apply partial_seq;
      [ try destruct (streq sp dp);
        (apply partial_ret; exact I) || apply partial_throw |].
    all: intros _; apply partial_update || apply partial_throw.
  - destruct d as [[dp [c'| |t']]|].
    all: apply partial_seq;
      [ try destruct (streq sp dp);
        (apply partial_ret; exact I) || apply partial_throw |].
    all: intros _; try apply partial_throw.
    + case_bool_decide; [apply partial_throw|].
      apply partial_seq; [apply partial_ret; exact I | intros _; exact Hrec].
    + case_bool_decide; [apply partial_throw|].
      apply partial_seq; [apply partial_update | intros _; exact Hrec].
  - destruct d as [[dp [c'| |t']]|].
    all: apply partial_seq;
      [ try destruct (streq sp dp);
        (apply partial_ret; exact I) || apply partial_throw |].
    all: intros _; apply partial_throw.
Qed.

Lemma length_render_pos k : (1 ≤ length (render k))%nat.
Proof. unfold render. simpl. lia. Qed.

Lemma partial_cp src dest : partial (λ _, True) (cp src dest).
Proof.
  apply partial_cpNode; [lia|].
  pose proof (length_render_pos (key dest)). unfold jsstring, jschar in *. lia.
Qed.

Lemma partial_mkdir_fits p :
  partial (λ _, (length (render (key p)) ≤ PATH_MAX)%nat) (mkdir p).
Proof.
  unfold mkdir. apply partial_seq; [apply partial_fault|]. intros _.
  unfold tooLong. case_bool_decide as Hlong; [apply partial_throw|].
  intros w. unfold update. destruct (mkdirFrom _ _ _); [exact I|].
  cbn [snd]. unfold jsstring, jschar in *. lia.
Qed.

Lemma partial_copyDirectory fuel src dest :
  (1 ≤ fuel)%nat →
  (PATH_MAX + 2 ≤ fuel + length (render (key dest)))%nat →
  partial (λ _, True) (copyDirectory fuel src dest).
Proof.
  revert src dest; induction fuel as [|fuel IH]; intros src dest Hf Hlen;
    [lia|]. simpl.
  eapply partial_bind; [apply partial_mkdir_fits|]. intros [] Hfits.
  eapply partial_bind; [apply partial_readdir_names|].
  intros entries Hnames. apply partial_forEach_in.
  intros entry [_ He]%list_elem_of_filter.
  assert (goodSeg (name entry)) as Hgood
    by (by eapply Forall_forall in Hnames).
  destruct (isDirectory (dtype entry)); [|apply partial_cp].
  pose proof (length_render_join dest (name entry) Hgood).
  unfold jsstring, jschar in *. apply IH; lia.
Qed.

(** Fuel beyond [PATH_MAX] is never used up. *)
Lemma copyDirectory_returns fuel src dest :
  (PATH_MAX < fuel)%nat → partial (λ _, True) (copyDirectory fuel src dest).
Proof.
  intros Hf. apply partial_copyDirectory; [lia|].
  pose proof (length_render_pos (key dest)). unfold jsstring, jschar in *. lia.
Qed.

End Termination.

(** ** A skill and a project to run the program on *)

Definition tree (entries : list (list jsstring * node)) : World :=
  mkWorld (list_to_map entries) [] [].

Definition dirAt (p : string) : list jsstring * node :=
  (@key asciiHost (lit p), Dir).
Definition fileAt (p c : string) : list jsstring * node :=
  (@key asciiHost (lit p), File (lit c)).

(** The skill [foo], checked out under [/src], and the project [/work]. *)
Definition fooSkill : Skill.t :=
  Skill.mk (js "foo") (js "a skill") (js "/src/foo") None false.

Definition workTree : World :=
  tree [dirAt "/src"; dirAt "/src/foo";
        fileAt "/src/foo/SKILL.md" "foo|a skill"; dirAt "/work"].

(** The same tree on a host that lets [n] calls through and refuses
    the next one. *)
Definition refusing (n : nat) (w : World) : World :=
  mkWorld (files w)
    (replicate n None ++ [Some (EPERM, js "EPERM: operation not permitted")])
    [].

(** The eighth call of an install of [fooSkill] is [symlink]. *)
Definition workTreeWithoutLinks : World := refusing 7 workTree.

Definition symlinkOptions : Options.t := Options.mk None None None.
Definition copyOptions : Options.t := Options.mk None None (Some copy_mode).

Definition run {A} (m : M A) (w : World) : outcome A := (m w).2.

Lemma run_fst {A} (m : M A) w r : run m w = r → m w = ((m w).1, r).
Proof. unfold run. destruct (m w) as [w' r']. simpl. by intros ->. Qed.

(** ** Discovery returns each name once *)

Section Discovery.
Context `{Host}.

Lemma always_hasSkillMd dir : always (λ _, True) (hasSkillMd dir).
Proof.
  apply always_try_catch; [|intros e; by apply always_ret].
  eapply partial_bind; [apply partial_stat|]. intros s _. by apply partial_ret.
Qed.

Lemma always_parseSkillMd p o : always (λ _, True) (parseSkillMd p o).
Proof.
  apply always_try_catch; [|intros e; by apply always_ret].
  eapply partial_bind; [apply partial_readFile|]. intros c _.
  destruct (matter c); [|apply partial_throw].
  cbv zeta. repeat (case_match; try by apply partial_ret).
Qed.





(** A name that is already there keeps its first skill; a later one
    with the same name is dropped. *)
Lemma keepFirst_seen sk st :
  Skill.name sk ∈ st.2 → keepFirst (Some sk) st = st.
Proof. intros Hin. simpl. by rewrite bool_decide_eq_true_2. Qed.

Lemma keepFirst_new sk st :
  Skill.name sk ∉ st.2 →
  keepFirst (Some sk) st = (st.1 ++ [sk], {[Skill.name sk]} ∪ st.2).
Proof. intros Hin. simpl. by rewrite bool_decide_eq_false_2. Qed.




End Discovery.

Section DiscoveryClaim.
Context `{Host}.

(** A candidate either is new and goes to the end of the list, or
    changes nothing. *)
Lemma keepFirst_cases skill st :
  (∃ sk, skill = Some sk ∧ (Skill.name sk ∉ st.2)
         ∧ keepFirst skill st = (st.1 ++ [sk], {[Skill.name sk]} ∪ st.2))
  ∨ keepFirst skill st = st.
Proof.
  destruct skill as [sk|]; [|by right]. simpl.
  case_bool_decide; [by right | left; eauto].
Qed.





End DiscoveryClaim.

(** ** Agents without a global directory *)

Section NoGlobalDirectory.
Context `{Host}.

(** [m] fails whenever it is run. *)
Definition throws {A} (m : M A) : Prop := partial (λ _, False) m.

Lemma throws_throw {A} e : throws (@throw A e).
Proof. apply partial_throw. Qed.

Lemma throws_bind {A B} (m : M A) (k : A → M B) : throws m → throws (bind m k).
Proof. intros Hm. eapply partial_bind; [exact Hm | done]. Qed.

Lemma throws_then {A B} (m : M A) (k : A → M B) :
  partial (λ _, True) m → (∀ a, throws (k a)) → throws (bind m k).
Proof. intros Hm Hk. eapply partial_bind; [exact Hm | intros a _; apply Hk]. Qed.

Lemma throws_run {A} (m : M A) w : throws m → ∃ e, (m w).2 = Throw e.
Proof.
  intros Hm. specialize (Hm w). destruct (m w).2; [done | eauto | done].
Qed.

Lemma throws_joinArgs_undefined rest : throws (joinArgs (None :: rest)).
Proof. unfold joinArgs. simpl. apply throws_throw. Qed.

Lemma joinArgs_defined a b : joinArgs [Some a; Some b] = ret (join [a; b]).
Proof. reflexivity. Qed.

Lemma partial_joinArgs args : partial (λ _, True) (joinArgs args).
Proof.
  unfold joinArgs. destruct (mapM id args);
    [by apply partial_ret | apply partial_throw].
Qed.

Lemma partial_parseSkillMd p o : partial (λ _, True) (parseSkillMd p o).
Proof. apply always_partial, always_parseSkillMd. Qed.

Lemma partial_tryNames agentBase names :
  partial (λ _, True) (tryNames agentBase names).
Proof.
  induction names as [|n names IH]; simpl; [by apply partial_ret|].
  apply partial_seq; [apply partial_joinArgs|]. intros agentSkillDir.
  destruct (negb _); [done|].
  apply partial_seq.
  { apply partial_try_catch; [|intros e; by apply partial_ret].
    apply partial_seq; [apply partial_access | intros _; by apply partial_ret]. }
  intros []; [by apply partial_ret | done].
Qed.

Lemma partial_scanAgentEntries agentBase skill agentEntries :
  partial (λ _, True) (scanAgentEntries agentBase skill agentEntries).
Proof.
  induction agentEntries as [|e es IH]; simpl; [by apply partial_ret|].
  destruct (negb (isDirectory (dtype e))); [done|].
  destruct (negb (isPathSafe _ _)); [done|].
  apply partial_seq.
  { apply partial_try_catch; [|intros ?; by apply partial_ret].
    apply partial_seq; [apply partial_stat|]. intros _.
    apply partial_seq; [apply partial_parseSkillMd|]. intros c.
    by apply partial_ret. }
  intros []; [by apply partial_ret | done].
Qed.

Lemma partial_isInstalledFor g cwd entryName skill agentType :
  partial (λ _, True) (isInstalledFor g cwd entryName skill agentType).
Proof.
  unfold isInstalledFor.
  apply partial_seq; [apply partial_tryNames|].
  intros []; [by apply partial_ret|].
  apply partial_try_catch; [|intros ?; by apply partial_ret].
  apply partial_seq.
  - destruct (if g then _ else _); [apply partial_readdir | apply partial_throw].
  - intros es. apply partial_scanAgentEntries.
Qed.

Lemma uniq_cons seen x rest :
  has seen x = false → uniq seen (x :: rest) = x :: uniq (x :: seen) rest.
Proof. intros Hx. simpl. by rewrite Hx. Qed.

(** In the global scope the check for [replit] stops at the first
    [join]: its base directory is [undefined]. *)
Lemma throws_isInstalledFor_replit cwd entryName skill :
  throws (isInstalledFor true cwd entryName skill replit).
Proof.
  unfold isInstalledFor. simpl AgentConfig.globalSkillsDir. cbv iota.
  apply throws_bind. simpl uniq. apply throws_bind.
  apply throws_joinArgs_undefined.
Qed.

Lemma throws_foldLoop {A S} (xs1 xs2 : list A) x (body : A → S → M S) s :
  (∀ y s, partial (λ _, True) (body y s)) → (∀ s, throws (body x s)) →
  throws (foldLoop (xs1 ++ x :: xs2) body s).
Proof.
  intros Hall Hx. revert s; induction xs1 as [|y xs1 IH]; intros s; simpl.
  - apply throws_bind, Hx.
  - apply throws_then; [apply Hall | intros s'; apply IH].
Qed.

(** Whatever the global store holds, no entry of it reaches the
    result when all agents are checked. *)
Theorem listInstalledSkills_global_empty cwd :
  always (λ installed, installed = [])
    (listInstalledSkills (ListOptions.mk (Some true) cwd None)).
Proof.
  unfold listInstalledSkills. cbn [ListOptions.global ListOptions.cwd
    ListOptions.agentFilter foldLoop default].
  eapply always_bind; [|intros s Hs; apply always_ret; exact Hs].
  apply always_try_catch; [|intros e; by apply always_ret].
  eapply partial_bind; [apply partial_readdir|]. intros entries _.
  apply always_partial, always_loopInTry; [|done].
  intros entry s ->. cbn [fst snd].
  destruct (negb (isDirectory (dtype entry))); [by apply partial_ret|].
  eapply partial_bind.
  { apply (partial_try_catch (λ _, True)); [|intros ?; by apply partial_ret].
    apply partial_seq; [apply partial_stat | intros _; by apply partial_ret]. }
  intros present _. destruct (negb present); [by apply partial_ret|].
  eapply partial_bind; [apply partial_parseSkillMd|].
  intros [skill|] _; [|by apply partial_ret].
  eapply partial_mono; [|eapply throws_bind]; [done|].
  change agentKeys with
    ([amp; antigravity; augment; claude_code; openclaw; cline; codebuddy;
      codex; command_code; continue; crush; cursor; droid; gemini_cli;
      github_copilot; goose; junie; kilo; kimi_cli; kiro_cli; kode; mcpjam;
      mistral_vibe; mux; opencode; openclaude; openhands; pi; qoder;
      qwen_code] ++ replit :: [roo; trae; trae_cn; windsurf; zencoder;
      neovate; pochi; adal]).
  apply throws_foldLoop.
  - intros a installedAgents.
    apply partial_seq; [apply partial_isInstalledFor|].
    intros found. by apply partial_ret.
  - intros installedAgents. apply throws_bind, throws_isInstalledFor_replit.
Qed.

End NoGlobalDirectory.

(** The global store holds the skill [foo]; no agent exposes it. *)
Definition globalStore : World :=
  tree [dirAt "/home"; dirAt "/home/u"; dirAt "/home/u/.agents";
        dirAt "/home/u/.agents/skills"; dirAt "/home/u/.agents/skills/foo";
        fileAt "/home/u/.agents/skills/foo/SKILL.md" "foo|a skill"].

(** C9: when the global scope is listed and no agents are selected,
    [listInstalledSkills] returns no skill at all, whatever the global
    store contains: the check of the agents reaches [replit], which has
    no global directory, the [join] on [undefined] throws, and the
    handler around the scan of the scope drops the error together with
    the rest of the scan.  So the skill [foo], a directory of the
    global store with a descriptor that parses, is not in the result. *)
Theorem listInstalledSkills_global_lists_nothing :
  (∀ (H : Host) cwd w,
     run (listInstalledSkills (ListOptions.mk (Some true) cwd None)) w = Ok [])
  ∧ run (@readdir asciiHost (js "/home/u/.agents/skills")) globalStore
    = Ok [mkDirent (js "foo") StDir]
  ∧ run (@parseSkillMd asciiHost (js "/home/u/.agents/skills/foo/SKILL.md")
           None) globalStore
    = Ok (Some (Skill.mk (js "foo") (js "a skill")
                  (js "/home/u/.agents/skills/foo")
                  (Some (js "foo|a skill")) false))
  ∧ run (@listInstalledSkills asciiHost (ListOptions.mk (Some true) None None))
      globalStore
    = Ok [].
Proof.
  split.
  - intros ? cwd w. unfold run.
    destruct (listInstalledSkills_global_empty cwd w) as (r & -> & ->). done.
  - repeat split; vm_compute; reflexivity.
Qed.

(** With the agents that have a global directory, the same skill is
    listed, with no agent. *)
Example listInstalledSkills_global_filtered :
  run (@listInstalledSkills asciiHost
         (ListOptions.mk (Some true) None (Some [claude_code; cursor])))
    globalStore
  = Ok [InstalledSkill.mk (js "foo") (js "a skill")
          (js "/home/u/.agents/skills/foo") (js "/home/u/.agents/skills/foo")
          global []].
Proof. vm_compute. reflexivity. Qed.

(** ** Listing the project scope *)

Section ProjectScope.
Context `{Host}.

Opaque MAXSYMLINKS.
























End ProjectScope.

(** The project store holds the skill [bar]; the agents whose own
    directory is the store, [amp] and [kimi-cli], are the only ones
    that expose it. *)
Definition projectStore : World :=
  tree [dirAt "/work"; dirAt "/work/.agents"; dirAt "/work/.agents/skills";
        dirAt "/work/.agents/skills/bar";
        fileAt "/work/.agents/skills/bar/SKILL.md" "bar|b skill"].


Example listInstalledSkills_projectStore :
  run (@listInstalledSkills asciiHost (ListOptions.mk (Some false) None None))
    projectStore
  = Ok [InstalledSkill.mk (js "bar") (js "b skill")
          (js "/work/.agents/skills/bar") (js "/work/.agents/skills/bar")
          project [amp; kimi_cli]].
Proof. vm_compute. reflexivity. Qed.

(** ** Failures of one install *)

Section InstallFailures.
Context `{Host}.

(** The agent has a skills directory in the scope. *)
Definition supportsScope (isGlobal : bool) (agentType : AgentType) : Prop :=
  isGlobal = true → is_Some (AgentConfig.globalSkillsDir (agents agentType)).

Lemma partial_ensureDirectory p : partial (λ _, True) (ensureDirectory p).
Proof.
  unfold ensureDirectory. apply partial_seq; [|intros _; apply partial_mkdir].
  apply partial_try_catch.
  - apply partial_seq; [apply partial_lstat|]. intros stats.
    destruct (isSymbolicLink stats); [apply partial_rm | by apply partial_ret].
  - intros e. destruct (negb (isENOENT e)); [|by apply partial_ret].
    destruct (isELOOP e); [apply partial_rm | apply partial_throw].
Qed.

Lemma always_createSymlink target linkPath :
  always (λ _, True) (createSymlink target linkPath).
Proof.
  unfold createSymlink.
  apply always_try_catch; [|intros e; by apply always_ret].
  destruct (streq _ _); [by apply partial_ret|].
  apply partial_seq.
  - apply partial_try_catch.
    + apply partial_seq; [apply partial_lstat|]. intros stats.
      destruct (isSymbolicLink stats).
      * apply partial_seq; [apply partial_readlink|]. intros t.
        destruct (streq _ _); [by apply partial_ret|].
        apply partial_seq; [apply partial_rm | intros _; by apply partial_ret].
      * apply partial_seq; [apply partial_rm | intros _; by apply partial_ret].
    + intros e. apply partial_seq; [|intros _; by apply partial_ret].
      destruct (isELOOP e); [|by apply partial_ret].
      apply partial_try_catch; [apply partial_rm | intros ?; by apply partial_ret].
  - intros []; [by apply partial_ret|].
    apply partial_seq; [apply partial_mkdir|]. intros _.
    apply partial_seq; [apply partial_symlink | intros _; by apply partial_ret].
Qed.

(** ** The agent without a global directory *)

Lemma installSkillForAgent_undefined fuel skill agentType cwd mode w :
  AgentConfig.globalSkillsDir (agents agentType) = None →
  installSkillForAgent fuel skill agentType (Options.mk (Some true) cwd mode) w
  = (w, Throw undefinedPath).
Proof.
  intros Hnone. unfold installSkillForAgent.
  cbn [Options.global Options.cwd Options.mode default]. by rewrite Hnone.
Qed.

Lemma installAll_undefined fuel skill skills agentType targetAgents mode w :
  AgentConfig.globalSkillsDir (agents agentType) = None →
  installAll fuel (skill :: skills) (agentType :: targetAgents) true mode w
  = (w, Throw undefinedPath).
Proof.
  intros Hnone. unfold installAll. cbn [foldLoop]. unfold bind at 1 2 3.
  by rewrite installSkillForAgent_undefined.
Qed.

(** ** Agents with a directory in the scope *)

(** A result either tells success or carries the message of a failure. *)
Definition reported (r : InstallResult.t) : Prop :=
  InstallResult.success r = true
  ∨ (InstallResult.success r = false ∧ is_Some (InstallResult.error r)).

Lemma reported_failed agentDir mode msg : reported (failed agentDir mode msg).
Proof. right. by split; [|eexists]. Qed.

Lemma installSkillForAgent_returns fuel skill agentType options :
  (PATH_MAX < fuel)%nat →
  supportsScope (default false (Options.global options)) agentType →
  always reported (installSkillForAgent fuel skill agentType options).
Proof.
  intros Hfuel Hscope. unfold installSkillForAgent.
  set (isGlobal := default false (Options.global options)) in *.
  set (agentBase := if isGlobal then _ else _).
  assert (is_Some agentBase) as [b Hb].
  { subst agentBase. destruct isGlobal; [by apply Hscope | by eexists]. }
  rewrite Hb, joinArgs_defined.
  eapply always_bind; [apply (always_ret (λ _, True)); exact I|].
  intros agentDir _.
  destruct (negb (isPathSafe _ _)); [apply always_ret, reported_failed|].
  destruct (negb (isPathSafe _ _)); [apply always_ret, reported_failed|].
  apply always_try_catch; [|intros e; apply always_ret, reported_failed].
  destruct (default symlink_mode (Options.mode options)).
  - apply partial_seq; [apply partial_ensureDirectory|]. intros _.
    apply partial_seq; [by apply copyDirectory_returns|]. intros _.
    apply partial_seq; [apply always_partial, always_createSymlink|].
    intros created. destruct (negb created); [|apply partial_ret; by left].
    apply partial_seq.
    { apply partial_try_catch; [apply partial_rm | intros ?; by apply partial_ret]. }
    intros _. apply partial_seq; [apply partial_mkdir|]. intros _.
    apply partial_seq; [by apply copyDirectory_returns|]. intros _.
    apply partial_ret. by left.
  - apply partial_seq; [apply partial_mkdir|]. intros _.
    apply partial_seq; [by apply copyDirectory_returns|]. intros _.
    apply partial_ret. by left.
Qed.

(** The rows collected so far: [n] of them, each a success or a
    failure with its message. *)
Definition collected (n : nat) (results : list ResultRow.t) : Prop :=
  length results = n ∧ Forall (λ row, reported (ResultRow.result row)) results.

Lemma collected_snoc n results skillName agentName r :
  collected n results → reported r →
  collected (S n) (results ++ [ResultRow.mk skillName agentName r]).
Proof.
  intros [Hn Hall] Hr. split.
  - rewrite length_app. simpl. lia.
  - apply Forall_app. split; [done|]. by constructor.
Qed.

(** X2: with enough fuel and agents that have a directory in the scope,
    the loop of [runAdd] runs every pair of a skill and an agent and
    collects one row for each, a success or a failure with its
    message: no install throws. *)
Theorem installAll_returns
    fuel selectedSkills targetAgents installGlobally mode :
  (PATH_MAX < fuel)%nat →
  Forall (supportsScope installGlobally) targetAgents →
  always (collected (length selectedSkills * length targetAgents))
    (installAll fuel selectedSkills targetAgents installGlobally mode).
Proof.
  intros Hfuel Hagents. unfold installAll.
  assert (∀ skill (n : nat) results, collected n results →
    always (collected (n + length targetAgents))
      (foldLoop targetAgents
         (λ agent results,
            result <- installSkillForAgent fuel skill agent
                        (Options.mk (Some installGlobally) None (Some mode)) ;;
            ret (results ++
                 [ResultRow.mk (getSkillDisplayName skill)
                    (AgentConfig.displayName (agents agent)) result]))
         results)) as Hinner.
  { intros skill. induction Hagents as [|a l Ha Hl IH]; intros n results Hn.
    - apply always_ret. simpl. by rewrite Nat.add_0_r.
    - cbn [foldLoop]. eapply always_bind.
      + eapply always_bind; [by apply installSkillForAgent_returns|].
        intros r Hr. apply (always_ret (collected (S n))).
        by apply collected_snoc.
      + intros rs Hrs. eapply always_mono; [|by apply IH].
        intros rs' Hrs'. simpl. by rewrite <- Nat.add_succ_comm. }
  assert (∀ (n : nat) results, collected n results →
    always (collected (n + length selectedSkills * length targetAgents))
      (foldLoop selectedSkills
         (λ skill results,
            foldLoop targetAgents
              (λ agent results,
                 result <- installSkillForAgent fuel skill agent
                             (Options.mk (Some installGlobally) None (Some mode)) ;;
                 ret (results ++
                      [ResultRow.mk (getSkillDisplayName skill)
                         (AgentConfig.displayName (agents agent)) result]))
              results)
         results)) as Houter.
  { induction selectedSkills as [|s l IH]; intros n results Hn.
    - apply always_ret. simpl. by rewrite Nat.add_0_r.
    - cbn [foldLoop]. eapply always_bind; [by apply Hinner|].
      intros rs Hrs. eapply always_mono; [|by apply IH].
      intros rs' Hrs'. simpl. by rewrite Nat.add_assoc. }
  apply (Houter 0%nat). by split.
Qed.

End InstallFailures.

Lemma installAll_returns_witness :
  ∃ results,
    run (@installAll asciiHost 97 [fooSkill] [claude_code; cursor] false
           symlink_mode) workTree = Ok results
    ∧ collected 2 results.
Proof.
  assert ((@PATH_MAX asciiHost < 97)%nat) as Hfuel by (simpl; lia).
  assert (Forall (@supportsScope asciiHost false) [claude_code; cursor])
    as Hagents by (repeat constructor; intros [=]).
  destruct (@installAll_returns asciiHost 97 [fooSkill] [claude_code; cursor]
              false symlink_mode Hfuel Hagents workTree) as (results & E & Hc).
  exists results. split; [exact E | exact Hc].
Defined.

Section FailureClaims.
Context `{Host}.

(** C6: [installSkillForAgent] throws when it is asked to install for
    [replit] in the global scope: this agent has no global directory,
    and the [join] that computes the directory of the skill fails on
    [undefined] before the [try] is entered.  The loop of [runAdd]
    awaits each install without a handler, so this first pair ends
    the loop: no other pair is installed and no result is
    collected. *)
Theorem installSkillForAgent_throws_for_replit :
  (∀ fuel skill cwd mode w,
     installSkillForAgent fuel skill replit (Options.mk (Some true) cwd mode) w
     = (w, Throw undefinedPath))
  ∧ (∀ fuel skill skills targetAgents mode w,
       installAll fuel (skill :: skills) (replit :: targetAgents) true mode w
       = (w, Throw undefinedPath)).
Proof.
  split; intros.
  - by apply installSkillForAgent_undefined.
  - by apply installAll_undefined.
Qed.

End FailureClaims.

(** ** The two stages of an install in symlink mode *)

Section RunsOfCalls.
Context `{Host}.

Opaque MAXSYMLINKS.

(** An error of the environment, not of the call itself. *)
Definition fromEnv (e : Error) : Prop := ∃ c, code e = Env c.

Lemma fault_run w w' r :
  fault w = (w', r) →
  files w' = files w ∧ journal w' = journal w
  ∧ match r with Ok _ => True | Throw e => fromEnv e | Diverge => False end.
Proof.
  unfold fault. destruct (faults w) as [|[[c msg]|] fs]; intros [= <- <-];
    repeat split; by eexists.
Qed.

Lemma lstat_run p w w' r :
  lstat p w = (w', r) →
  files w' = files w
  ∧ match r with
    | Ok s => ∃ n, nodeAt (files w) (key p) = Some n ∧ s = statsOf n
    | Throw e => fromEnv e
                 ∨ (isENOENT e = true ∧ nodeAt (files w) (key p) = None)
    | Diverge => False
    end.
Proof.
  unfold lstat. rewrite bind_run.
  destruct (fault w) as [w1 r1] eqn:Ef.
  apply fault_run in Ef as (Ef & _ & Hr1).
  destruct r1 as [[]|e|]; [|intros [= <- <-]; by split; [|left]|done].
  unfold bind, get. simpl. rewrite Ef.
  destruct (nodeAt (files w) (key p)) as [n|]; intros [= <- <-];
    (split; [done|]); [by exists n | by right].
Qed.

Lemma update_run change op w w' r :
  update change op w = (w', r) →
  match r with
  | Ok _ => change (files w) = inr (files w') ∧ journal w' = journal w ++ [op]
  | Throw e => change (files w) = inl e ∧ w' = w
  | Diverge => False
  end.
Proof.
  unfold update. destruct (change (files w)) as [e|m']; by intros [= <- <-].
Qed.

Lemma rm_force_run p recursive w w' r :
  rm p recursive true w = (w', r) →
  match r with
  | Ok _ => files w' !! key p = None
  | Throw e => files w' = files w
               ∧ (fromEnv e ∨ (recursive = false ∧ files w !! key p = Some Dir))
  | Diverge => False
  end.
Proof.
  unfold rm. rewrite bind_run.
  destruct (fault w) as [w1 r1] eqn:Ef.
  apply fault_run in Ef as (Ef & _ & Hr1).
  destruct r1 as [[]|e|]; [|intros [= <- <-]; by split; [|left]|done].
  unfold bind, get. simpl. rewrite Ef.
  destruct (files w !! key p) as [[c| |t]|] eqn:E.
  - intros Hu%update_run. destruct r as [[]|e|]; [|by destruct Hu|done].
    destruct Hu as [[= <-] _]. by rewrite Ef, lookup_delete_eq.
  - destruct recursive.
    + intros Hu%update_run. destruct r as [[]|e|]; [|by destruct Hu|done].
      destruct Hu as [[= <-] _]. rewrite Ef. unfold removeTree.
      apply map_lookup_filter_None. right. intros n _ Hn. by apply Hn.
    + intros [= <- <-]. auto.
  - intros Hu%update_run. destruct r as [[]|e|]; [|by destruct Hu|done].
    destruct Hu as [[= <-] _]. by rewrite Ef, lookup_delete_eq.
  - intros [= <- <-]. by rewrite Ef.
Qed.

Lemma mkdir_run p w w' :
  mkdir p w = (w', Ok tt) →
  ∃ w1, files w1 = files w ∧ mkdirFrom (files w) [] (key p) = inr (files w').
Proof.
  unfold mkdir. rewrite bind_run.
  destruct (fault w) as [w1 r1] eqn:Ef.
  apply fault_run in Ef as (Ef & _ & Hr1).
  destruct r1 as [[]|e|]; [|done|done].
  destruct (tooLong p); [done|].
  intros [Hu _]%update_run. exists w1. by rewrite <- Ef.
Qed.

(** After [ensureDirectory], the path names a directory, not a link
    to one. *)
Lemma ensureDirectory_dir p w w' :
  ensureDirectory p w = (w', Ok tt) → nodeAt (files w') (key p) = Some Dir.
Proof.
  unfold ensureDirectory. intros (wa & [] & Ha & Hm)%bind_Ok.
  destruct (key p) as [|x k] eqn:Ek; [done|].
  apply mkdir_run in Hm as (_ & _ & Hm). rewrite Ek in Hm.
  simpl. rewrite <- (app_nil_l (x :: k)).
  eapply mkdirFrom_dir; [exact Hm | done |]. simpl.
  intros t Ht.
  unfold try_catch in Ha. rewrite bind_run in Ha.
  destruct (lstat p w) as [w1 r1] eqn:El.
  apply lstat_run in El as [Ef Hr1]. rewrite Ek in Hr1. simpl in Hr1.
  destruct r1 as [s|e|]; [| |done].
  - destruct Hr1 as (n & Hn & ->).
    destruct n as [c| |t']; simpl in Ha.
    + injection Ha as <-. congruence.
    + injection Ha as <-. congruence.
    + destruct (rm p true true w1) as [w2 r2] eqn:Er.
      apply rm_force_run in Er. rewrite Ek in Er.
      destruct r2 as [[]|e|]; [|exfalso|done].
      * injection Ha as <-. congruence.
      * destruct Er as [_ [[c Hc]|[? _]]]; [|done].
        unfold isENOENT, isELOOP in Ha. rewrite Hc in Ha. by simpl in Ha.
  - destruct Hr1 as [[c Hc]|[He Hn]].
    + unfold isENOENT, isELOOP in Ha. rewrite Hc in Ha. by simpl in Ha.
    + rewrite He in Ha. simpl in Ha. injection Ha as <-. congruence.
Qed.

End RunsOfCalls.

Section Stages.
Context `{Host}.

(** The locals of [installSkillForAgent]. *)
Definition skillNameOf (skill : Skill.t) : jsstring :=
  sanitizeName (orString (Some (Skill.name skill)) (basename (Skill.path skill))).

Definition canonicalBaseOf (options : Options.t) : jsstring :=
  getCanonicalSkillsDir (default false (Options.global options))
    (Some (orString (Options.cwd options) process_cwd)).

Definition agentBaseOf (agentType : AgentType) (options : Options.t)
  : option jsstring :=
  if default false (Options.global options)
  then AgentConfig.globalSkillsDir (agents agentType)
  else Some (join [orString (Options.cwd options) process_cwd;
                   AgentConfig.skillsDir (agents agentType)]).

(** The first two statements of the symlink branch: the canonical
    directory is made and filled. *)
Definition canonicalStage (fuel : nat) (skill : Skill.t)
    (canonicalDir : jsstring) : M unit :=
  ensureDirectory canonicalDir ;;
  copyDirectory fuel (Skill.path skill) canonicalDir.

(** The statements under [if (!symlinkCreated)], before the [return]. *)
Definition fallbackCopy (fuel : nat) (skill : Skill.t) (agentDir : jsstring)
  : M unit :=
  try_catch (rm agentDir true true) (λ _, ret tt) ;;
  mkdir agentDir ;;
  copyDirectory fuel (Skill.path skill) agentDir.

(** The rest of the symlink branch: the directory of the agent. *)
Definition agentStage (fuel : nat) (skill : Skill.t)
    (canonicalDir agentDir : jsstring) : M InstallResult.t :=
  symlinkCreated <- createSymlink canonicalDir agentDir ;;
  if negb symlinkCreated then
    fallbackCopy fuel skill agentDir ;;
    ret (InstallResult.mk true agentDir (Some canonicalDir)
           symlink_mode (Some true) None)
  else
    ret (InstallResult.mk true agentDir (Some canonicalDir)
           symlink_mode None None).

Definition reportFailure (agentDir : jsstring) (installMode : InstallMode)
    (e : Error) : M InstallResult.t :=
  ret (failed agentDir installMode (message e)).

Lemma installSkillForAgent_stages fuel skill agentType options agentBase w :
  default symlink_mode (Options.mode options) = symlink_mode →
  agentBaseOf agentType options = Some agentBase →
  let canonicalDir := join [canonicalBaseOf options; skillNameOf skill] in
  let agentDir := join [agentBase; skillNameOf skill] in
  isPathSafe (canonicalBaseOf options) canonicalDir = true →
  isPathSafe agentBase agentDir = true →
  installSkillForAgent fuel skill agentType options w
  = try_catch
      (canonicalStage fuel skill canonicalDir ;;
       agentStage fuel skill canonicalDir agentDir)
      (reportFailure agentDir symlink_mode) w.
Proof.
  intros Hmode Hbase canonicalDir agentDir Hc Ha.
  unfold installSkillForAgent. unfold agentBaseOf in Hbase.
  rewrite Hbase, joinArgs_defined, Hmode.
  fold (skillNameOf skill). fold (canonicalBaseOf options).
  fold canonicalDir. rewrite bind_run. cbn [ret]. fold agentDir.
  change (default [] (Some agentBase)) with agentBase.
  rewrite Hc, Ha. cbn [negb].
  unfold canonicalStage, agentStage, fallbackCopy, reportFailure,
    try_catch, bind.
  destruct (ensureDirectory canonicalDir w) as [w1 [[]|e|]]; [|done|done].
  destruct (copyDirectory fuel _ canonicalDir w1) as [w2 [[]|e|]];
    [|done|done].
  destruct (createSymlink canonicalDir agentDir w2) as [w3 [[]|e|]];
    cbn [negb]; [done| |done|done].
  destruct (rm agentDir true true w3) as [w4 [[]|e|]];
    unfold ret; try reflexivity;
    (destruct (mkdir agentDir w4) as [w5 [[]|e'|]]; try reflexivity);
    destruct (copyDirectory fuel (Skill.path skill) agentDir w5)
      as [w6 [[]|e''|]]; reflexivity.
Qed.

(** C1: in symlink mode, once the canonical copy is made and
    [createSymlink] reports that the link could not be made, the
    skill is copied to the directory of the agent.  If that copy
    goes through, the result has [success = true], the mode that was
    asked for, [symlink], and [symlinkFailed = true]; if the copy
    fails as well, the result has [success = false] and the message
    of the failure. *)
Theorem installSkillForAgent_symlink_fallback
    fuel skill agentType options agentBase w w1 w2 :
  (PATH_MAX < fuel)%nat →
  default symlink_mode (Options.mode options) = symlink_mode →
  agentBaseOf agentType options = Some agentBase →
  let canonicalDir := join [canonicalBaseOf options; skillNameOf skill] in
  let agentDir := join [agentBase; skillNameOf skill] in
  isPathSafe (canonicalBaseOf options) canonicalDir = true →
  isPathSafe agentBase agentDir = true →
  canonicalStage fuel skill canonicalDir w = (w1, Ok tt) →
  createSymlink canonicalDir agentDir w1 = (w2, Ok false) →
  (∃ w3, fallbackCopy fuel skill agentDir w2 = (w3, Ok tt)
         ∧ installSkillForAgent fuel skill agentType options w
           = (w3, Ok (InstallResult.mk true agentDir (Some canonicalDir)
                        symlink_mode (Some true) None)))
  ∨ (∃ w3 e, fallbackCopy fuel skill agentDir w2 = (w3, Throw e)
             ∧ installSkillForAgent fuel skill agentType options w
               = (w3, Ok (failed agentDir symlink_mode (message e)))).
Proof.
  intros Hfuel Hmode Hbase canonicalDir agentDir Hc Ha H1 H2.
  rewrite (installSkillForAgent_stages _ _ _ _ agentBase) by done.
  fold canonicalDir agentDir.
  unfold try_catch. rewrite bind_run, H1. unfold agentStage.
  rewrite bind_run, H2. cbn [negb]. rewrite bind_run.
  assert (partial (λ _, True) (fallbackCopy fuel skill agentDir)) as Hp.
  { unfold fallbackCopy. apply partial_seq.
    { apply partial_try_catch; [apply partial_rm | intros ?; by apply partial_ret]. }
    intros _. apply partial_seq; [apply partial_mkdir|]. intros _.
    by apply copyDirectory_returns. }
  specialize (Hp w2).
  destruct (fallbackCopy fuel skill agentDir w2) as [w3 [[]|e|]];
    [left | right | done]; eauto.
Qed.

End Stages.

Section CanonicalFirst.
Context `{Host}.


End CanonicalFirst.

(** [/work/.agents/skills/foo] and [/work/.claude/skills/foo]. *)
Definition fooCanonicalDir : jsstring :=
  join [@canonicalBaseOf asciiHost symlinkOptions;
        @skillNameOf asciiHost fooSkill].
Definition fooAgentDir : jsstring :=
  join [js "/work/.claude/skills"; @skillNameOf asciiHost fooSkill].

(** The link is refused, the copy is made, and the result still says
    [symlink]: the failed link is told by [symlinkFailed] alone. *)
Lemma fallback_keeps_symlink_mode :
  let afterCanonical :=
    (@canonicalStage asciiHost 97 fooSkill fooCanonicalDir
       workTreeWithoutLinks).1 in
  run (@createSymlink asciiHost fooCanonicalDir fooAgentDir) afterCanonical
  = Ok false
  ∧ run (@installSkillForAgent asciiHost 97 fooSkill claude_code symlinkOptions)
      workTreeWithoutLinks
    = Ok (InstallResult.mk true (js "/work/.claude/skills/foo")
            (Some (js "/work/.agents/skills/foo"))
            symlink_mode (Some true) None).
Proof. split; vm_compute; reflexivity. Qed.

Lemma installSkillForAgent_symlink_fallback_witness :
  (∃ w3, @fallbackCopy asciiHost 97 fooSkill fooAgentDir
           (@createSymlink asciiHost fooCanonicalDir fooAgentDir
              (@canonicalStage asciiHost 97 fooSkill fooCanonicalDir
                 workTreeWithoutLinks).1).1
         = (w3, Ok tt)
         ∧ @installSkillForAgent asciiHost 97 fooSkill claude_code
             symlinkOptions workTreeWithoutLinks
           = (w3, Ok (InstallResult.mk true fooAgentDir (Some fooCanonicalDir)
                        symlink_mode (Some true) None)))
  ∨ (∃ w3 e, @fallbackCopy asciiHost 97 fooSkill fooAgentDir
               (@createSymlink asciiHost fooCanonicalDir fooAgentDir
                  (@canonicalStage asciiHost 97 fooSkill fooCanonicalDir
                     workTreeWithoutLinks).1).1
             = (w3, Throw e)
             ∧ @installSkillForAgent asciiHost 97 fooSkill claude_code
                 symlinkOptions workTreeWithoutLinks
               = (w3, Ok (failed fooAgentDir symlink_mode (message e)))).
Proof.
  apply (@installSkillForAgent_symlink_fallback asciiHost 97 fooSkill
           claude_code symlinkOptions (js "/work/.claude/skills")
           workTreeWithoutLinks
           (@canonicalStage asciiHost 97 fooSkill fooCanonicalDir
              workTreeWithoutLinks).1).
  - simpl. lia.
  - reflexivity.
  - reflexivity.
  - vm_compute. reflexivity.
  - vm_compute. reflexivity.
  - apply run_fst. vm_compute. reflexivity.
  - apply run_fst. vm_compute. reflexivity.
Defined.



(** ** The same stages for a remote skill *)

Section RemoteStages.
Context `{Host}.

Definition remoteSkillNameOf (skill : RemoteSkill.t) : jsstring :=
  sanitizeName (RemoteSkill.installName skill).

(** The canonical directory is made and the descriptor written. *)
Definition remoteCanonicalStage (skill : RemoteSkill.t)
    (canonicalDir : jsstring) : M unit :=
  ensureDirectory canonicalDir ;;
  writeFile (join [canonicalDir; js "SKILL.md"]) (RemoteSkill.content skill).

(** The statements under [if (!symlinkCreated)], before the [return]. *)
Definition remoteFallbackCopy (skill : RemoteSkill.t) (agentDir : jsstring)
  : M unit :=
  try_catch (rm agentDir true true) (λ _, ret tt) ;;
  mkdir agentDir ;;
  writeFile (join [agentDir; js "SKILL.md"]) (RemoteSkill.content skill).

Definition remoteAgentStage (skill : RemoteSkill.t)
    (canonicalDir agentDir : jsstring) : M InstallResult.t :=
  symlinkCreated <- createSymlink canonicalDir agentDir ;;
  if negb symlinkCreated then
    remoteFallbackCopy skill agentDir ;;
    ret (InstallResult.mk true agentDir (Some canonicalDir)
           symlink_mode (Some true) None)
  else
    ret (InstallResult.mk true agentDir (Some canonicalDir)
           symlink_mode None None).

Lemma installRemoteSkillForAgent_stages skill agentType options agentBase w :
  default symlink_mode (Options.mode options) = symlink_mode →
  agentBaseOf agentType options = Some agentBase →
  let canonicalDir := join [canonicalBaseOf options; remoteSkillNameOf skill] in
  let agentDir := join [agentBase; remoteSkillNameOf skill] in
  isPathSafe (canonicalBaseOf options) canonicalDir = true →
  isPathSafe agentBase agentDir = true →
  installRemoteSkillForAgent skill agentType options w
  = try_catch
      (remoteCanonicalStage skill canonicalDir ;;
       remoteAgentStage skill canonicalDir agentDir)
      (reportFailure agentDir symlink_mode) w.
Proof.
  intros Hmode Hbase canonicalDir agentDir Hc Ha.
  unfold installRemoteSkillForAgent. unfold agentBaseOf in Hbase.
  rewrite Hbase, joinArgs_defined, Hmode.
  fold (remoteSkillNameOf skill). fold (canonicalBaseOf options).
  fold canonicalDir. rewrite bind_run. cbn [ret]. fold agentDir.
  change (default [] (Some agentBase)) with agentBase.
  rewrite Hc, Ha. cbn [negb].
  unfold remoteCanonicalStage, remoteAgentStage, remoteFallbackCopy,
    reportFailure, try_catch, bind.
  destruct (ensureDirectory canonicalDir w) as [w1 [[]|e|]]; [|done|done].
  destruct (writeFile _ _ w1) as [w2 [[]|e|]]; [|done|done].
  destruct (createSymlink canonicalDir agentDir w2) as [w3 [[]|e|]];
    cbn [negb]; [done| |done|done].
  destruct (rm agentDir true true w3) as [w4 [[]|e|]];
    unfold ret; try reflexivity;
    (destruct (mkdir agentDir w4) as [w5 [[]|e'|]]; try reflexivity);
    destruct (writeFile _ _ w5) as [w6 [[]|e''|]]; reflexivity.
Qed.

(** X3: a remote skill installed in symlink mode: when the link cannot
    be made, the descriptor is written to the directory of the agent, and
    the result says [symlink] with [symlinkFailed = true], or reports
    the failure of that write. *)
Theorem installRemoteSkillForAgent_symlink_fallback
    skill agentType options agentBase w w1 w2 :
  default symlink_mode (Options.mode options) = symlink_mode →
  agentBaseOf agentType options = Some agentBase →
  let canonicalDir := join [canonicalBaseOf options; remoteSkillNameOf skill] in
  let agentDir := join [agentBase; remoteSkillNameOf skill] in
  isPathSafe (canonicalBaseOf options) canonicalDir = true →
  isPathSafe agentBase agentDir = true →
  remoteCanonicalStage skill canonicalDir w = (w1, Ok tt) →
  createSymlink canonicalDir agentDir w1 = (w2, Ok false) →
  (∃ w3, remoteFallbackCopy skill agentDir w2 = (w3, Ok tt)
         ∧ installRemoteSkillForAgent skill agentType options w
           = (w3, Ok (InstallResult.mk true agentDir (Some canonicalDir)
                        symlink_mode (Some true) None)))
  ∨ (∃ w3 e, remoteFallbackCopy skill agentDir w2 = (w3, Throw e)
             ∧ installRemoteSkillForAgent skill agentType options w
               = (w3, Ok (failed agentDir symlink_mode (message e)))).
Proof.
  intros Hmode Hbase canonicalDir agentDir Hc Ha H1 H2.
  rewrite (installRemoteSkillForAgent_stages _ _ _ agentBase) by done.
  fold canonicalDir agentDir.
  unfold try_catch. rewrite bind_run, H1. unfold remoteAgentStage.
  rewrite bind_run, H2. cbn [negb]. rewrite bind_run.
  assert (partial (λ _, True) (remoteFallbackCopy skill agentDir)) as Hp.
  { unfold remoteFallbackCopy. apply partial_seq.
    { apply partial_try_catch; [apply partial_rm | intros ?; by apply partial_ret]. }
    intros _. apply partial_seq; [apply partial_mkdir|]. intros _.
    apply partial_writeFile. }
  specialize (Hp w2).
  destruct (remoteFallbackCopy skill agentDir w2) as [w3 [[]|e|]];
    [left | right | done]; eauto.
Qed.

(** X4: a remote skill installed in symlink mode: the canonical
    directory is made, and the descriptor written there, before
    anything is done for the agent. *)
Theorem installRemoteSkillForAgent_canonical_first
    skill agentType options agentBase w :
  default symlink_mode (Options.mode options) = symlink_mode →
  agentBaseOf agentType options = Some agentBase →
  let canonicalDir := join [canonicalBaseOf options; remoteSkillNameOf skill] in
  let agentDir := join [agentBase; remoteSkillNameOf skill] in
  isPathSafe (canonicalBaseOf options) canonicalDir = true →
  isPathSafe agentBase agentDir = true →
  match remoteCanonicalStage skill canonicalDir w with
  | (w1, Ok _) =>
      nodeAt (files w1) (key canonicalDir) = Some Dir
      ∧ installRemoteSkillForAgent skill agentType options w
        = try_catch (remoteAgentStage skill canonicalDir agentDir)
            (reportFailure agentDir symlink_mode) w1
  | (w1, Throw e) =>
      installRemoteSkillForAgent skill agentType options w
      = (w1, Ok (failed agentDir symlink_mode (message e)))
  | (w1, Diverge) =>
      installRemoteSkillForAgent skill agentType options w = (w1, Diverge)
  end.
Proof.
  intros Hmode Hbase canonicalDir agentDir Hc Ha.
  rewrite (installRemoteSkillForAgent_stages _ _ _ agentBase) by done.
  fold canonicalDir agentDir.
  assert (∀ m h, @try_catch InstallResult.t m h w
                 = match m w with
                   | (w1, Throw e) => h e w1
                   | r => r
                   end) as Htry.
  { intros m h. unfold try_catch. by destruct (m w) as [w1 [r|e|]]. }
  rewrite Htry, bind_run.
  destruct (remoteCanonicalStage skill canonicalDir w) as [w1 r] eqn:E.
  destruct r as [[]|e|]; [|reflexivity|reflexivity].
  split; [|reflexivity].
  unfold remoteCanonicalStage in E. apply bind_Ok in E as (w0 & [] & He & Hwr).
  apply ensureDirectory_dir in He.
  destruct (key canonicalDir) as [|x k] eqn:Ek; [done|]. simpl in *.
  cut (keepsDirs (files w0) (files w1)); [intros Hk; by apply Hk|].
  unfold writeFile in Hwr. apply bind_Ok in Hwr as (w2 & [] & Hf & Hwr).
  apply fault_run in Hf as (<- & _ & _).
  destruct (tooLong _); [done|].
  apply update_run in Hwr as [Hwr _]. by eapply writeThrough_keepsDirs.
Qed.

End RemoteStages.

(** The skill [foo] as a remote provider hands it over. *)
Definition fooRemote : RemoteSkill.t :=
  RemoteSkill.mk (js "Foo") (js "a skill") (js "foo|a skill") (js "foo")
    (js "https://example.test/foo") (js "example") (js "example/foo").

(** The sixth call of an install of [fooRemote] is [symlink]. *)
Lemma installRemoteSkillForAgent_symlink_fallback_witness :
  (∃ w3, @remoteFallbackCopy asciiHost fooRemote fooAgentDir
           (@createSymlink asciiHost fooCanonicalDir fooAgentDir
              (@remoteCanonicalStage asciiHost fooRemote fooCanonicalDir
                 (refusing 5 workTree)).1).1
         = (w3, Ok tt)
         ∧ @installRemoteSkillForAgent asciiHost fooRemote claude_code
             symlinkOptions (refusing 5 workTree)
           = (w3, Ok (InstallResult.mk true fooAgentDir (Some fooCanonicalDir)
                        symlink_mode (Some true) None)))
  ∨ (∃ w3 e, @remoteFallbackCopy asciiHost fooRemote fooAgentDir
               (@createSymlink asciiHost fooCanonicalDir fooAgentDir
                  (@remoteCanonicalStage asciiHost fooRemote fooCanonicalDir
                     (refusing 5 workTree)).1).1
             = (w3, Throw e)
             ∧ @installRemoteSkillForAgent asciiHost fooRemote claude_code
                 symlinkOptions (refusing 5 workTree)
               = (w3, Ok (failed fooAgentDir symlink_mode (message e)))).
Proof.
  apply (@installRemoteSkillForAgent_symlink_fallback asciiHost fooRemote
           claude_code symlinkOptions (js "/work/.claude/skills")
           (refusing 5 workTree)
           (@remoteCanonicalStage asciiHost fooRemote fooCanonicalDir
              (refusing 5 workTree)).1).
  - reflexivity.
  - reflexivity.
  - vm_compute. reflexivity.
  - vm_compute. reflexivity.
  - apply run_fst. vm_compute. reflexivity.
  - apply run_fst. vm_compute. reflexivity.
Defined.

Lemma installRemoteSkillForAgent_canonical_first_witness :
  match @remoteCanonicalStage asciiHost fooRemote fooCanonicalDir workTree with
  | (w1, Ok _) =>
      nodeAt (files w1) (@key asciiHost fooCanonicalDir) = Some Dir
      ∧ @installRemoteSkillForAgent asciiHost fooRemote claude_code
          symlinkOptions workTree
        = try_catch
            (@remoteAgentStage asciiHost fooRemote fooCanonicalDir fooAgentDir)
            (reportFailure fooAgentDir symlink_mode) w1
  | (w1, Throw e) =>
      @installRemoteSkillForAgent asciiHost fooRemote claude_code
        symlinkOptions workTree
      = (w1, Ok (failed fooAgentDir symlink_mode (message e)))
  | (w1, Diverge) =>
      @installRemoteSkillForAgent asciiHost fooRemote claude_code
        symlinkOptions workTree = (w1, Diverge)
  end.
Proof.
  apply (@installRemoteSkillForAgent_canonical_first asciiHost fooRemote
           claude_code symlinkOptions (js "/work/.claude/skills") workTree);
    vm_compute; reflexivity.
Defined.

(** ** Writing the files of a well-known skill *)

Section FileMap.
Context `{Host}.












End FileMap.

(** A file map with an entry that leaves the target directory. *)
Definition fooFiles : WellKnownSkill.t :=
  WellKnownSkill.mk (js "foo")
    [(js "SKILL.md", js "foo|a skill"); (js "../evil.md", js "evil");
     (js "docs/guide.md", js "guide")].

Example writeSkillFiles_fooFiles :
  let w' := (@writeSkillFiles asciiHost fooFiles (js "/work/foo") workTree).1 in
  run (@writeSkillFiles asciiHost fooFiles (js "/work/foo")) workTree = Ok tt
  ∧ journal w'
    = [OpMkdir (js "/work/foo");
       OpWriteFile (js "/work/foo/SKILL.md") (js "foo|a skill");
       OpMkdir (js "/work/foo/docs");
       OpWriteFile (js "/work/foo/docs/guide.md") (js "guide")]
  ∧ files w' !! @key asciiHost (js "/work/evil.md") = None.
Proof. repeat split; vm_compute; reflexivity. Qed.

(** ** What a copy leaves at its destination *)

Section Mirror.
Context `{Host}.

Opaque MAXSYMLINKS.

(** Nothing is stored at [D] or below it. *)
Definition emptyAt (m : gmap (list jsstring) node) (D : list jsstring)
  : Prop :=
  ∀ k, D `prefix_of` k → m !! k = None.

(** The directory [D] of [m'] holds a copy of the directory [P] of
    [m0], down to [depth] levels.  With [filtered], the entries that
    [isExcluded] names are left out and the others are copied in the
    same way; a link is replaced by what it leads to in [m0], a
    directory behind a link being copied whole. *)
Fixpoint Copied (depth : nat) (filtered : bool)
    (m0 m' : gmap (list jsstring) node) (P D : list jsstring) : Prop :=
  match depth with
  | O => True
  | S depth' =>
      nodeAt m' D = Some Dir
      ∧ ∀ x n, m0 !! (P ++ [x]) = Some n → validName x = true →
          if filtered && isExcluded x (isDirectory (statsOf n))
          then emptyAt m' (D ++ [x])
          else if filtered && isDirectory (statsOf n)
          then Copied depth' true m0 m' (P ++ [x]) (D ++ [x])
          else match follow MAXSYMLINKS m0 (render (P ++ [x])) with
               | inr (_, File c) => m' !! (D ++ [x]) = Some (File c)
               | inr (q, Dir) => Copied depth' false m0 m' (key q) (D ++ [x])
               | _ => True
               end
  end.

(** *** Prefixes *)

Lemma prefix_snoc_same (D : list jsstring) x y k :
  (D ++ [x]) `prefix_of` k → (D ++ [y]) `prefix_of` k → x = y.
Proof.
  intros [r1 ->] [r2 E]. rewrite <- !app_assoc in E.
  apply app_inv_head in E. by injection E.
Qed.

Lemma prefix_snoc_proper (D : list jsstring) x k :
  k `prefix_of` D ++ [x] → ¬ (D ++ [x]) `prefix_of` k → k `prefix_of` D.
Proof.
  intros [r E] Hn. destruct r as [|z r _] using rev_ind.
  - rewrite app_nil_r in E. subst k. by destruct Hn.
  - rewrite app_assoc in E. apply app_inj_tail in E as [-> _]. by exists r.
Qed.

Lemma prefix_snoc_above (D : list jsstring) y k :
  (D ++ [y]) `prefix_of` k → ¬ k `prefix_of` D.
Proof.
  intros [r1 ->] [r2 E]. apply (f_equal length) in E.
  rewrite !length_app in E. simpl in E. lia.
Qed.

Lemma emptyAt_noLinks m D : emptyAt m D → noLinks D m.
Proof. intros He k t Hk. by rewrite He. Qed.

Lemma emptyAt_snoc m D x : emptyAt m D → emptyAt m (D ++ [x]).
Proof.
  intros He k [r ->]. apply He. exists ([x] ++ r). by rewrite app_assoc.
Qed.

(** *** Following links in a larger tree *)

Lemma nodeAt_extends m0 m k n :
  m0 ⊆ m → nodeAt m0 k = Some n → nodeAt m k = Some n.
Proof.
  intros Hsub. destruct k; [done|]. simpl. intros E.
  by eapply lookup_weaken.
Qed.

Lemma follow_extends b m0 m p r :
  m0 ⊆ m → follow b m0 p = inr r → follow b m p = inr r.
Proof.
  intros Hsub. revert p; induction b as [|b IH]; intros p; simpl; [done|].
  destruct (nodeAt m0 (key p)) as [n|] eqn:E; [|done].
  rewrite (nodeAt_extends _ _ _ _ Hsub E). destruct n; auto.
Qed.

Lemma follow_key b m p p' : key p = key p' → follow b m p = follow b m p'.
Proof. destruct b; simpl; [done|]. by intros ->. Qed.

Lemma follow_inr b m p q n :
  follow b m p = inr (q, n) →
  ∃ p', q = render (key p') ∧ nodeAt m (key p') = Some n
        ∧ ∀ t, n ≠ Symlink t.
Proof.
  revert p; induction b as [|b IH]; intros p; simpl; [done|].
  destruct (nodeAt m (key p)) as [[c| |t]|] eqn:E; [| |apply IH|done];
    intros [= <- <-]; by exists p.
Qed.

Lemma follow_here m p n :
  nodeAt m (key p) = Some n → (∀ t, n ≠ Symlink t) →
  follow MAXSYMLINKS m p = inr (render (key p), n).
Proof.
  destruct MAXSYMLINKS_pos as [b ->]. simpl. intros -> Hn.
  destruct n as [c| |t]; [done | done | by destruct (Hn t)].
Qed.

Lemma follow_absent m p :
  nodeAt m (key p) = None →
  ∃ e, follow MAXSYMLINKS m p = inl e ∧ isENOENT e = true.
Proof.
  destruct MAXSYMLINKS_pos as [b ->]. simpl. intros ->. by eexists.
Qed.

(** *** Locality *)

Lemma Copied_local depth filtered m0 m1 m2 P D :
  (∀ k, D `prefix_of` k → m2 !! k = m1 !! k) →
  Copied depth filtered m0 m1 P D → Copied depth filtered m0 m2 P D.
Proof.
  revert filtered P D; induction depth as [|depth IH]; intros f P D Hsame;
    [done|].
  simpl. intros [Hd Hall]. split.
  - destruct D; [done|]. simpl in *. by rewrite Hsame.
  - intros x n Hx Hv. specialize (Hall x n Hx Hv).
    assert (∀ k, (D ++ [x]) `prefix_of` k → m2 !! k = m1 !! k) as Hsame'.
    { intros k [r ->]. apply Hsame. exists ([x] ++ r). by rewrite app_assoc. }
    destruct (f && isExcluded x _).
    { intros k Hk. rewrite Hsame' by done. by apply Hall. }
    destruct (f && isDirectory _); [by eapply IH|].
    destruct (follow MAXSYMLINKS m0 _) as [e|[q [c| |t]]]; [done| | |done].
    + by rewrite Hsame'.
    + by eapply IH.
Qed.

(** *** A loop whose iterations work in separate directories *)

(** Changes outside the directories [D/x] for [x] in [names] are
    creations of missing ancestors. *)
Definition apart (D : list jsstring) (names : list jsstring)
    (m m' : gmap (list jsstring) node) : Prop :=
  ∀ k, (∀ x, x ∈ names → ¬ (D ++ [x]) `prefix_of` k) →
    m' !! k = m !! k
    ∨ (m !! k = None ∧ m' !! k = Some Dir ∧ k `prefix_of` D).

Lemma within_apart D x m m' :
  emptyAt m (D ++ [x]) → within (D ++ [x]) m m' → apart D [x] m m'.
Proof.
  intros He [_ Hw] k Hk.
  destruct (Hw (emptyAt_noLinks _ _ He)) as [_ Hf].
  assert (¬ (D ++ [x]) `prefix_of` k) as Hk'.
  { apply Hk, elem_of_cons. by left. }
  destruct (Hf k Hk') as [E|(E1 & E2 & Hp)]; [by left|].
  right. repeat split; try done. by eapply prefix_snoc_proper.
Qed.

Lemma apart_subseteq D names m0 m m' :
  apart D names m m' → m0 ⊆ m →
  (∀ x, x ∈ names → emptyAt m (D ++ [x])) → m0 ⊆ m'.
Proof.
  intros Ha Hsub He. apply map_subseteq_spec. intros k n Hk.
  pose proof (lookup_weaken _ _ _ _ Hk Hsub) as Hm.
  destruct (Ha k) as [E|(E1 & _)]; [|congruence|congruence].
  intros x Hx Hp. by rewrite (He x Hx k Hp) in Hm.
Qed.

Lemma apart_emptyAt D names m m' y :
  apart D names m m' → y ∉ names →
  emptyAt m (D ++ [y]) → emptyAt m' (D ++ [y]).
Proof.
  intros Ha Hy He k Hk.
  destruct (Ha k) as [E|(_ & _ & Hp)].
  - intros x Hx Hp. apply Hy.
    by rewrite <- (prefix_snoc_same D x y k Hp Hk).
  - rewrite E. by apply He.
  - by destruct (prefix_snoc_above D y k Hk).
Qed.

Lemma apart_trans D x names m1 m2 m3 :
  apart D [x] m1 m2 → apart D names m2 m3 → apart D (x :: names) m1 m3.
Proof.
  intros H12 H23 k Hk.
  destruct (H12 k) as [E1|(E1 & E1' & Hp1)];
    [intros y ->%list_elem_of_singleton; apply Hk; by left| |];
    (destruct (H23 k) as [E2|(E2 & E2' & Hp2)];
     [intros y Hy; apply Hk; by right| |]).
  - left. congruence.
  - right. repeat split; try done; congruence.
  - right. repeat split; try done; congruence.
  - congruence.
Qed.

Lemma forEach_apart {A} (nm : A → jsstring) (body : A → M unit)
    (Q : A → gmap (list jsstring) node → Prop) D m0 (es : list A) :
  NoDup (nm <$> es) →
  (∀ e, e ∈ es → stable (onFiles (within (D ++ [nm e]))) (body e)) →
  (∀ e w w', e ∈ es → body e w = (w', Ok tt) → m0 ⊆ files w →
     emptyAt (files w) (D ++ [nm e]) → Q e (files w')) →
  (∀ e m1 m2, (∀ k, (D ++ [nm e]) `prefix_of` k → m2 !! k = m1 !! k) →
     Q e m1 → Q e m2) →
  ∀ w w', forEach es body w = (w', Ok tt) → m0 ⊆ files w →
    (∀ e, e ∈ es → emptyAt (files w) (D ++ [nm e])) →
    m0 ⊆ files w' ∧ keepsDirs (files w) (files w')
    ∧ apart D (nm <$> es) (files w) (files w')
    ∧ ∀ e, e ∈ es → Q e (files w').
Proof.
  intros Hnd Hframe Hpost Hlocal.
  induction es as [|e es IH]; intros w w'; simpl.
  - intros [= <-] Hsub _. split; [done|]. split; [done|].
    split; [by left|]. by intros e ?%elem_of_nil.
  - intros (w1 & [] & He & Hrest)%bind_Ok Hsub Hempty.
    apply NoDup_cons in Hnd as [Hne Hnd].
    assert (emptyAt (files w) (D ++ [nm e])) as Hempty_e
      by (apply Hempty; by left).
    pose proof (Hframe e ltac:(by left) w) as Hw.
    unfold onFiles in Hw. rewrite He in Hw. simpl in Hw.
    pose proof (within_apart _ _ _ _ Hempty_e Hw) as Ha1.
    assert (m0 ⊆ files w1) as Hsub1.
    { eapply apart_subseteq; [exact Ha1 | done |].
      by intros x ->%list_elem_of_singleton. }
    assert (∀ e', e' ∈ es → emptyAt (files w1) (D ++ [nm e'])) as Hempty1.
    { intros e' He'. eapply apart_emptyAt; [exact Ha1 | |].
      - intros Hx%list_elem_of_singleton. apply Hne. rewrite <- Hx.
        apply list_elem_of_fmap. by exists e'.
      - apply Hempty. by right. }
    destruct (IH Hnd) with (w := w1) (w' := w')
      as (Hsub' & Hk' & Ha' & HQ'); try done.
    { intros e' He'. apply Hframe. by right. }
    { intros e' u u' He'. apply Hpost. by right. }
    split; [done|]. split; [destruct Hw as [Hk1 _]; by etrans|].
    split; [by eapply apart_trans|].
    intros e' [->|He']%elem_of_cons; [|by apply HQ'].
    eapply Hlocal; [|eapply Hpost; [by left | exact He | done | done]].
    intros k Hk. destruct (Ha' k) as [E|(_ & _ & Hp)]; [|done|].
    + intros x (e'' & -> & He'')%list_elem_of_fmap Hp. apply Hne.
      apply list_elem_of_fmap. exists e''. split; [|done].
      by eapply prefix_snoc_same.
    + by destruct (prefix_snoc_above D (nm e) k Hk).
Qed.

(** *** [cp] *)

(** What [cp] leaves at [D] for the source path [src]. *)
Definition copiedNode (depth : nat) (m0 m' : gmap (list jsstring) node)
    (src : jsstring) (D : list jsstring) : Prop :=
  match follow MAXSYMLINKS m0 src with
  | inr (_, File c) => m' !! D = Some (File c)
  | inr (q, Dir) => Copied depth false m0 m' (key q) D
  | _ => True
  end.

Lemma copiedNode_local depth m0 m1 m2 src D :
  (∀ k, D `prefix_of` k → m2 !! k = m1 !! k) →
  copiedNode depth m0 m1 src D → copiedNode depth m0 m2 src D.
Proof.
  intros Hsame. unfold copiedNode.
  destruct (follow MAXSYMLINKS m0 src) as [e|[q [c| |t]]]; [done| | |done].
  - by rewrite Hsame.
  - by apply Copied_local.
Qed.

Lemma liftE_Ok {A} (r : Error + A) w w' a :
  liftE r w = (w', Ok a) → r = inr a ∧ w' = w.
Proof. destruct r as [e|a']; [done|]. by intros [= <- <-]. Qed.

Lemma key_snoc_render k x :
  Forall goodSeg k → validName x = true → key (render (k ++ [x])) = k ++ [x].
Proof.
  intros Hk Hx. apply key_render, Forall_app. split; [done|].
  constructor; [|done]. by apply validName_goodSeg.
Qed.

Lemma cpNode_spec fuel depth src dest w w' m0 :
  cpNode fuel src dest w = (w', Ok tt) →
  m0 ⊆ files w → emptyAt (files w) (key dest) → key dest ≠ [] →
  copiedNode depth m0 (files w') src (key dest).
Proof.
  revert depth src dest w w'.
  induction fuel as [|fuel IH]; intros depth src dest w w'; [done|].
  intros Hrun Hsub Hempty Hne.
  change (cpNode (S fuel) src dest) with
    (fault ;;
     m <- get files ;;
     s <- liftE (follow MAXSYMLINKS m src) ;;
     d <- (match follow MAXSYMLINKS m dest with
           | inr d => ret (Some d)
           | inl e => if isENOENT e then ret None else throw e
           end) ;;
     if tooLong dest
     then throw (err ENAMETOOLONG "ENAMETOOLONG: name too long, cp")
     else
     match s.2, d with
     | _, Some (dpath, _) =>
         if streq s.1 dpath
         then throw (err ERR_FS_CP_EINVAL "src and dest cannot be the same")
         else ret tt
     | _, None => ret tt
     end ;;
     match s.2, d with
     | Dir, Some (_, Dir) | Dir, None =>
         if bool_decide (key src `prefix_of` key dest)
         then throw (err ERR_FS_CP_EINVAL
                       "cannot copy a directory to a subdirectory of self")
         else
           (match d with
            | None => update (mkdirOne dest) (OpMkdir dest)
            | Some _ => ret tt
            end) ;;
           forEach (children m (key s.1))
             (λ e, cpNode fuel (join [s.1; e.1]) (join [dest; e.1]))
     | Dir, Some _ =>
         throw (err ERR_FS_CP_DIR_TO_NON_DIR
                  "cannot overwrite non-directory with directory")
     | File _, Some (_, Dir) =>
         throw (err ERR_FS_CP_NON_DIR_TO_DIR
                  "cannot overwrite directory with non-directory")
     | File c, Some _ =>
         update (λ m, match unlinked dest m with
                      | inl e => inl e
                      | inr m' => writeThrough dest c m'
                      end)
           (OpCopyFile src dest)
     | File c, None => update (writeThrough dest c) (OpCopyFile src dest)
     | Symlink _, _ => throw (err ELOOP "ELOOP: too many symbolic links")
     end) in Hrun.
  apply bind_Ok in Hrun as (w1 & [] & Hf & Hrun).
  apply fault_run in Hf as (Hf & _ & _).
  apply bind_Ok in Hrun as (w2 & m & Hg & Hrun).
  injection Hg as <- <-.
  apply bind_Ok in Hrun as (w3 & s & Hs & Hrun).
  apply liftE_Ok in Hs as [Hs ->].
  apply bind_Ok in Hrun as (w4 & d & Hd & Hrun).
  assert (nodeAt (files w1) (key dest) = None) as Hnone.
  { destruct (key dest) as [|x k] eqn:Ek; [done|]. simpl. rewrite Hf.
    by apply Hempty. }
  destruct (follow_absent _ _ Hnone) as (e & Hfd & He).
  rewrite Hfd, He in Hd. injection Hd as <- <-.
  destruct (tooLong dest); [done|].
  apply bind_Ok in Hrun as (w5 & [] & Hchk & Hrun).
  assert (w5 = w1) as -> by (by destruct s.2; injection Hchk).
  clear Hchk. unfold copiedNode.
  destruct (follow MAXSYMLINKS m0 src) as [e0|[q n]] eqn:E0; [done|].
  rewrite <- Hf in Hsub.
  rewrite (follow_extends _ _ _ _ _ Hsub E0) in Hs. injection Hs as <-.
  simpl in Hrun. destruct n as [c| |t]; [| |done].
  - apply update_run in Hrun as [Hw _].
    apply writeThrough_nolink in Hw as (-> & _); [|by rewrite Hnone].
    by rewrite lookup_insert_eq.
  - case_bool_decide; [done|].
    apply bind_Ok in Hrun as (w6 & [] & Hmk & Hloop).
    apply update_run in Hmk as [Hmk _].
    apply mkdirOne_spec in Hmk as (Hm6 & _ & _).
    assert (files w1 !! key dest = None) as Hnone'.
    { rewrite Hf. by apply Hempty. }
    destruct depth as [|depth]; [done|].
    destruct (follow_inr _ _ _ _ _ E0) as (p' & -> & _ & _).
    rewrite key_render_key in *.
    destruct (forEach_apart fst
                (λ e, cpNode fuel (join [render (key p'); e.1])
                        (join [dest; e.1]))
                (λ e m', copiedNode depth m0 m'
                           (join [render (key p'); e.1]) (key dest ++ [e.1]))
                (key dest) m0 (children (files w1) (key p')))
      with (w := w6) (w' := w') as (_ & Hkeep & _ & HQ).
    + apply children_NoDup.
    + intros c Hc. eapply stable_weaken; [|apply below_cpNode].
      intros u u'. unfold onFiles.
      rewrite key_join by (by eapply children_valid). apply below_within.
    + intros c u u' Hc Hu Hsubu Hemptyu.
      rewrite <- (key_join dest c.1) by (by eapply children_valid).
      apply (IH depth _ _ u u'); [done | done | |].
      * by rewrite key_join by (by eapply children_valid).
      * rewrite key_join by (by eapply children_valid). by destruct (key dest).
    + intros c m1 m2. apply copiedNode_local.
    + done.
    + rewrite Hm6. etrans; [exact Hsub|]. by apply insert_subseteq.
    + intros c Hc k Hk. rewrite Hm6, lookup_insert_ne.
      * rewrite Hf. apply Hempty. destruct Hk as [r ->].
        exists ([c.1] ++ r). by rewrite app_assoc.
      * intros <-. by destruct (prefix_snoc_above (key dest) c.1 (key dest)).
    + split.
      * destruct (key dest) as [|x k] eqn:Ek; [done|]. simpl.
        apply Hkeep. by rewrite Hm6, lookup_insert_eq.
      * intros x n Hx Hv. cbn [andb].
        assert ((x, n) ∈ children (files w1) (key p')) as Hin.
        { apply children_spec. split; [|done]. by eapply lookup_weaken. }
        specialize (HQ _ Hin). unfold copiedNode in HQ. simpl in HQ.
        rewrite (follow_key _ _ _ (render (key p' ++ [x]))) in HQ; [done|].
        rewrite key_join, key_render_key by (by apply validName_goodSeg).
        symmetry. apply key_snoc_render; [apply key_good | done].
Qed.

(** *** [copyDirectory] *)

Lemma readdir_Ok p w w' entries :
  readdir p w = (w', Ok entries) →
  files w' = files w
  ∧ ∃ q, follow MAXSYMLINKS (files w) p = inr (q, Dir)
         ∧ entries = map (λ e, mkDirent e.1 (statsOf e.2))
                       (children (files w) (key q)).
Proof.
  unfold readdir. intros (w1 & [] & Hf & Hrun)%bind_Ok.
  apply fault_run in Hf as (Hf & _ & _).
  apply bind_Ok in Hrun as (w2 & m & Hg & Hrun). injection Hg as <- <-.
  apply bind_Ok in Hrun as (w3 & [q n] & Hs & Hrun).
  apply liftE_Ok in Hs as [Hs ->]. simpl in Hrun.
  destruct n as [c| |t]; [done| |done]. injection Hrun as <- <-.
  rewrite <- Hf. split; [done|]. by exists q.
Qed.

Lemma NoDup_fmap_filter {A B} (f : A → B) (P : A → Prop)
    `{!∀ x, Decision (P x)} (l : list A) :
  NoDup (f <$> l) → NoDup (f <$> filter P l).
Proof.
  induction l as [|x l IH]; [done|]. rewrite fmap_cons, NoDup_cons.
  intros [Hx Hl]. rewrite filter_cons. destruct (decide (P x)); [|auto].
  rewrite fmap_cons. apply NoDup_cons. split; [|auto].
  intros (y & E & Hy)%list_elem_of_fmap. apply Hx.
  apply list_elem_of_fmap. exists y. split; [done|].
  by apply list_elem_of_filter in Hy as [_ ?].
Qed.

Lemma NoDup_fmap_same {A B} (f : A → B) (l : list A) x y :
  NoDup (f <$> l) → x ∈ l → y ∈ l → f x = f y → x = y.
Proof.
  induction l as [|z l IH]; [by intros _ ?%elem_of_nil|].
  rewrite fmap_cons, NoDup_cons. intros [Hz Hl].
  intros [->|Hx]%elem_of_cons [->|Hy]%elem_of_cons E; [done| | |by apply IH].
  - destruct Hz. rewrite E. apply list_elem_of_fmap. by exists y.
  - destruct Hz. rewrite <- E. apply list_elem_of_fmap. by exists x.
Qed.

Lemma mkdir_Ok_tree p w w' :
  mkdir p w = (w', Ok tt) → emptyAt (files w) (key p) →
  nodeAt (files w') (key p) = Some Dir
  ∧ (∀ m0, m0 ⊆ files w → m0 ⊆ files w')
  ∧ ∀ x, emptyAt (files w') (key p ++ [x]).
Proof.
  intros (_ & _ & Hm)%mkdir_run Hempty.
  pose proof (mkdirFrom_frame _ _ _ _ Hm) as Hframe.
  split; [|split].
  - destruct (key p) as [|x k] eqn:Ek; [done|]. simpl.
    rewrite <- (app_nil_l (x :: k)).
    eapply mkdirFrom_dir; [exact Hm | done |]. simpl. intros t.
    by rewrite Hempty.
  - intros m0 Hsub. apply map_subseteq_spec. intros k n Hk.
    pose proof (lookup_weaken _ _ _ _ Hk Hsub) as Hw.
    destruct (Hframe k) as [E|(E & _)]; congruence.
  - intros x k Hk. destruct (Hframe k) as [E|(_ & _ & Hp & _)].
    + rewrite E. by eapply emptyAt_snoc.
    + simpl in Hp. by destruct (prefix_snoc_above (key p) x k).
Qed.

Lemma copyDirectory_spec fuel depth src dest w w' m0 :
  copyDirectory fuel src dest w = (w', Ok tt) →
  m0 ⊆ files w → emptyAt (files w) (key dest) →
  nodeAt m0 (key src) = Some Dir →
  Copied depth true m0 (files w') (key src) (key dest).
Proof.
  revert depth src dest w w'.
  induction fuel as [|fuel IH]; intros depth src dest w w'; [done|].
  intros Hrun Hsub Hempty Hsrc.
  destruct depth as [|depth]; [done|].
  change (copyDirectory (S fuel) src dest) with
    (mkdir dest ;;
     entries <- readdir src ;;
     forEach
       (filter (λ entry, isExcluded (name entry) (isDirectory (dtype entry))
                         = false) entries)
       (λ entry,
          let srcPath := join [src; name entry] in
          let destPath := join [dest; name entry] in
          if isDirectory (dtype entry)
          then copyDirectory fuel srcPath destPath
          else cp srcPath destPath)) in Hrun.
  apply bind_Ok in Hrun as (w1 & [] & Hmk & Hrun).
  apply mkdir_Ok_tree in Hmk as (Hdir & Hsub1 & Hempty1); [|done].
  specialize (Hsub1 _ Hsub).
  apply bind_Ok in Hrun as (w2 & entries & Hrd & Hloop).
  apply readdir_Ok in Hrd as (Hf2 & q & Hq & ->).
  rewrite (follow_here _ _ Dir) in Hq;
    [|by eapply nodeAt_extends|done].
  injection Hq as <-. rewrite key_render_key in Hloop.
  set (entries := map (λ e, mkDirent e.1 (statsOf e.2))
                    (children (files w1) (key src))) in *.
  assert (NoDup (name <$> entries)) as Hnd.
  { unfold entries. rewrite <- list_fmap_compose.
    apply (children_NoDup (files w1) (key src)). }
  assert (∀ e, e ∈ entries → goodSeg (name e)) as Hgood.
  { intros e (c & -> & Hc)%list_elem_of_fmap. by eapply children_valid. }
  set (kept := filter (λ entry, isExcluded (name entry)
                                  (isDirectory (dtype entry)) = false)
                 entries) in *.
  destruct (forEach_apart name
              (λ entry,
                 let srcPath := join [src; name entry] in
                 let destPath := join [dest; name entry] in
                 if isDirectory (dtype entry)
                 then copyDirectory fuel srcPath destPath
                 else cp srcPath destPath)
              (λ e m', ∀ n, m0 !! (key src ++ [name e]) = Some n →
                 statsOf n = dtype e →
                 if isDirectory (dtype e)
                 then Copied depth true m0 m' (key src ++ [name e])
                        (key dest ++ [name e])
                 else copiedNode depth m0 m' (join [src; name e])
                        (key dest ++ [name e]))
              (key dest) m0 kept)
    with (w := w2) (w' := w') as (_ & Hkeep & Hapart & HQ).
  - by apply NoDup_fmap_filter.
  - intros e [_ He]%list_elem_of_filter. cbv zeta.
    destruct (isDirectory (dtype e)).
    + eapply stable_weaken; [|apply within_copyDirectory].
      intros u u'. unfold onFiles. by rewrite key_join by auto.
    + eapply stable_weaken; [|apply below_cpNode].
      intros u u'. unfold onFiles. rewrite key_join by auto.
      apply below_within.
  - intros e u u' [_ He]%list_elem_of_filter Hu Hsubu Hemptyu n Hn Hst.
    cbv zeta in Hu. destruct (isDirectory (dtype e)) eqn:Hd.
    + rewrite <- !key_join by auto.
      apply (IH depth _ _ u u'); [done | done | |].
      * by rewrite key_join by auto.
      * rewrite key_join by auto.
        destruct n as [c| |t]; try (by rewrite <- Hst in Hd).
        by destruct (key src).
    + rewrite <- (key_join dest) by auto.
      apply (cpNode_spec (S PATH_MAX) depth _ _ u u'); [done | done | |].
      * by rewrite key_join by auto.
      * rewrite key_join by auto. by destruct (key dest).
  - intros e m1 m2 Hsame HQ1 n Hn Hst. specialize (HQ1 n Hn Hst).
    destruct (isDirectory (dtype e));
      [by eapply Copied_local | by eapply copiedNode_local].
  - done.
  - by rewrite Hf2.
  - intros e _. rewrite Hf2. apply Hempty1.
  - rewrite Hf2 in *. split.
    + destruct (key dest) as [|x k] eqn:Ek; [done|]. simpl in *.
      by apply Hkeep.
    + intros x n Hx Hv. cbn [andb].
      assert (mkDirent x (statsOf n) ∈ entries) as Hin.
      { apply list_elem_of_fmap. exists (x, n). split; [done|].
        apply children_spec. split; [|done]. by eapply lookup_weaken. }
      destruct (isExcluded x (isDirectory (statsOf n))) eqn:Hex.
      * eapply apart_emptyAt; [exact Hapart | | apply Hempty1].
        intros (e & Hname & [Hk He]%list_elem_of_filter)%list_elem_of_fmap.
        assert (e = mkDirent x (statsOf n)) as ->
          by (by eapply (NoDup_fmap_same name entries)).
        simpl in Hk. congruence.
      * assert (mkDirent x (statsOf n) ∈ kept) as Hkept
          by (by apply list_elem_of_filter).
        specialize (HQ _ Hkept n Hx eq_refl). simpl in HQ.
        destruct (isDirectory (statsOf n)); [done|].
        unfold copiedNode in HQ.
        rewrite (follow_key _ _ _ (render (key src ++ [x]))) in HQ; [done|].
        rewrite key_join by (by apply validName_goodSeg).
        symmetry. apply key_snoc_render; [apply key_good | done].
Qed.

End Mirror.

Section MirrorClaim.
Context `{Host}.


Lemma emptyAt_check m D :
  bool_decide (map_Forall (λ k _, ¬ D `prefix_of` k) m) = true → emptyAt m D.
Proof.
  intros Hm%bool_decide_eq_true k Hk.
  destruct (m !! k) as [n|] eqn:E; [|done]. by destruct (Hm k n E).
Qed.


End MirrorClaim.

Definition linkAt (p t : string) : list jsstring * node :=
  (@key asciiHost (lit p), Symlink (lit t)).

(** A checkout with noise, a subdirectory and two links. *)
Definition checkout : World :=
  tree [dirAt "/src"; dirAt "/src/foo";
        fileAt "/src/foo/SKILL.md" "foo|a skill";
        fileAt "/src/foo/README.md" "read me";
        fileAt "/src/foo/metadata.json" "{}";
        dirAt "/src/foo/_drafts"; fileAt "/src/foo/_drafts/x.md" "x";
        dirAt "/src/foo/.git"; fileAt "/src/foo/.git/HEAD" "ref";
        dirAt "/src/foo/docs"; fileAt "/src/foo/docs/guide.md" "guide";
        fileAt "/src/foo/docs/README.md" "nested";
        linkAt "/src/foo/alias.md" "SKILL.md";
        linkAt "/src/foo/shared" "/src/lib";
        dirAt "/src/lib"; fileAt "/src/lib/util.md" "util";
        dirAt "/work"].

Definition copied : World :=
  (@copyDirectory asciiHost 97 (js "/src/foo") (js "/work/out") checkout).1.

Definition at_ (w : World) (p : string) : option node :=
  files w !! @key asciiHost (lit p).

Example copyDirectory_checkout :
  run (@copyDirectory asciiHost 97 (js "/src/foo") (js "/work/out")) checkout
  = Ok tt
  ∧ at_ copied "/work/out/SKILL.md" = Some (File (js "foo|a skill"))
  ∧ at_ copied "/work/out/docs/guide.md" = Some (File (js "guide"))
  ∧ at_ copied "/work/out/alias.md" = Some (File (js "foo|a skill"))
  ∧ at_ copied "/work/out/shared" = Some Dir
  ∧ at_ copied "/work/out/shared/util.md" = Some (File (js "util"))
  ∧ at_ copied "/work/out/README.md" = None
  ∧ at_ copied "/work/out/metadata.json" = None
  ∧ at_ copied "/work/out/_drafts" = None
  ∧ at_ copied "/work/out/.git" = None
  ∧ at_ copied "/work/out/docs/README.md" = None.
Proof. repeat split; vm_compute; reflexivity. Qed.


(** ** What a copy leaves alone *)

Section Skipped.
Context `{Host}.

Opaque MAXSYMLINKS.

(** The tree at [K] and below it is the same in [m] and [m']. *)
Definition untouched (K : list jsstring) (m m' : gmap (list jsstring) node)
  : Prop :=
  ∀ k, K `prefix_of` k → m' !! k = m !! k.

(** No link at or below [D], and the directory [D/x] as it was. *)
Definition aside (D : list jsstring) (x : jsstring)
    (m m' : gmap (list jsstring) node) : Prop :=
  noLinks D m → noLinks D m' ∧ untouched (D ++ [x]) m m'.

Global Instance aside_preorder D x : PreOrder (aside D x).
Proof.
  split.
  - intros m Hn. by split.
  - intros m1 m2 m3 H12 H23 Hn. destruct (H12 Hn) as [Hn2 Hu12].
    destruct (H23 Hn2) as [Hn3 Hu23]. split; [done|].
    intros k Hk. by rewrite Hu23, Hu12.
Qed.








End Skipped.



(** ** Names under a directory *)

Section PathSegments.
Context `{Host}.

Lemma joinSlash_split s : joinSlash (split s) = s.
Proof.
  induction s as [|c s IH]; [done|]. simpl.
  pose proof (split_nonempty s) as Hne.
  destruct (c =? slash) eqn:Ec.
  - apply N.eqb_eq in Ec as ->.
    destruct (split s) as [|h t] eqn:Es; [done|].
    change (joinSlash ([] :: h :: t)) with (slash :: joinSlash (h :: t)).
    by rewrite IH.
  - destruct (split s) as [|h t] eqn:Es; [done|].
    destruct t; simpl in *; by rewrite <- IH.
Qed.

Lemma normSegs_plains a acc segs :
  Forall plain segs → normSegs a acc segs = reverse acc ++ segs.
Proof.
  revert acc; induction segs as [|x segs IH]; intros acc Hs.
  - simpl. by rewrite app_nil_r.
  - inversion Hs; subst. rewrite normSegs_plain, IH by done.
    by rewrite reverse_cons, <- app_assoc.
Qed.

Lemma normSegs_app_plains a acc l segs :
  Forall plain segs → normSegs a acc (l ++ segs) = normSegs a acc l ++ segs.
Proof.
  intros Hs. rewrite normSegs_app, normSegs_plains by done.
  by rewrite reverse_involutive.
Qed.

Lemma goodSegs_plain segs : Forall goodSeg segs → Forall plain segs.
Proof. intros Hs. eapply Forall_impl; [exact Hs|]. apply goodSeg_plain. Qed.

Lemma normalize_named n :
  n ≠ [] → isAbsolute n = false → last n ≠ Some slash →
  Forall plain (split n) → normalize n = n.
Proof.
  intros Hn Hh Hl Hp. unfold normalize. destruct n as [|c n']; [done|].
  rewrite Hh. simpl negb. cbv zeta. unfold normalizeString.
  rewrite normSegs_plains by done. simpl reverse. rewrite app_nil_l.
  rewrite joinSlash_split.
  destruct (last (c :: n')) as [c'|]; [|done].
  destruct (c' =? slash) eqn:Ec; [|done].
  apply N.eqb_eq in Ec. by subst.
Qed.

(** [join(dir, rel)] for a relative path [rel] of plain names: the
    names are appended to the segments of [dir]. *)
Lemma key_join_segs d segs :
  segs ≠ [] → Forall goodSeg segs →
  key (join [d; joinSlash segs]) = key d ++ segs.
Proof.
  intros Hne Hs. set (n := joinSlash segs).
  pose proof (goodSeg_noslash segs Hs) as Hns.
  pose proof (goodSegs_plain segs Hs) as Hp.
  assert (split n = segs) as Hsplit by by apply split_joinSlash.
  assert (n ≠ []) as Hn.
  { unfold n. destruct segs as [|x segs]; [done|].
    inversion Hs as [|? ? (Hx & _) _]; subst.
    destruct segs; simpl; [done|]. by destruct x. }
  assert (isAbsolute n = false) as Hh.
  { apply joinSlash_head; [done|].
    eapply Forall_impl; [exact Hs|]. by intros x (? & _ & _ & ?). }
  assert (last n ≠ Some slash) as Hl by by apply last_joinSlash_noslash.
  assert (∀ S : list jsstring, joinSlash (S ++ segs) ≠ []) as Hj.
  { intros S. destruct S as [|s S]; [exact Hn|].
    rewrite <- app_comm_cons.
    destruct (S ++ segs) as [|y r] eqn:E.
    - apply app_eq_nil in E as [_ ->]. done.
    - simpl. by destruct s. }
  clearbody n.
  destruct d as [|d0 d].
  - rewrite join_empty by done.
    rewrite normalize_named by (rewrite ?Hsplit; done).
    rewrite !key_rawSegs. unfold rawSegs.
    rewrite Hh. change (isAbsolute []) with false.
    rewrite Hsplit. change (split []) with [([] : jsstring)].
    by rewrite normSegs_app_plains, normSegs_snoc_empty.
  - rewrite join_two by done.
    set (a := isAbsolute (d0 :: d)).
    set (S := normSegs (negb a) [] (split (d0 :: d))).
    assert (Forall (λ x, slash ∉ x) S) as HS.
    { apply normSegs_noslash; [constructor | apply split_noslash]. }
    assert (normalizeString ((d0 :: d) ++ slash :: n) (negb a)
            = joinSlash (S ++ segs)) as Hnorm.
    { unfold normalizeString. rewrite split_app_slash, Hsplit.
      by rewrite normSegs_app_plains. }
    assert (normalize ((d0 :: d) ++ slash :: n)
            = if a then slash :: joinSlash (S ++ segs)
              else joinSlash (S ++ segs)) as Hz.
    { unfold normalize.
      change (isAbsolute ((d0 :: d) ++ slash :: n)) with a.
      change ((d0 :: d) ++ slash :: n) with (d0 :: (d ++ slash :: n)) at 1.
      cbv iota zeta. rewrite Hnorm.
      assert (last ((d0 :: d) ++ slash :: n) = last n) as ->.
      { rewrite last_app. rewrite last_cons.
        destruct (last n) eqn:El; [done|]. by apply last_None in El. }
      pose proof (Hj S) as HjS.
      destruct (joinSlash (S ++ segs)) as [|j0 j] eqn:Ej; [done|].
      destruct (last n) as [c|]; [|by destruct a].
      destruct (c =? slash) eqn:Ec; [|by destruct a].
      apply N.eqb_eq in Ec. by subst. }
    rewrite Hz, !key_rawSegs. unfold rawSegs. fold a.
    assert (split (joinSlash (S ++ segs)) = S ++ segs) as Hsp.
    { apply split_joinSlash; [by destruct S, segs|].
      apply Forall_app. by split. }
    destruct a eqn:Ea.
    + change (isAbsolute (slash :: joinSlash (S ++ segs))) with true.
      cbv iota. rewrite !app_nil_l.
      change (split (slash :: joinSlash (S ++ segs)))
        with ([] :: split (joinSlash (S ++ segs))).
      rewrite Hsp, normSegs_empty, normSegs_app_plains by done. f_equal.
      unfold S. simpl negb.
      by rewrite normSegs_again by (done || constructor).
    + assert (isAbsolute (joinSlash (S ++ segs)) = false) as ->.
      { apply joinSlash_head; [by destruct S, segs|].
        apply Forall_app. split.
        - unfold S. apply normSegs_named; [constructor | apply split_noslash].
        - eapply Forall_impl; [exact Hs|]. by intros x (? & _ & _ & ?). }
      rewrite Hsp, app_assoc, normSegs_app_plains by done. f_equal.
      rewrite !(normSegs_app false [] (split process_cwd)).
      unfold S. simpl negb.
      by rewrite normSegs_again by (done || constructor).
Qed.

(** The same for a relative path given as a string. *)
Lemma key_join_rel d r :
  forallb validName (split r) = true → key (join [d; r]) = key d ++ split r.
Proof.
  intros Hr. rewrite <- (joinSlash_split r) at 1.
  apply key_join_segs; [apply split_nonempty|].
  induction (split r) as [|x l IH]; [constructor|].
  simpl in Hr. apply andb_true_iff in Hr as [Hx Hl].
  constructor; [by apply validName_goodSeg | by apply IH].
Qed.

Lemma join_three b x y :
  x ≠ [] → y ≠ [] → join [b; x; y] = join [b; joinSlash [x; y]].
Proof. destruct b, x, y; done. Qed.

Lemma key_getCanonicalSkillsDir g cwd :
  key (getCanonicalSkillsDir g cwd)
  = key (if g then homedir else orString cwd process_cwd)
    ++ [AGENTS_DIR; SKILLS_SUBDIR].
Proof.
  unfold getCanonicalSkillsDir. cbv zeta.
  rewrite join_three by done.
  apply key_join_segs; [done|].
  repeat constructor; by (apply validName_goodSeg; vm_compute).
Qed.

Lemma sanitizeName_noslash name : slash ∉ sanitizeName name.
Proof.
  intros Hin. pose proof (sanitizeName_alphabet name) as Ha.
  rewrite Forall_forall in Ha. specialize (Ha _ Hin). done.
Qed.

Lemma sanitizeName_goodSeg name : goodSeg (sanitizeName name).
Proof.
  pose proof (sanitizeName_nonempty name) as Hne.
  pose proof (sanitizeName_begins name) as Hb.
  repeat split.
  - done.
  - intros E. rewrite E in Hb. done.
  - intros E. rewrite E in Hb. done.
  - apply sanitizeName_noslash.
Qed.

Lemma isPathSafe_child base n :
  goodSeg n → isPathSafe base (join [base; n]) = true ↔ key base ≠ [].
Proof.
  intros Hn. rewrite isPathSafe_segments, key_join by done. split.
  - intros [E | [Hb _]]; [|done].
    intros Hk. rewrite Hk in E. done.
  - intros Hb. right. split; [done|]. by exists [n].
Qed.

End PathSegments.

(** ** The directory of an entry *)

Section Dirname.
Context `{Host}.

Lemma dirnameScan_name l b r :
  slash ∉ l → (l ≠ [] ∨ b = false) →
  dirnameScan b (l ++ slash :: r) = Some r.
Proof.
  revert b; induction l as [|c l IH]; intros b Hl Hb.
  - destruct Hb as [Hb|Hb]; [done|]. subst b. reflexivity.
  - apply not_elem_of_cons in Hl as [Hc Hl]. simpl.
    destruct (c =? slash) eqn:E; [by apply N.eqb_eq in E|].
    apply IH; [done | by right].
Qed.

Lemma dirnameScan_none l b : slash ∉ l → dirnameScan b l = None.
Proof.
  revert b; induction l as [|c l IH]; intros b Hl; [done|].
  apply not_elem_of_cons in Hl as [Hc Hl]. simpl.
  destruct (c =? slash) eqn:E; [by apply N.eqb_eq in E|]. by apply IH.
Qed.

Lemma not_elem_of_reverse' (c : jschar) l : c ∉ l → c ∉ reverse l.
Proof. intros Hl Hr. apply Hl. by apply elem_of_reverse. Qed.

Lemma dirname_entry X n :
  X ≠ [] → last X ≠ Some slash → n ≠ [] → slash ∉ n →
  dirname (X ++ slash :: n) = X.
Proof.
  intros HX Hlast Hn Hs. destruct X as [|c0 X']; [done|].
  unfold dirname. rewrite <- app_comm_cons.
  rewrite reverse_app, reverse_cons, <- app_assoc.
  change ([slash] ++ reverse X') with (slash :: reverse X').
  rewrite dirnameScan_name; [|by apply not_elem_of_reverse'|].
  2:{ left. intros E. apply (f_equal reverse) in E.
      rewrite reverse_involutive in E. done. }
  destruct (reverse X') as [|y r] eqn:E.
  - apply (f_equal reverse) in E. rewrite reverse_involutive in E.
    subst X'. change (last [c0]) with (Some c0) in Hlast.
    destruct (c0 =? slash) eqn:Ec; [|done].
    apply N.eqb_eq in Ec. by subst.
  - rewrite <- E. by rewrite reverse_involutive.
Qed.

Lemma dirname_root_entry n : slash ∉ n → dirname (slash :: n) = sep.
Proof.
  intros Hs. unfold dirname.
  by rewrite dirnameScan_none by by apply not_elem_of_reverse'.
Qed.

Lemma dirname_name n : n ≠ [] → slash ∉ n → dirname n = [dot].
Proof.
  intros Hn Hs. destruct n as [|c n]; [done|].
  apply not_elem_of_cons in Hs as [Hc Hs]. unfold dirname.
  rewrite dirnameScan_none by by apply not_elem_of_reverse'.
  destruct (c =? slash) eqn:E; [by apply N.eqb_eq in E | done].
Qed.

(** What [join(dir, name)] returns: the normalized segments of [dir],
    then [name]. *)
Lemma join_entry d n :
  goodSeg n →
  ∃ (abs : bool) S,
    join [d; n] = (if abs then slash :: joinSlash (S ++ [n])
                   else joinSlash (S ++ [n]))
    ∧ Forall (λ x : jsstring, x ≠ [] ∧ slash ∉ x) S
    ∧ key d = normSegs false []
                ((if abs then [] else split process_cwd) ++ S).
Proof.
  intros Hn. pose proof Hn as (Hne & _ & _ & Hs).
  pose proof (goodSeg_plain n Hn) as Hp.
  destruct d as [|d0 d].
  - exists false, []. rewrite join_empty, normalize_name by done.
    split; [done|]. split; [constructor|].
    rewrite key_rawSegs. unfold rawSegs. change (isAbsolute []) with false.
    change (split []) with [([] : jsstring)].
    by rewrite normSegs_snoc_empty, app_nil_r.
  - rewrite join_two by done.
    set (a := isAbsolute (d0 :: d)).
    set (S := normSegs (negb a) [] (split (d0 :: d))).
    exists a, S.
    assert (Forall (λ x : jsstring, x ≠ [] ∧ slash ∉ x) S) as HS.
    { apply normSegs_named; [constructor | apply split_noslash]. }
    split; [|split; [done|]].
    + assert (normalizeString ((d0 :: d) ++ slash :: n) (negb a)
              = joinSlash (S ++ [n])) as Hnorm.
      { unfold normalizeString. rewrite split_app_slash, (split_seg n) by done.
        by rewrite normSegs_snoc. }
      unfold normalize.
      change (isAbsolute ((d0 :: d) ++ slash :: n)) with a.
      change ((d0 :: d) ++ slash :: n) with (d0 :: (d ++ slash :: n)) at 1.
      cbv iota zeta. rewrite Hnorm.
      pose proof (joinSlash_snoc_nonempty S n Hne) as Hj.
      assert (last ((d0 :: d) ++ slash :: n) = last n) as ->.
      { rewrite last_app. rewrite last_cons.
        destruct (last n) eqn:El; [done|]. by apply last_None in El. }
      pose proof (goodSeg_last n Hn) as Hl.
      destruct (joinSlash (S ++ [n])) as [|j0 j] eqn:Ej;
        [exfalso; apply Hj; exact Ej|].
      destruct (last n) as [c|]; [|by destruct a].
      destruct (c =? slash) eqn:Ec; [|by destruct a].
      apply N.eqb_eq in Ec. by subst.
    + rewrite key_rawSegs. unfold rawSegs. fold a. unfold S.
      destruct a eqn:Ea; simpl negb; cbv iota.
      * rewrite !app_nil_l.
        by rewrite normSegs_again by (done || constructor).
      * rewrite !(normSegs_app false [] (split process_cwd)).
        by rewrite normSegs_again by (done || constructor).
Qed.

Lemma last_joinSlash_named S :
  S ≠ [] → Forall (λ x : jsstring, x ≠ [] ∧ slash ∉ x) S →
  last (joinSlash S) ≠ Some slash.
Proof.
  induction S as [|x S IH]; [done|]. intros _ HS.
  inversion HS as [|? ? [Hx Hn] HS']; subst.
  destruct S as [|y S].
  - simpl. intros Hl. apply Hn.
    destruct x as [|c x] using rev_ind; [done|].
    rewrite last_snoc in Hl. injection Hl as ->.
    apply elem_of_app. right. by apply list_elem_of_singleton.
  - change (joinSlash (x :: y :: S)) with (x ++ slash :: joinSlash (y :: S)).
    rewrite last_app, last_cons.
    destruct (last (joinSlash (y :: S))) as [c|] eqn:El.
    + intros [= ->]. by apply IH.
    + apply last_None in El. inversion HS' as [|? ? [Hy _] _]; subst.
      destruct S; simpl in El; [done|]. by destruct y.
Qed.

Lemma joinSlash_named_nonempty S :
  S ≠ [] → Forall (λ x : jsstring, x ≠ [] ∧ slash ∉ x) S → joinSlash S ≠ [].
Proof.
  intros HS Hall. destruct S as [|x S]; [done|].
  inversion Hall as [|? ? [Hx _] _]; subst.
  destruct S; simpl; [done|]. by destruct x.
Qed.

Lemma last_cons_ne (c x : jschar) l :
  l ≠ [] → last l ≠ Some x → last (c :: l) ≠ Some x.
Proof.
  intros Hne Hl. rewrite last_cons.
  destruct (last l) eqn:El; [done | by apply last_None in El].
Qed.

(** [dirname(join(dir, name))] is [dir], up to normalization. *)
Lemma key_dirname_join d n :
  goodSeg n → key (dirname (join [d; n])) = key d.
Proof.
  intros Hn. pose proof Hn as (Hne & _ & _ & Hs).
  destruct (join_entry d n Hn) as (abs & S & -> & HS & ->).
  assert (Forall (λ x : jsstring, slash ∉ x) S) as HS'.
  { eapply Forall_impl; [exact HS|]. by intros x [_ ?]. }
  destruct S as [|s S].
  - simpl app. simpl joinSlash. destruct abs.
    + by rewrite dirname_root_entry.
    + rewrite dirname_name by done. rewrite key_rawSegs. unfold rawSegs.
      change (isAbsolute [dot]) with false. rewrite app_nil_r.
      change (split [dot]) with [[dot]].
      rewrite normSegs_app. etrans; [|apply reverse_involutive].
      reflexivity.
  - rewrite joinSlash_app by done. simpl (joinSlash [n]).
    pose proof (joinSlash_named_nonempty (s :: S) ltac:(done) HS) as Hne'.
    pose proof (last_joinSlash_named (s :: S) ltac:(done) HS) as Hl.
    destruct abs.
    + rewrite app_comm_cons, dirname_entry; [|done| |done|done].
      2:{ by apply last_cons_ne. }
      rewrite key_rawSegs. unfold rawSegs.
      change (isAbsolute (slash :: joinSlash (s :: S))) with true.
      cbv iota. rewrite !app_nil_l.
      change (split (slash :: joinSlash (s :: S)))
        with ([] :: split (joinSlash (s :: S))).
      by rewrite normSegs_empty, split_joinSlash.
    + rewrite dirname_entry by done.
      rewrite key_rawSegs. unfold rawSegs.
      rewrite joinSlash_head by done.
      by rewrite split_joinSlash.
Qed.

End Dirname.

(** ** The directories of the agents *)

Section AgentDirectories.
Context `{Host}.

Lemma truthy_default flag : truthy flag = default false flag.
Proof. by destruct flag as [[]|]. Qed.

Lemma skillsDir_names a :
  forallb validName (split (AgentConfig.skillsDir (agents a))) = true.
Proof. destruct a; cbn [agents AgentConfig.skillsDir]; vm_compute; reflexivity. Qed.

Lemma key_projectBase cwd a :
  key (join [cwd; AgentConfig.skillsDir (agents a)])
  = key cwd ++ split (AgentConfig.skillsDir (agents a)).
Proof. apply key_join_rel, skillsDir_names. Qed.

Lemma key_child_nonroot d r :
  forallb validName (split r) = true → key (join [d; r]) ≠ [].
Proof.
  intros Hr. rewrite key_join_rel by done.
  pose proof (split_nonempty r). intros [_ E]%app_eq_nil. done.
Qed.

Lemma globalSkillsDir_nonroot a g :
  AgentConfig.globalSkillsDir (agents a) = Some g → key g ≠ [].
Proof.
  destruct a; cbn [agents AgentConfig.globalSkillsDir]; intros [= <-];
    repeat case_match; apply key_child_nonroot; vm_compute; reflexivity.
Qed.

(** Every directory of an agent lies below the root. *)
Lemma agentBase_nonroot a options base :
  agentBaseOf a options = Some base → key base ≠ [].
Proof.
  unfold agentBaseOf. destruct (default false (Options.global options)).
  - apply globalSkillsDir_nonroot.
  - intros [= <-]. apply key_child_nonroot, skillsDir_names.
Qed.

Lemma canonicalBase_nonroot g cwd : key (getCanonicalSkillsDir g cwd) ≠ [].
Proof.
  rewrite key_getCanonicalSkillsDir. intros [_ E]%app_eq_nil. done.
Qed.

Lemma supportsScope_agentBase a options :
  supportsScope (default false (Options.global options)) a
  ↔ is_Some (agentBaseOf a options).
Proof.
  unfold supportsScope, agentBaseOf.
  destruct (default false (Options.global options)).
  - split; [by intros Hs; apply Hs | by intros Hs _].
  - split; [by eexists | done].
Qed.

(** [replit] in the global scope is the one pair without a directory. *)
Lemma supportsScope_replit g a :
  supportsScope g a ↔ ¬ (g = true ∧ a = replit).
Proof.
  unfold supportsScope. split.
  - intros Hs [-> ->]. destruct (Hs eq_refl) as [x Hx]. done.
  - intros Hn ->. destruct a; cbn [agents AgentConfig.globalSkillsDir];
      try by eexists. by destruct Hn.
Qed.

Lemma orString_again c d : orString (Some (orString c d)) d = orString c d.
Proof. destruct c as [[|x c]|]; simpl; by destruct d. Qed.

Lemma canonicalBaseOf_options options :
  canonicalBaseOf options
  = getCanonicalSkillsDir (default false (Options.global options))
      (Options.cwd options).
Proof.
  unfold canonicalBaseOf, getCanonicalSkillsDir. cbv zeta.
  by rewrite orString_again.
Qed.

End AgentDirectories.

Section InstallPaths.
Context `{Host}.

Lemma getInstallPath_base skillName agentType options base :
  agentBaseOf agentType options = Some base →
  getInstallPath skillName agentType options
  = inr (join [base; sanitizeName skillName])
  ∧ isPathSafe base (join [base; sanitizeName skillName]) = true.
Proof.
  intros Hbase. pose proof (sanitizeName_goodSeg skillName) as Hn.
  pose proof (agentBase_nonroot _ _ _ Hbase) as Hroot.
  pose proof (proj2 (isPathSafe_child base _ Hn) Hroot) as Hsafe.
  split; [|done].
  unfold getInstallPath, agentBaseOf in *. cbv zeta.
  rewrite truthy_default, Hbase. cbn [joinChecked mapM id mbind option_bind
    mret option_ret fmap option_fmap option_map default].
  by rewrite Hsafe.
Qed.

Lemma getCanonicalPath_base skillName options :
  let canonicalBase :=
    getCanonicalSkillsDir (default false (Options.global options))
      (Options.cwd options) in
  getCanonicalPath skillName options
  = inr (join [canonicalBase; sanitizeName skillName])
  ∧ isPathSafe canonicalBase (join [canonicalBase; sanitizeName skillName])
    = true.
Proof.
  intros canonicalBase. pose proof (sanitizeName_goodSeg skillName) as Hn.
  pose proof (proj2 (isPathSafe_child canonicalBase _ Hn)
                (canonicalBase_nonroot _ _)) as Hsafe.
  split; [|done]. unfold getCanonicalPath. cbv zeta.
  fold canonicalBase. by rewrite Hsafe.
Qed.

(** X7: [sanitizeName] returns one component of a path: it is not
    empty, it is neither [.] nor [..], and it has no slash.  Joined to
    a directory it names an entry of that directory, whatever the name
    that was given, and the containment check of [isPathSafe] accepts
    it unless the directory is the root. *)
Theorem sanitizeName_names_entry name base :
  goodSeg (sanitizeName name)
  ∧ key (join [base; sanitizeName name]) = key base ++ [sanitizeName name]
  ∧ (isPathSafe base (join [base; sanitizeName name]) = true
     ↔ key base ≠ []).
Proof.
  pose proof (sanitizeName_goodSeg name) as Hn.
  split; [done|]. split; [by apply key_join | by apply isPathSafe_child].
Qed.

(** X8: [getCanonicalPath] never throws: for every name and every
    option it returns the entry of [.agents/skills], under the home
    directory or the working directory, that carries the sanitized
    name. *)
Theorem getCanonicalPath_returns skillName options :
  let baseDir :=
    if default false (Options.global options) then homedir
    else orString (Options.cwd options) process_cwd in
  ∃ p, getCanonicalPath skillName options = inr p
       ∧ p = join [join [baseDir; js ".agents"; js "skills"];
                   sanitizeName skillName]
       ∧ key p = key baseDir
                   ++ [js ".agents"; js "skills"; sanitizeName skillName].
Proof.
  intros baseDir.
  destruct (getCanonicalPath_base skillName options) as [-> _].
  eexists. split; [reflexivity|]. split; [reflexivity|].
  rewrite key_join, key_getCanonicalSkillsDir by apply sanitizeName_goodSeg.
  by rewrite <- app_assoc.
Qed.

(** X9: for an agent that has a directory in the scope,
    [getInstallPath] never throws: it returns the entry of that
    directory that carries the sanitized name.  The directory lies
    below the root, so the containment check cannot fail. *)
Theorem getInstallPath_returns skillName agentType options base :
  agentBaseOf agentType options = Some base →
  getInstallPath skillName agentType options
  = inr (join [base; sanitizeName skillName])
  ∧ key (join [base; sanitizeName skillName])
    = key base ++ [sanitizeName skillName]
  ∧ isPathSafe base (join [base; sanitizeName skillName]) = true.
Proof.
  intros Hbase.
  destruct (getInstallPath_base skillName _ _ _ Hbase) as [-> Hsafe].
  split; [done|]. split; [|done]. apply key_join, sanitizeName_goodSeg.
Qed.

End InstallPaths.

(** ** What an install reports *)

Section Yields.

(** Whatever [m] returns satisfies [P]; [m] may as well fail. *)
Definition yields {A} (P : A → Prop) (m : M A) : Prop :=
  ∀ w w' a, m w = (w', Ok a) → P a.

Lemma yields_ret {A} (P : A → Prop) a : P a → yields P (ret a).
Proof. by intros HP w w' a' [= _ <-]. Qed.

Lemma yields_throw {A} (P : A → Prop) e : yields P (throw e).
Proof. by intros w w' a. Qed.

Lemma yields_bind {A B} (P : B → Prop) (m : M A) k :
  (∀ a, yields P (k a)) → yields P (bind m k).
Proof. intros Hk w w' b (w1 & a & _ & Hb)%bind_Ok. by eapply Hk. Qed.

Lemma yields_try_catch {A} (P : A → Prop) m h :
  yields P m → (∀ e, yields P (h e)) → yields P (try_catch m h).
Proof.
  intros Hm Hh w w' a. unfold try_catch.
  destruct (m w) as [w1 [a1|e|]] eqn:E; [|by apply Hh|done].
  intros [= <- <-]. by eapply Hm.
Qed.

End Yields.

Section ReportedPaths.
Context `{Host}.

(** X10: the paths in the result of [installSkillForAgent] are the
    ones that [getInstallPath] and [getCanonicalPath] compute for the
    display name of the skill, whether the install went through or
    not. *)
Theorem installSkillForAgent_reports_paths
    fuel skill agentType options w w' r :
  installSkillForAgent fuel skill agentType options w = (w', Ok r) →
  getInstallPath (getSkillDisplayName skill) agentType options
  = inr (InstallResult.path r)
  ∧ ∀ c, InstallResult.canonicalPath r = Some c →
         getCanonicalPath (getSkillDisplayName skill) options = inr c.
Proof.
  intros Hrun.
  destruct (agentBaseOf agentType options) as [base|] eqn:Hbase.
  - destruct (getInstallPath_base (getSkillDisplayName skill) _ _ _ Hbase)
      as (Hpath & Hsafe).
    destruct (getCanonicalPath_base (getSkillDisplayName skill) options)
      as (Hcanon & Hcsafe).
    rewrite Hpath, Hcanon. revert Hrun.
    unfold installSkillForAgent, agentBaseOf in *. cbv zeta.
    rewrite Hbase, joinArgs_defined, bind_run. cbn [ret].
    change (default [] (Some base)) with base.
    unfold getSkillDisplayName in *.
    rewrite <- canonicalBaseOf_options in Hcsafe. unfold canonicalBaseOf in *.
    rewrite Hsafe, Hcsafe. cbn [negb].
    set (agentDir := join [base; _]).
    set (canonicalDir := join [getCanonicalSkillsDir _ _; _]).
    intros Hrun.
    assert (InstallResult.path r = agentDir
            ∧ (InstallResult.canonicalPath r = None
               ∨ InstallResult.canonicalPath r = Some canonicalDir))
      as [-> Hc].
    { revert Hrun.
      apply (yields_try_catch
               (λ r0, InstallResult.path r0 = agentDir
                      ∧ (InstallResult.canonicalPath r0 = None
                         ∨ InstallResult.canonicalPath r0
                           = Some canonicalDir))).
      - destruct (default symlink_mode (Options.mode options)).
        + apply yields_bind; intros _. apply yields_bind; intros _.
          apply yields_bind; intros created.
          destruct (negb created).
          * apply yields_bind; intros _. apply yields_bind; intros _.
            apply yields_bind; intros _.
            apply yields_ret; cbv beta. split; [reflexivity | by right].
          * apply yields_ret; cbv beta. split; [reflexivity | by right].
        + apply yields_bind; intros _. apply yields_bind; intros _.
          apply yields_ret; cbv beta. split; [reflexivity | by left].
      - intros e. apply yields_ret; cbv beta. split; [reflexivity | by left]. }
    split; [done|]. intros c Hc'.
    destruct Hc as [Hc|Hc]; rewrite Hc in Hc'; [done|].
    injection Hc' as <-. subst canonicalDir.
    by rewrite <- canonicalBaseOf_options.
  - revert Hrun. unfold installSkillForAgent, agentBaseOf in *. cbv zeta.
    by rewrite Hbase.
Qed.

End ReportedPaths.

(** ** Which installs throw *)

Section WhoThrows.
Context `{Host}.

Lemma unsupported_replit g a : ¬ supportsScope g a → g = true ∧ a = replit.
Proof.
  intros Hn. destruct g.
  - split; [done|].
    destruct a; try done; exfalso; apply Hn; intros _;
      cbn [agents AgentConfig.globalSkillsDir]; by eexists.
  - exfalso. apply Hn. by intros.
Qed.

(** X11: with enough fuel, [installSkillForAgent] throws for [replit]
    in the global scope and for no other agent and scope: everywhere
    else it returns a result, a success or a failure with its
    message. *)
Theorem installSkillForAgent_throws_iff fuel skill agentType options w :
  (PATH_MAX < fuel)%nat →
  ((∃ e, run (installSkillForAgent fuel skill agentType options) w = Throw e)
   ↔ default false (Options.global options) = true ∧ agentType = replit)
  ∧ (¬ (default false (Options.global options) = true ∧ agentType = replit)
     → ∃ r, run (installSkillForAgent fuel skill agentType options) w = Ok r
            ∧ reported r).
Proof.
  intros Hfuel.
  assert (¬ (default false (Options.global options) = true
             ∧ agentType = replit)
          → ∃ r, run (installSkillForAgent fuel skill agentType options) w
                 = Ok r ∧ reported r) as Hret.
  { intros Hs%supportsScope_replit.
    exact (installSkillForAgent_returns fuel skill _ _ Hfuel Hs w). }
  split; [|done]. split.
  - intros [e He]. apply unsupported_replit. intros Hs.
    destruct (installSkillForAgent_returns fuel skill _ _ Hfuel Hs w)
      as (r & Hr & _).
    unfold run in He. congruence.
  - intros [Hg ->]. exists undefinedPath. unfold run.
    destruct options as [g cwd mode]. simpl in Hg.
    destruct g as [[]|]; [|done|done].
    by rewrite installSkillForAgent_undefined.
Qed.

End WhoThrows.

(** ** Is the skill installed? *)

Section Installed.
Context `{Host}.

Lemma access_run p w w' r :
  access p w = (w', r) →
  same w w'
  ∧ match r with
    | Ok _ => ∃ q, follow MAXSYMLINKS (files w) p = inr q
    | Throw e => fromEnv e ∨ follow MAXSYMLINKS (files w) p = inl e
    | Diverge => False
    end.
Proof.
  unfold access. rewrite bind_run.
  destruct (fault w) as [w1 r1] eqn:Ef.
  apply fault_run in Ef as (Ef & Ej & Hr1).
  destruct r1 as [[]|e|]; [|intros [= <- <-]; by split; [|left]|done].
  rewrite bind_run. unfold get. rewrite bind_run, Ef.
  destruct (follow MAXSYMLINKS (files w) p) as [e|q] eqn:Efo; simpl;
    intros [= <- <-]; (split; [done|]); eauto.
Qed.

Lemma access_calm p w :
  faults w = [] →
  access p w
  = (w, match follow MAXSYMLINKS (files w) p with
        | inl e => Throw e
        | inr _ => Ok tt
        end).
Proof.
  intros Hw. unfold access, bind, fault, get. rewrite Hw.
  by destruct (follow MAXSYMLINKS (files w) p).
Qed.

Lemma isSkillInstalled_base skillName agentType options base w :
  agentBaseOf agentType options = Some base →
  isSkillInstalled skillName agentType options w
  = try_catch (access (join [base; sanitizeName skillName]) ;; ret true)
      (λ _, ret false) w.
Proof.
  intros Hbase.
  destruct (getInstallPath_base skillName _ _ _ Hbase) as [_ Hsafe].
  unfold isSkillInstalled, agentBaseOf in *. cbv zeta.
  rewrite truthy_default, Hbase, joinArgs_defined, bind_run. cbn [ret].
  change (default [] (Some base)) with base.
  by rewrite Hsafe.
Qed.

Lemma isSkillInstalled_undefined skillName agentType cwd mode w :
  AgentConfig.globalSkillsDir (agents agentType) = None →
  isSkillInstalled skillName agentType (Options.mk (Some true) cwd mode) w
  = (w, Throw undefinedPath).
Proof.
  intros Hnone. unfold isSkillInstalled.
  cbn [Options.global Options.cwd truthy]. by rewrite Hnone.
Qed.


End Installed.

(** ** The overwrite check of [runAdd] *)

Section Overwrites.
Context `{Host}.

Lemma same_isSkillInstalled skillName agentType options :
  stable same (isSkillInstalled skillName agentType options).
Proof.
  unfold isSkillInstalled. cbv zeta.
  apply stable_bind; [apply _| |].
  - unfold joinArgs. destruct (mapM id _);
      [apply stable_ret | apply stable_throw]; apply _.
  - intros skillDir. destruct (negb _); [apply stable_ret, _|].
    apply stable_try_catch; [apply _| |intros e; apply stable_ret, _].
    apply stable_bind; [apply _ | apply same_access |].
    intros _. apply stable_ret, _.
Qed.

Lemma always_isSkillInstalled skillName agentType options :
  supportsScope (default false (Options.global options)) agentType →
  always (λ _, True) (isSkillInstalled skillName agentType options).
Proof.
  intros [base Hbase]%supportsScope_agentBase w.
  rewrite (isSkillInstalled_base _ _ _ base) by done.
  unfold try_catch. rewrite bind_run.
  destruct (access _ w) as [w1 r1] eqn:Ea.
  apply access_run in Ea as [_ Hr].
  destruct r1 as [[]|e|]; [by exists true | by exists false | done].
Qed.

Definition checkedPair (c : OverwriteCheck.t) : jsstring * AgentType :=
  (OverwriteCheck.skillName c, OverwriteCheck.agent c).

Definition checkPair (installGlobally : bool) (pair : Skill.t * AgentType)
  : list OverwriteCheck.t → M (list OverwriteCheck.t) :=
  let '(skill, agent) := pair in
  λ checks,
  installed <- isSkillInstalled (Skill.name skill) agent
                 (Options.mk (Some installGlobally) None None) ;;
  ret (checks ++ [OverwriteCheck.mk (Skill.name skill) agent installed]).

Lemma always_checkPairs g pairs checks :
  Forall (λ p : Skill.t * AgentType, supportsScope g p.2) pairs →
  always (λ checks', map checkedPair checks'
                     = map checkedPair checks
                       ++ map (λ p, (Skill.name p.1, p.2)) pairs)
    (foldLoop pairs (checkPair g) checks).
Proof.
  intros Hp. revert checks; induction Hp as [|[skill agent] pairs Ha _ IH];
    intros checks.
  - apply always_ret. by rewrite app_nil_r.
  - cbn [foldLoop]. eapply always_bind.
    + unfold checkPair. eapply always_bind;
        [by apply always_isSkillInstalled|].
      intros installed _.
      apply (always_ret (λ c, map checkedPair c
                              = map checkedPair checks
                                ++ [(Skill.name skill, agent)])).
      by rewrite map_app.
    + intros checks1 E. eapply always_mono; [|apply IH].
      intros checks2 ->. rewrite E, <- app_assoc. done.
Qed.

Lemma throws_checkPairs pairs checks w :
  Exists (λ p : Skill.t * AgentType, p.2 = replit) pairs →
  run (foldLoop pairs (checkPair true) checks) w = Throw undefinedPath.
Proof.
  intros Hp. revert checks w.
  induction pairs as [|[skill agent] pairs IH]; intros checks w.
  { by apply Exists_nil in Hp. }
  unfold run. cbn [foldLoop]. rewrite bind_run. unfold checkPair at 1.
  rewrite bind_run.
  destruct (AgentConfig.globalSkillsDir (agents agent)) as [g|] eqn:Hg.
  - assert (agent ≠ replit) as Hne by (intros ->; done).
    assert (supportsScope true agent) as Hs by (intros _; by eexists).
    destruct (always_isSkillInstalled (Skill.name skill) agent
                (Options.mk (Some true) None None) Hs w) as (b & Hb & _).
    destruct (isSkillInstalled _ _ _ w) as [w1 r1]. simpl in Hb. subst r1.
    cbn [ret]. apply IH.
    apply Exists_cons in Hp as [Hp|Hp]; [done | exact Hp].
  - by rewrite isSkillInstalled_undefined.
Qed.

(** X13: the overwrite check of [runAdd] asks [isSkillInstalled] for
    every pair of a selected skill and a target agent and changes
    nothing.  With agents that have a directory in the scope it
    returns one answer for each pair, in the order of the pairs.  With
    [replit] among the agents of a global install it throws, as soon
    as there is a skill to check. *)
Theorem overwriteChecks_outcome selectedSkills targetAgents installGlobally :
  let pairs :=
    flat_map (λ skill, map (λ agent, (Skill.name skill, agent)) targetAgents)
      selectedSkills in
  stable same (overwriteChecks selectedSkills targetAgents installGlobally)
  ∧ (Forall (supportsScope installGlobally) targetAgents →
     always (λ checks, map checkedPair checks = pairs)
       (overwriteChecks selectedSkills targetAgents installGlobally))
  ∧ (installGlobally = true → replit ∈ targetAgents →
     selectedSkills ≠ [] →
     ∀ w, run (overwriteChecks selectedSkills targetAgents installGlobally) w
          = Throw undefinedPath).
Proof.
  intros pairs.
  assert (overwriteChecks selectedSkills targetAgents installGlobally
          = foldLoop
              (flat_map (λ skill, map (λ agent, (skill, agent)) targetAgents)
                 selectedSkills)
              (checkPair installGlobally) []) as ->.
  { reflexivity. }
  split; [|split].
  - apply stable_foldLoop; [apply _|]. intros [skill agent] checks.
    apply stable_bind; [apply _ | apply same_isSkillInstalled |].
    intros b. apply stable_ret, _.
  - intros Hagents. eapply always_mono; [|apply always_checkPairs].
    + intros checks ->. simpl. subst pairs.
      induction selectedSkills as [|s l IH]; [done|]. simpl.
      rewrite map_app, IH, map_map. done.
    + apply Forall_flat_map, Forall_forall. intros skill _.
      apply Forall_fmap. eapply Forall_impl; [exact Hagents|]. done.
  - intros -> Hin Hne w. apply throws_checkPairs.
    destruct selectedSkills as [|s l]; [done|]. simpl.
    apply Exists_app. left. apply Exists_fmap, Exists_exists.
    by exists replit.
Qed.

End Overwrites.

(** ** The arguments of [add] *)

Section AddArguments.

(** An argument that is not an option: not empty, no leading dash. *)
Definition positional (arg : jsstring) : bool :=
  nonEmpty arg && negb (startsWith arg (js "-")).

(** The positional arguments at the head of a list. *)
Fixpoint leading (l : list jsstring) : list jsstring :=
  match l with
  | x :: r => if positional x then x :: leading r else []
  | [] => []
  end.

Lemma leading_app l : l = leading l ++ drop (length (leading l)) l.
Proof.
  induction l as [|x l IH]; [done|]. simpl.
  destruct (positional x); [|done]. simpl. by rewrite <- IH.
Qed.

Lemma leading_positional l : Forall (λ x, positional x = true) (leading l).
Proof.
  induction l as [|x l IH]; simpl; [constructor|].
  destruct (positional x) eqn:E; by constructor.
Qed.

Lemma filter_leading l :
  filter (λ x, positional x = true) l
  = leading l ++ filter (λ x, positional x = true)
                   (drop (length (leading l)) l).
Proof.
  induction l as [|x l IH]; [done|]. simpl.
  destruct (positional x) eqn:E; [|done].
  rewrite filter_cons_True by done. simpl. by rewrite <- IH.
Qed.

Lemma takeValues_drop fuel args i values :
  (length args ≤ i + fuel)%nat →
  takeValues fuel args i values
  = ((i + length (leading (drop i args)))%nat,
     values ++ leading (drop i args)).
Proof.
  revert i values; induction fuel as [|fuel IH]; intros i values Hlen.
  - rewrite drop_ge by lia. simpl. by rewrite Nat.add_0_r, app_nil_r.
  - cbn [takeValues]. destruct (args !! i) as [x|] eqn:Ex.
    + rewrite (drop_S _ _ _ Ex). pose proof (lookup_lt_Some _ _ _ Ex).
      rewrite bool_decide_true, andb_true_l by done.
      change (nonEmpty x && negb (startsWith x (js "-")))
        with (positional x).
      cbn [leading]. destruct (positional x) eqn:Ep.
      * rewrite IH by lia. rewrite <- app_assoc. cbn [length app].
        f_equal. lia.
      * by rewrite Nat.add_0_r, app_nil_r.
    + apply lookup_ge_None in Ex. rewrite drop_ge by lia. cbn [leading].
      by rewrite Nat.add_0_r, app_nil_r.
Qed.

Lemma isFlag_spec arg short long :
  isFlag arg short long = true ↔ arg = lit short ∨ arg = lit long.
Proof. unfold isFlag. by rewrite orb_true_iff, !streq_spec. Qed.

(** What the parser has collected: the sources and the values of
    [--agent] and [--skill]. *)
Definition collectedArgs (r : list jsstring * AddOptions.t)
  : list jsstring :=
  r.1 ++ default [] (AddOptions.agent r.2)
      ++ default [] (AddOptions.skill r.2).

Lemma drop_drop_leading (args : list jsstring) i :
  drop (i + length (leading (drop i args))) args
  = drop (length (leading (drop i args))) (drop i args).
Proof. by rewrite drop_drop. Qed.

Lemma parseFrom_positional fuel args i options source :
  (length args ≤ i + fuel)%nat →
  collectedArgs (parseFrom fuel args i options source)
  ≡ₚ collectedArgs (source, options)
     ++ filter (λ x, positional x = true) (drop i args).
Proof.
  revert i options source; induction fuel as [|fuel IH];
    intros i options source Hlen.
  { rewrite drop_ge by lia. cbn [parseFrom].
    by rewrite filter_nil, app_nil_r. }
  cbn [parseFrom]. destruct (args !! i) as [arg|] eqn:Ea.
  2:{ apply lookup_ge_None in Ea. rewrite drop_ge by lia.
      by rewrite filter_nil, app_nil_r. }
  rewrite (drop_S _ _ _ Ea). destruct options as [g a y s l al].
  assert (∀ short long, isFlag arg short long = true →
          head (lit short) = Some 45 → head (lit long) = Some 45 →
          positional arg = false) as Hflag.
  { intros short long [->| ->]%isFlag_spec Hs Hl; unfold positional.
    - destruct (lit short) as [|c r]; [done|]. simpl in *.
      injection Hs as ->. done.
    - destruct (lit long) as [|c r]; [done|]. simpl in *.
      injection Hl as ->. done. }
  destruct (isFlag arg "-g" "--global") eqn:E1.
  { rewrite filter_cons_False by (rewrite (Hflag _ _ E1); done).
    rewrite IH by lia. done. }
  destruct (isFlag arg "-y" "--yes") eqn:E2.
  { rewrite filter_cons_False by (rewrite (Hflag _ _ E2); done).
    rewrite IH by lia. done. }
  destruct (isFlag arg "-l" "--list") eqn:E3.
  { rewrite filter_cons_False by (rewrite (Hflag _ _ E3); done).
    rewrite IH by lia. done. }
  destruct (streq arg (js "--all")) eqn:E4.
  { apply streq_spec in E4 as ->.
    rewrite filter_cons_False by done. rewrite IH by lia. done. }
  destruct (isFlag arg "-a" "--agent") eqn:E5.
  { rewrite filter_cons_False by (rewrite (Hflag _ _ E5); done).
    rewrite takeValues_drop by lia.
    replace (S (S i + length (leading (drop (S i) args)) - 1))%nat
      with (S i + length (leading (drop (S i) args)))%nat by lia.
    rewrite IH by lia. rewrite drop_drop_leading.
    rewrite (filter_leading (drop (S i) args)).
    unfold collectedArgs. simpl.
    set (vs := leading (drop (S i) args)).
    set (rest := filter _ (drop (length vs) _)).
    rewrite <- !app_assoc. apply Permutation_app_head.
    apply Permutation_app_head. rewrite !app_assoc.
    apply Permutation_app_tail. apply Permutation_app_comm. }
  destruct (isFlag arg "-s" "--skill") eqn:E6.
  { rewrite filter_cons_False by (rewrite (Hflag _ _ E6); done).
    rewrite takeValues_drop by lia.
    replace (S (S i + length (leading (drop (S i) args)) - 1))%nat
      with (S i + length (leading (drop (S i) args)))%nat by lia.
    rewrite IH by lia. rewrite drop_drop_leading.
    rewrite (filter_leading (drop (S i) args)).
    unfold collectedArgs. simpl. by rewrite <- !app_assoc. }
  change (nonEmpty arg && negb (startsWith arg (js "-")))
    with (positional arg).
  destruct (positional arg) eqn:E7.
  - rewrite filter_cons_True by done. rewrite IH by lia.
    unfold collectedArgs. cbn [fst snd AddOptions.agent AddOptions.skill].
    rewrite <- !app_assoc. apply Permutation_app_head.
    rewrite !app_assoc. apply Permutation_middle.
  - rewrite filter_cons_False by (rewrite E7; done).
    rewrite IH by lia. done.
Qed.

(** X14: [parseAddOptions] files every positional argument, one that
    is not empty and does not begin with a dash, exactly once: as a
    source, as a value of [--agent] or as a value of [--skill].  An
    argument that begins with a dash is never taken as a source or as
    a value. *)
Theorem parseAddOptions_positional args :
  collectedArgs (parseAddOptions args)
  ≡ₚ filter (λ x, positional x = true) args.
Proof.
  unfold parseAddOptions. rewrite parseFrom_positional by lia.
  by rewrite drop_0.
Qed.

(** An option is seen in a list of arguments. *)
Definition seen (short long : string) (l : list jsstring) : bool :=
  existsb (λ arg, isFlag arg short long) l.

Lemma existsb_leading (f : jsstring → bool) l :
  (∀ x, f x = true → positional x = false) →
  existsb f l = existsb f (drop (length (leading l)) l).
Proof.
  intros Hf. induction l as [|x l IH]; [done|]. simpl.
  destruct (positional x) eqn:E; [|done]. simpl. rewrite <- IH.
  destruct (f x) eqn:Ef; [|done]. apply Hf in Ef. congruence.
Qed.

Lemma isFlag_positional short long x :
  head (lit short) = Some 45 → head (lit long) = Some 45 →
  isFlag x short long = true → positional x = false.
Proof.
  intros Hs Hl [->| ->]%isFlag_spec; unfold positional.
  - destruct (lit short) as [|c r]; [done|]. simpl in *.
    injection Hs as ->. done.
  - destruct (lit long) as [|c r]; [done|]. simpl in *.
    injection Hl as ->. done.
Qed.

Lemma seen_leading short long l :
  head (lit short) = Some 45 → head (lit long) = Some 45 →
  seen short long l = seen short long (drop (length (leading l)) l).
Proof.
  intros Hs Hl. apply existsb_leading. intros x.
  by apply isFlag_positional.
Qed.

Definition flagged (short long : string) (before : option bool)
    (l : list jsstring) : option bool :=
  if seen short long l then Some true else before.

Definition given (short long : string) (before : option (list jsstring))
    (l : list jsstring) : Prop :=
  is_Some before ∨ seen short long l = true.

Lemma parseFrom_flags fuel args i options source :
  (length args ≤ i + fuel)%nat →
  let r := (parseFrom fuel args i options source).2 in
  AddOptions.global r
  = flagged "-g" "--global" (AddOptions.global options) (drop i args)
  ∧ AddOptions.yes r
    = flagged "-y" "--yes" (AddOptions.yes options) (drop i args)
  ∧ AddOptions.list r
    = flagged "-l" "--list" (AddOptions.list options) (drop i args)
  ∧ AddOptions.all r
    = flagged "--all" "--all" (AddOptions.all options) (drop i args)
  ∧ (is_Some (AddOptions.agent r)
     ↔ given "-a" "--agent" (AddOptions.agent options) (drop i args))
  ∧ (is_Some (AddOptions.skill r)
     ↔ given "-s" "--skill" (AddOptions.skill options) (drop i args)).
Proof.
  revert i options source; induction fuel as [|fuel IH];
    intros i options source Hlen.
  { rewrite drop_ge by lia. cbn [parseFrom snd]. unfold flagged, given.
    cbn [seen existsb]. repeat split; try done; intros; auto.
    by destruct H. by destruct H. }
  cbn [parseFrom]. destruct (args !! i) as [arg|] eqn:Ea.
  2:{ apply lookup_ge_None in Ea. rewrite drop_ge by lia.
      cbn [snd]. unfold flagged, given. cbn [seen existsb].
      repeat split; try done; intros; auto.
      by destruct H. by destruct H. }
  rewrite (drop_S _ _ _ Ea). destruct options as [g a y s l al].
  unfold flagged, given, seen in *. cbn [existsb].
  cbn [AddOptions.global AddOptions.yes AddOptions.list AddOptions.all
       AddOptions.agent AddOptions.skill].
  destruct (isFlag arg "-g" "--global") eqn:E1.
  { specialize (IH (S i) (AddOptions.mk (Some true) a y s l al) source
                  ltac:(lia)).
    apply isFlag_spec in E1 as [->| ->]; cbn [orb];
      destruct IH as (-> & -> & -> & -> & -> & ->);
      cbn [AddOptions.global AddOptions.yes AddOptions.list AddOptions.all
           AddOptions.agent AddOptions.skill];
      repeat split; try done; by destruct (existsb _ _). }
  destruct (isFlag arg "-y" "--yes") eqn:E2.
  { specialize (IH (S i) (AddOptions.mk g a (Some true) s l al) source
                  ltac:(lia)).
    apply isFlag_spec in E2 as [->| ->]; cbn [orb];
      destruct IH as (-> & -> & -> & -> & -> & ->);
      cbn [AddOptions.global AddOptions.yes AddOptions.list AddOptions.all
           AddOptions.agent AddOptions.skill];
      repeat split; try done; by destruct (existsb _ _). }
  destruct (isFlag arg "-l" "--list") eqn:E3.
  { specialize (IH (S i) (AddOptions.mk g a y s (Some true) al) source
                  ltac:(lia)).
    apply isFlag_spec in E3 as [->| ->]; cbn [orb];
      destruct IH as (-> & -> & -> & -> & -> & ->);
      cbn [AddOptions.global AddOptions.yes AddOptions.list AddOptions.all
           AddOptions.agent AddOptions.skill];
      repeat split; try done; by destruct (existsb _ _). }
  destruct (streq arg (js "--all")) eqn:E4.
  { specialize (IH (S i) (AddOptions.mk g a y s l (Some true)) source
                  ltac:(lia)).
    apply streq_spec in E4 as ->; cbn [orb];
      destruct IH as (-> & -> & -> & -> & -> & ->);
      cbn [AddOptions.global AddOptions.yes AddOptions.list AddOptions.all
           AddOptions.agent AddOptions.skill];
      repeat split; try done; by destruct (existsb _ _). }
  assert (isFlag arg "--all" "--all" = false) as E4'.
  { unfold isFlag. by rewrite E4. }
  rewrite E4'. cbn [orb].
  destruct (isFlag arg "-a" "--agent") eqn:E5.
  { rewrite takeValues_drop by lia.
    replace (S (S i + length (leading (drop (S i) args)) - 1))%nat
      with (S i + length (leading (drop (S i) args)))%nat by lia.
    specialize (IH (S i + length (leading (drop (S i) args)))%nat
                  (AddOptions.mk g
                     (Some (default [] a ++ leading (drop (S i) args)))
                     y s l al) source ltac:(lia)).
    rewrite drop_drop_leading in IH.
    rewrite <- !(existsb_leading _ (drop (S i) args)) in IH
      by (intros x; by apply isFlag_positional).
    destruct IH as (-> & -> & -> & -> & -> & ->).
    cbn [AddOptions.global AddOptions.yes AddOptions.list AddOptions.all
         AddOptions.agent AddOptions.skill].
    apply isFlag_spec in E5 as [->| ->]; cbn [orb];
      repeat split; try done; intros; auto; by left. }
  destruct (isFlag arg "-s" "--skill") eqn:E6.
  { rewrite takeValues_drop by lia.
    replace (S (S i + length (leading (drop (S i) args)) - 1))%nat
      with (S i + length (leading (drop (S i) args)))%nat by lia.
    specialize (IH (S i + length (leading (drop (S i) args)))%nat
                  (AddOptions.mk g a y
                     (Some (default [] s ++ leading (drop (S i) args)))
                     l al) source ltac:(lia)).
    rewrite drop_drop_leading in IH.
    rewrite <- !(existsb_leading _ (drop (S i) args)) in IH
      by (intros x; by apply isFlag_positional).
    destruct IH as (-> & -> & -> & -> & -> & ->).
    cbn [AddOptions.global AddOptions.yes AddOptions.list AddOptions.all
         AddOptions.agent AddOptions.skill].
    apply isFlag_spec in E6 as [->| ->]; cbn [orb];
      repeat split; try done; intros; auto; by left. }
  cbn [orb].
  destruct (nonEmpty arg && negb (startsWith arg (js "-")));
    [specialize (IH (S i) (AddOptions.mk g a y s l al) (source ++ [arg])
                   ltac:(lia))
    |specialize (IH (S i) (AddOptions.mk g a y s l al) source ltac:(lia))];
    destruct IH as (-> & -> & -> & -> & -> & ->); done.
Qed.

(** X15: [parseAddOptions] sets [global], [yes], [list] and [all]
    exactly when their option occurs among the arguments, at any
    position, and leaves them undefined otherwise; [agent] and [skill]
    are defined, possibly empty, exactly when [-a], [--agent], [-s] or
    [--skill] occurs. *)
Theorem parseAddOptions_flags args :
  let options := (parseAddOptions args).2 in
  AddOptions.global options = flagged "-g" "--global" None args
  ∧ AddOptions.yes options = flagged "-y" "--yes" None args
  ∧ AddOptions.list options = flagged "-l" "--list" None args
  ∧ AddOptions.all options = flagged "--all" "--all" None args
  ∧ (is_Some (AddOptions.agent options) ↔ seen "-a" "--agent" args = true)
  ∧ (is_Some (AddOptions.skill options) ↔ seen "-s" "--skill" args = true).
Proof.
  intros options. subst options. unfold parseAddOptions.
  destruct (parseFrom_flags (length args) args 0 AddOptions.empty []
              ltac:(lia)) as (Hg & Hy & Hl & Hal & Ha & Hs).
  rewrite drop_0 in *. repeat split; try done.
  - intros Hr. apply Ha in Hr as [[x Hx]|Hr]; done.
  - intros Hr. apply Ha. by right.
  - intros Hr. apply Hs in Hr as [[x Hx]|Hr]; done.
  - intros Hr. apply Hs. by right.
Qed.

End AddArguments.

Example parseAddOptions_mixed :
  parseAddOptions
    [js "owner/repo"; js "-a"; js "claude-code"; js "cursor"; js "-g";
     js "--skill"; js "foo"; js "--unknown"; js ""; js "extra"]
  = ([js "owner/repo"; js "extra"],
     AddOptions.mk (Some true) (Some [js "claude-code"; js "cursor"]) None
       (Some [js "foo"]) None None).
Proof. vm_compute. reflexivity. Qed.

(** A source that follows the values of [--agent] is taken as one more
    value; [--agent] at the end leaves an empty list. *)
Example parseAddOptions_swallowed :
  parseAddOptions [js "-a"; js "cursor"; js "owner/repo"]
  = ([], AddOptions.mk None (Some [js "cursor"; js "owner/repo"]) None
           None None None)
  ∧ parseAddOptions [js "owner/repo"; js "-a"]
    = ([js "owner/repo"], AddOptions.mk None (Some []) None None None None).
Proof. split; vm_compute; reflexivity. Qed.

(** ** Selecting skills by name *)

Section SkillFilter.
Context `{Host}.

(** The input names the skill: by its name, or by the last segment of
    its path if it has no name, without regard to case. *)
Definition selects (input : jsstring) (skill : Skill.t) : Prop :=
  toLowerCase input = toLowerCase (Skill.name skill)
  ∨ (Skill.name skill = []
     ∧ toLowerCase input = toLowerCase (basename (Skill.path skill))).

Lemma filterSkills_keeps skill inputNames :
  existsb (λ input,
             streq input (toLowerCase (Skill.name skill))
             || streq input (toLowerCase (getSkillDisplayName skill)))
    (map toLowerCase inputNames) = true
  ↔ ∃ input, input ∈ inputNames ∧ selects input skill.
Proof.
  rewrite existsb_exists. unfold selects, getSkillDisplayName. split.
  - intros (x & Hx & Hm). apply in_map_iff in Hx as (input & <- & Hin).
    exists input. split; [by apply list_elem_of_In|].
    apply orb_true_iff in Hm as [Hm|Hm]; apply streq_spec in Hm.
    + by left.
    + destruct (Skill.name skill) as [|c r] eqn:En; [by right | by left].
  - intros (input & Hin & Hs). exists (toLowerCase input). split.
    { apply in_map_iff. exists input. by split; [|apply list_elem_of_In]. }
    apply orb_true_iff. destruct Hs as [Hs|[En Hs]].
    + left. by apply streq_spec.
    + right. apply streq_spec. by rewrite En.
Qed.

(** X16: [filterSkills] keeps, in their order, the skills that one of
    the inputs names without regard to case, and no other; the last
    segment of the path stands for the name only where the name is
    empty.  With no input nothing is kept, and filtering twice by the
    same inputs changes nothing more. *)
Theorem filterSkills_selects skills inputNames :
  sublist (filterSkills skills inputNames) skills
  ∧ (∀ skill, skill ∈ filterSkills skills inputNames
              ↔ skill ∈ skills
                ∧ ∃ input, input ∈ inputNames ∧ selects input skill)
  ∧ filterSkills skills [] = []
  ∧ filterSkills (filterSkills skills inputNames) inputNames
    = filterSkills skills inputNames.
Proof.
  unfold filterSkills. cbv zeta. split; [apply sublist_filter|].
  split; [|split].
  - intros skill. rewrite list_elem_of_filter, filterSkills_keeps. tauto.
  - induction skills as [|s l IH]; [done|].
    by rewrite filter_cons_False.
  - apply list_filter_filter_l. done.
Qed.

End SkillFilter.

(** ** Discovery and listing only read *)

Section ReadOnly.
Context `{Host}.

Local Ltac same_step :=
  first
    [ apply stable_ret; apply _
    | apply stable_throw; apply _
    | apply same_stat | apply same_access | apply same_readFile
    | apply same_readdir | apply same_lstat | apply same_readlink
    | apply stable_bind; [apply _ | | intros ?]
    | apply stable_try_catch; [apply _ | | intros ?] ].

Lemma same_hasSkillMd dir : stable same (hasSkillMd dir).
Proof. unfold hasSkillMd. repeat same_step. Qed.

Lemma same_parseSkillMd p o : stable same (parseSkillMd p o).
Proof.
  unfold parseSkillMd. repeat same_step.
  destruct (matter _); [|same_step]. cbv zeta.
  repeat (case_match; try same_step).
Qed.

Lemma same_findSkillDirsFrom levels dir :
  stable same (findSkillDirsFrom levels dir).
Proof.
  revert dir; induction levels as [|levels IH]; intros dir; simpl.
  - same_step.
  - same_step; [|same_step].
    same_step; [apply same_hasSkillMd|].
    same_step; [repeat same_step|].
    same_step; [|same_step].
    induction (filter _ _) as [|entry es IHes]; [same_step|].
    same_step; [apply IH|]. same_step; [apply IHes | same_step].
Qed.

Lemma same_visitEntry options dir entry st :
  stable same (visitEntry options dir entry st).
Proof.
  unfold visitEntry. destruct (isDirectory _); [|same_step].
  same_step; [apply same_hasSkillMd|].
  case_match; [|same_step].
  same_step; [apply same_parseSkillMd | same_step].
Qed.

Lemma same_searchDirs options dirs st :
  stable same (searchDirs options dirs st).
Proof.
  revert st; induction dirs as [|dir dirs IH]; intros st; simpl.
  - same_step.
  - same_step; [|apply IH].
    same_step; [|same_step]. same_step; [same_step|].
    apply stable_loopInTry; [apply _|]. intros. apply same_visitEntry.
Qed.

Lemma same_discoverSkills basePath subpath options :
  stable same (discoverSkills basePath subpath options).
Proof.
  unfold discoverSkills. cbv zeta.
  same_step; [apply same_hasSkillMd|].
  same_step.
  { case_match; [apply same_parseSkillMd | same_step]. }
  case_match; [same_step|].
  same_step; [apply same_searchDirs|].
  case_bool_decide; [|same_step].
  same_step; [apply same_findSkillDirsFrom|].
  same_step; [|same_step].
  apply stable_foldLoop; [apply _|]. intros.
  same_step; [apply same_parseSkillMd | same_step].
Qed.

Lemma same_joinArgs args : stable same (joinArgs args).
Proof. unfold joinArgs. destruct (mapM id args); same_step. Qed.

Lemma same_tryNames agentBase names : stable same (tryNames agentBase names).
Proof.
  induction names as [|n names IH]; simpl; [same_step|].
  same_step; [apply same_joinArgs|].
  destruct (negb _); [apply IH|].
  same_step; [repeat same_step|]. case_match; [same_step | apply IH].
Qed.

Lemma same_scanAgentEntries agentBase skill es :
  stable same (scanAgentEntries agentBase skill es).
Proof.
  induction es as [|e es IH]; simpl; [same_step|].
  destruct (negb (isDirectory _)); [apply IH|].
  destruct (negb (isPathSafe _ _)); [apply IH|].
  same_step.
  - same_step; [|same_step]. cbv zeta.
    same_step; [same_step|].
    same_step; [apply same_parseSkillMd | same_step].
  - case_match; [same_step | apply IH].
Qed.

Lemma same_isInstalledFor g cwd n skill a :
  stable same (isInstalledFor g cwd n skill a).
Proof.
  unfold isInstalledFor. cbv zeta.
  same_step; [apply same_tryNames|].
  case_match; [same_step|].
  same_step; [|same_step].
  same_step; [|apply same_scanAgentEntries].
  case_match; same_step.
Qed.

Lemma same_listInstalledSkills options :
  stable same (listInstalledSkills options).
Proof.
  unfold listInstalledSkills. cbv zeta.
  apply stable_foldLoop; [apply _|]. intros scope installedSkills.
  same_step; [|same_step]. same_step; [same_step|].
  apply stable_loopInTry; [apply _|]. intros entry installed.
  destruct (negb (isDirectory _)); [same_step|].
  same_step; [repeat same_step|].
  destruct (negb _); [same_step|].
  same_step; [apply same_parseSkillMd|].
  case_match; [|same_step].
  same_step; [|same_step].
  apply stable_foldLoop; [apply _|]. intros.
  same_step; [apply same_isInstalledFor | same_step].
Qed.

End ReadOnly.

(** ** What discovery returns *)

Section Described.
Context `{Host}.

(** A skill as [parseSkillMd] makes it: with a name and a description,
    and internal only if internal skills were asked for. *)
Definition described (options : option DiscoverSkillsOptions.t)
    (skill : Skill.t) : Prop :=
  Skill.name skill ≠ [] ∧ Skill.description skill ≠ []
  ∧ (Skill.internal skill = true →
     shouldInstallInternalSkills = true
     ∨ options ≫= DiscoverSkillsOptions.includeInternal = Some true).

(** The skill lies in [dir] or below it. *)
Definition under (dir : jsstring) (skill : Skill.t) : Prop :=
  key dir `prefix_of` key (Skill.path skill).

Lemma streq_false_ne a b : streq a b = false → a ≠ b.
Proof. intros E ->. by rewrite streq_refl in E. Qed.

Lemma SKILL_md_goodSeg : goodSeg (js "SKILL.md").
Proof. by apply validName_goodSeg. Qed.

Lemma always_parseSkillMd_described dir options :
  always (λ r, ∀ sk, r = Some sk →
                     described options sk ∧ key (Skill.path sk) = key dir)
    (parseSkillMd (join [dir; js "SKILL.md"]) options).
Proof.
  apply always_try_catch; [|intros e; by apply always_ret].
  eapply partial_bind; [apply partial_readFile|]. intros c _.
  destruct (matter c) as [data|]; [|apply partial_throw].
  cbv zeta.
  destruct (streq (FrontMatter.name data) []
            || streq (FrontMatter.description data) []) eqn:E;
    [by apply partial_ret|].
  apply orb_false_iff in E as [En Ed].
  apply streq_false_ne in En, Ed.
  destruct (FrontMatter.internal data && negb shouldInstallInternalSkills
            && negb (default false
                       (options ≫= DiscoverSkillsOptions.includeInternal)))
    eqn:Ei; [by apply partial_ret|].
  apply partial_ret. intros sk [= <-]. split.
  - split; [done|]. split; [done|]. simpl. intros Hint.
    rewrite Hint in Ei. simpl in Ei.
    apply andb_false_iff in Ei as [Ei|Ei]; apply negb_false_iff in Ei.
    + by left.
    + right. by destruct (options ≫= DiscoverSkillsOptions.includeInternal)
        as [[]|].
  - simpl. apply key_dirname_join, SKILL_md_goodSeg.
Qed.

Definition found (options : option DiscoverSkillsOptions.t)
    (searchPath : jsstring) (skills : list Skill.t) : Prop :=
  Forall (λ sk, described options sk ∧ under searchPath sk) skills.

Lemma keepFirst_found options searchPath dir skill st :
  key searchPath `prefix_of` key dir →
  (∀ sk, skill = Some sk →
         described options sk ∧ key (Skill.path sk) = key dir) →
  found options searchPath st.1 →
  found options searchPath (keepFirst skill st).1.
Proof.
  intros Hdir Hsk Hst.
  destruct (keepFirst_cases skill st) as [(sk & -> & _ & ->) | ->]; [|done].
  apply Forall_app. split; [done|]. constructor; [|constructor].
  destruct (Hsk sk eq_refl) as [Hd Hk]. split; [done|].
  unfold under. by rewrite Hk.
Qed.

Lemma always_visitEntry_found options searchPath dir entry st :
  key searchPath `prefix_of` key dir → goodSeg (name entry) →
  found options searchPath st.1 →
  always (λ st', found options searchPath st'.1)
    (visitEntry options dir entry st).
Proof.
  intros Hdir Hname Hst. unfold visitEntry.
  destruct (isDirectory (dtype entry)); [|by apply always_ret].
  eapply always_bind; [apply always_hasSkillMd|]. intros [] _.
  - eapply always_bind; [apply always_parseSkillMd_described|].
    intros skill Hskill. apply always_ret.
    eapply keepFirst_found; [|exact Hskill|done].
    rewrite key_join by done. by apply prefix_app_r.
  - by apply always_ret.
Qed.

Lemma partial_loopInTry_names {S} (I : S → Prop) body p s :
  (∀ entry s, goodSeg (name entry) → I s → partial I (body entry s)) →
  I s →
  partial I (entries <- readdir p ;; loopInTry entries body s).
Proof.
  intros Hbody Hs.
  eapply partial_bind; [apply partial_readdir_names|].
  intros entries Hnames. apply always_partial.
  revert s Hs. induction Hnames as [|entry entries Hn _ IH]; intros s Hs w.
  - by exists s.
  - simpl. pose proof (Hbody entry s Hn Hs w) as Hb.
    destruct (body entry s w) as [w' [s'| |]]; simpl in *;
      [by apply IH | by exists s | done].
Qed.

Lemma prioritySearchDirs_under searchPath dir :
  dir ∈ prioritySearchDirs searchPath →
  key searchPath `prefix_of` key dir.
Proof.
  unfold prioritySearchDirs. intros [-> | Hin]%elem_of_cons; [done|].
  apply list_elem_of_fmap in Hin as (d & -> & Hd).
  rewrite key_join_rel; [by apply prefix_app_r|].
  repeat (apply elem_of_cons in Hd as [-> | Hd]; [vm_compute; reflexivity|]).
  by apply elem_of_nil in Hd.
Qed.

Lemma always_searchDirs_found options searchPath dirs st :
  (∀ dir, dir ∈ dirs → key searchPath `prefix_of` key dir) →
  found options searchPath st.1 →
  always (λ st', found options searchPath st'.1)
    (searchDirs options dirs st).
Proof.
  revert st; induction dirs as [|dir dirs IH]; intros st Hdirs Hst; simpl.
  - by apply always_ret.
  - apply (always_bind (λ st', found options searchPath st'.1)).
    + apply always_try_catch; [|intros e; by apply always_ret].
      apply (partial_loopInTry_names (λ st', found options searchPath st'.1));
        [|done].
      intros entry s Hn Hs. apply always_partial.
      apply always_visitEntry_found; [|done|done].
      apply Hdirs. by left.
    + intros st' Hst'. apply IH; [|done].
      intros d Hd. apply Hdirs. by right.
Qed.

(** The directories that [findSkillDirs] reaches from [dir]: fewer than
    [levels] names down, none of them one of [SKIP_DIRS]. *)
Definition reached (levels : nat) (dir p : jsstring) : Prop :=
  ∃ names, key p = key dir ++ names ∧ (length names < levels)%nat
           ∧ Forall (λ n, has SKIP_DIRS n = false) names.

Lemma reached_entry levels dir n p :
  goodSeg n → has SKIP_DIRS n = false →
  reached levels (join [dir; n]) p → reached (S levels) dir p.
Proof.
  intros Hn Hskip (names & Hk & Hlen & Hall). exists (n :: names).
  rewrite key_join in Hk by done. rewrite <- app_assoc in Hk.
  split; [done|]. split; [simpl; lia | by constructor].
Qed.

Lemma always_findSkillDirsFrom_reached levels dir :
  always (Forall (reached levels dir)) (findSkillDirsFrom levels dir).
Proof.
  revert dir; induction levels as [|levels IH]; intros dir; cbn [findSkillDirsFrom].
  - by apply always_ret.
  - apply always_try_catch; [|intros e; by apply always_ret].
    eapply partial_bind; [apply always_partial, always_hasSkillMd|].
    intros hasSkill _.
    apply (partial_bind (Forall (λ e, goodSeg (name e)))).
    { apply partial_try_catch; [apply partial_readdir_names|].
      intros e. by apply partial_ret. }
    intros entries Hnames.
    apply (partial_bind
             (Forall (Forall (reached (S levels) dir)))).
    + assert (Forall (λ e, goodSeg (name e) ∧ has SKIP_DIRS (name e) = false)
                (filter (λ entry, isDirectory (dtype entry) = true
                                  ∧ has SKIP_DIRS (name entry) = false)
                   entries)) as Hf.
      { apply Forall_forall. intros e [[_ Hs] He]%list_elem_of_filter.
        rewrite Forall_forall in Hnames. split; [by apply Hnames | done]. }
      induction Hf as [|entry es [Hn Hs] _ IHes].
      * apply partial_ret. constructor.
      * eapply partial_bind; [apply always_partial, IH|]. intros r Hr.
        eapply partial_bind; [apply IHes|]. intros rs Hrs.
        apply partial_ret. constructor; [|done].
        eapply Forall_impl; [exact Hr|]. intros p.
        by apply reached_entry.
    + intros subDirResults Hsub. apply partial_ret.
      apply Forall_app. split.
      * destruct hasSkill; [|constructor]. constructor; [|constructor].
        exists []. rewrite app_nil_r. split; [done|]. split; [simpl; lia|].
        constructor.
      * by apply Forall_concat.
Qed.

(** X17: [findSkillDirs] always returns and only reads.  Every
    directory it returns is the one it was given or lies at most five
    names below it, and none of these names is [node_modules], [.git],
    [dist], [build] or [__pycache__]. *)
Theorem findSkillDirs_reach dir :
  always
    (Forall (λ p, ∃ names,
               key p = key dir ++ names ∧ (length names ≤ 5)%nat
               ∧ Forall (λ n, n ∉ SKIP_DIRS) names))
    (findSkillDirs dir)
  ∧ stable same (findSkillDirs dir).
Proof.
  split; [|apply same_findSkillDirsFrom].
  eapply always_mono; [|apply always_findSkillDirsFrom_reached].
  intros dirs Hdirs. eapply Forall_impl; [exact Hdirs|].
  intros p (names & Hk & Hlen & Hall). exists names.
  split; [done|]. split; [lia|].
  eapply Forall_impl; [exact Hall|]. intros n Hn Hin.
  unfold has in Hn. apply not_true_iff_false in Hn. apply Hn.
  apply existsb_exists. exists n.
  split; [by apply list_elem_of_In | apply streq_refl].
Qed.

(** X18: [discoverSkills] always returns and only reads.  Every skill
    it returns has a name and a description, is internal only if
    internal skills were asked for, by the environment or by the
    option, and lies in the search path or below it. *)
Theorem discoverSkills_described basePath subpath options :
  let searchPath :=
    match subpath with
    | Some (c :: r) => join [basePath; c :: r]
    | _ => basePath
    end in
  always (Forall (λ sk, described options sk ∧ under searchPath sk))
    (discoverSkills basePath subpath options)
  ∧ stable same (discoverSkills basePath subpath options).
Proof.
  intros searchPath. split; [|apply same_discoverSkills].
  unfold discoverSkills. fold searchPath. cbv zeta.
  eapply always_bind; [apply always_hasSkillMd|]. intros direct _.
  apply (always_bind
           (λ r, ∀ sk, r = Some sk →
                   described options sk
                   ∧ key (Skill.path sk) = key searchPath)).
  { destruct direct; [apply always_parseSkillMd_described|].
    by apply always_ret. }
  intros [skill|] Hearly.
  - apply always_ret. constructor; [|constructor].
    destruct (Hearly skill eq_refl) as [Hd Hk]. split; [done|].
    unfold under. by rewrite Hk.
  - eapply always_bind.
    { apply (always_searchDirs_found options searchPath);
        [apply prioritySearchDirs_under | constructor]. }
    intros st Hst. case_bool_decide as Hlen; [|by apply always_ret].
    clear Hlen.
    eapply always_bind; [apply always_findSkillDirsFrom_reached|].
    intros allSkillDirs Hall.
    apply (always_bind (λ st', found options searchPath st'.1));
      [|intros st' Hst'; by apply always_ret].
    revert st Hst.
    induction Hall as [|skillDir dirs (names & Hk & _) _ IH]; intros st Hst.
    + by apply always_ret.
    + cbn [foldLoop].
      apply (always_bind (λ st', found options searchPath st'.1));
        [|intros st' Hst'; by apply IH].
      eapply always_bind; [apply always_parseSkillMd_described|].
      intros skill Hskill. apply always_ret.
      eapply keepFirst_found; [|exact Hskill|done].
      rewrite Hk. by apply prefix_app_r.
Qed.

End Described.

(** ** What the listing returns *)

Section Listed.
Context `{Host}.

Definition scopeOf (isGlobal : bool) : Scope :=
  if isGlobal then global else project.

(** An item of the listing: a described skill in a directory of the
    store of its scope, with agents among those that were asked. *)
Definition listed (options : ListOptions.t) (item : InstalledSkill.t)
  : Prop :=
  InstalledSkill.name item ≠ [] ∧ InstalledSkill.description item ≠ []
  ∧ InstalledSkill.canonicalPath item = InstalledSkill.path item
  ∧ (∃ isGlobal entryName,
       InstalledSkill.scope item = scopeOf isGlobal
       ∧ (∀ g, ListOptions.global options = Some g → isGlobal = g)
       ∧ goodSeg entryName
       ∧ InstalledSkill.path item
         = join [getCanonicalSkillsDir isGlobal
                   (Some (orString (ListOptions.cwd options) process_cwd));
                 entryName])
  ∧ sublist (InstalledSkill.agents item)
      (default agentKeys (ListOptions.agentFilter options)).

Lemma partial_pushFound (xs : list AgentType) (check : AgentType → M bool)
    init :
  (∀ a, partial (λ _, True) (check a)) →
  partial (λ r, ∃ l, r = init ++ l ∧ sublist l xs)
    (foldLoop xs
       (λ agentType installedAgents,
          found <- check agentType ;;
          ret (if (found : bool) then installedAgents ++ [agentType]
               else installedAgents))
       init).
Proof.
  intros Hcheck. revert init; induction xs as [|a xs IH]; intros init.
  - apply partial_ret. exists []. by rewrite app_nil_r.
  - cbn [foldLoop].
    apply (partial_bind (λ r, r = init ++ [a] ∨ r = init)).
    + eapply partial_bind; [apply Hcheck|]. intros found _.
      apply partial_ret. destruct found; auto.
    + intros r Hr. eapply partial_mono; [|apply IH].
      intros r' (l & -> & Hl). destruct Hr as [-> | ->].
      * exists (a :: l). rewrite <- app_assoc. split; [done|].
        by apply sublist_skip.
      * exists l. split; [done|]. by apply sublist_cons.
Qed.

(** X19: [listInstalledSkills] always returns and only reads.  Every
    item has a name and a description and one path, an entry of the
    store of its scope; the scope is the one that was asked for, if
    one was; and its agents are among the agents of the filter, or
    among all agents without a filter, in their order. *)
Theorem listInstalledSkills_listed options :
  always (Forall (listed options)) (listInstalledSkills options)
  ∧ stable same (listInstalledSkills options).
Proof.
  split; [|apply same_listInstalledSkills].
  unfold listInstalledSkills. cbv zeta.
  set (cwd := orString (ListOptions.cwd options) process_cwd).
  set (scopes := match ListOptions.global options with
                 | Some g => _ | None => _ end).
  assert (Forall (λ scope : bool * jsstring,
                    scope.2 = getCanonicalSkillsDir scope.1 (Some cwd)
                    ∧ ∀ g, ListOptions.global options = Some g → scope.1 = g)
            scopes) as Hscopes.
  { subst scopes. destruct (ListOptions.global options) as [g|].
    - repeat constructor. simpl. by intros g' [= ->].
    - repeat constructor; done. }
  match goal with
  | |- always _ (foldLoop _ ?body _) =>
      assert (∀ installed, Forall (listed options) installed →
                always (Forall (listed options))
                  (foldLoop scopes body installed)) as Hloop
  end.
  2:{ apply Hloop. constructor. }
  induction Hscopes as [|[isGlobal scopePath] scopes [Hpath Hg] _ IH];
    intros installed Hinstalled.
  { by apply always_ret. }
  simpl in Hpath, Hg. subst scopePath. cbn [foldLoop].
  apply (always_bind (Forall (listed options))); [|apply IH].
  apply always_try_catch; [|intros e; by apply always_ret].
  cbn [fst snd].
  apply (partial_loopInTry_names (Forall (listed options))); [|done].
  intros entry items Hn Hitems.
  destruct (negb (isDirectory (dtype entry))); [by apply partial_ret|].
  apply partial_seq.
  { apply partial_try_catch; [|intros ?; by apply partial_ret].
    apply partial_seq; [apply partial_stat | intros _; by apply partial_ret]. }
  intros present. destruct (negb present); [by apply partial_ret|].
  eapply partial_bind;
    [apply always_partial, always_parseSkillMd_described|].
  intros [skill|] Hskill; [|by apply partial_ret].
  destruct (Hskill skill eq_refl) as [(Hname & Hdesc & _) _].
  eapply partial_bind.
  { apply (partial_pushFound _
             (λ agentType, isInstalledFor isGlobal cwd (name entry) skill
                             agentType) []).
    intros a. apply partial_isInstalledFor. }
  intros installedAgents (l & -> & Hl). apply partial_ret.
  apply Forall_app. split; [done|]. constructor; [|constructor].
  split; [done|]. split; [done|]. split; [done|]. split; [|done].
  exists isGlobal, (name entry).
  split; [done|]. split; [done|]. split; done.
Qed.

End Listed.

(** ** Relative paths *)

Section Relative.
Context `{Host}.

(** The segments that [normalizeString] reads: the empty ones are
    skipped. *)
Definition segsOf (s : jsstring) : list jsstring :=
  filter (λ x, x ≠ []) (split s).

Lemma normSegs_filter a acc l :
  normSegs a acc (filter (λ x, x ≠ []) l) = normSegs a acc l.
Proof.
  revert acc; induction l as [|x l IH]; intros acc; [done|].
  destruct x as [|c x].
  - rewrite filter_cons_False by (intros ?; done). rewrite IH. done.
  - rewrite filter_cons_True by done. cbn [normSegs].
    destruct (streq (c :: x) [] || streq (c :: x) [dot]); [apply IH|].
    destruct (streq (c :: x) dotdot); [|apply IH].
    destruct acc as [|top acc]; [apply IH|].
    destruct (streq top dotdot); apply IH.
Qed.

Lemma normalizeString_segsOf s a :
  normalizeString s a = joinSlash (normSegs a [] (segsOf s)).
Proof. unfold normalizeString, segsOf. by rewrite normSegs_filter. Qed.

Lemma segsOf_app_slash x y : segsOf (x ++ slash :: y) = segsOf x ++ segsOf y.
Proof. unfold segsOf. by rewrite split_app_slash, filter_app. Qed.

Lemma segsOf_cons_slash_app x : segsOf (slash :: x) = segsOf x.
Proof. done. Qed.

Lemma segsOf_nil : segsOf [] = [].
Proof. done. Qed.

Lemma key_segsOf path :
  key path
  = normSegs false []
      ((if isAbsolute path then [] else segsOf process_cwd) ++ segsOf path).
Proof.
  rewrite key_rawSegs. unfold rawSegs, segsOf.
  rewrite <- normSegs_filter, filter_app.
  by destruct (isAbsolute path).
Qed.

(** [resolve(a, b)] for a relative [b]: the segments of [b] are read
    after those of the resolved [a]. *)
Lemma resolve_pair a b :
  isAbsolute b = false →
  resolve [a; b] = render (normSegs false (reverse (key a)) (split b)).
Proof.
  intros Hb. rewrite key_segsOf.
  rewrite <- (normSegs_filter _ _ (split b)). fold (segsOf b).
  rewrite <- normSegs_app.
  pose proof process_cwd_absolute as Hc.
  destruct process_cwd as [|c0 cw] eqn:Ecwd; [done|].
  simpl in Hc. injection Hc as ->.
  unfold resolve, render. rewrite Ecwd.
  change (reverse [47 :: cw; a; b]) with [b; a; slash :: cw].
  assert (∀ acc, resolveFrom [slash :: cw] acc
                 = ((slash :: cw) ++ slash :: acc, true)) as Hcwd by done.
  assert (∀ x y z : jsstring,
            segsOf ((slash :: x) ++ slash :: y ++ slash :: z)
            = segsOf x ++ segsOf y ++ segsOf z) as H3.
  { intros x y z. rewrite segsOf_app_slash, segsOf_app_slash. done. }
  assert (∀ x y : jsstring,
            segsOf ((slash :: x) ++ slash :: y) = segsOf x ++ segsOf y) as H2.
  { intros x y. by rewrite segsOf_app_slash. }
  change (segsOf (47 :: cw)) with (segsOf cw).
  destruct b as [|b0 b]; [|simpl in Hb]; destruct a as [|a0 a].
  - cbn [resolveFrom isAbsolute]. change (slash =? slash) with true.
    cbv iota beta zeta. simpl negb.
    rewrite normalizeString_segsOf, H2.
    by rewrite !segsOf_nil, !app_nil_r.
  - cbn [resolveFrom isAbsolute]. change (slash =? slash) with true.
    destruct (a0 =? slash) eqn:Ea; cbv iota beta zeta; simpl negb.
    + apply N.eqb_eq in Ea as ->.
      rewrite normalizeString_segsOf, H2.
      change (segsOf (slash :: a)) with (segsOf a).
      by rewrite segsOf_nil, !app_nil_r.
    + rewrite normalizeString_segsOf.
      change [slash] with (slash :: ([] : jsstring)). rewrite H3.
      by rewrite segsOf_nil, !app_nil_r.
  - cbn [resolveFrom isAbsolute]. rewrite Hb.
    change (slash =? slash) with true. cbv iota beta zeta. simpl negb.
    rewrite normalizeString_segsOf.
    change [slash] with (slash :: ([] : jsstring)). rewrite H3.
    by rewrite !segsOf_nil, !app_nil_r.
  - cbn [resolveFrom isAbsolute]. rewrite Hb.
    change (slash =? slash) with true.
    destruct (a0 =? slash) eqn:Ea; cbv iota beta zeta; simpl negb.
    + apply N.eqb_eq in Ea as ->.
      rewrite normalizeString_segsOf.
      change [slash] with (slash :: ([] : jsstring)). rewrite H3.
      change (segsOf (slash :: a)) with (segsOf a).
      by rewrite segsOf_nil, !app_nil_r.
    + rewrite normalizeString_segsOf.
      change [slash] with (slash :: ([] : jsstring)).
      rewrite H2, segsOf_app_slash, segsOf_app_slash.
      by rewrite segsOf_nil, !app_nil_r, <- !app_assoc.
Qed.






Lemma commonPrefix_take f t :
  take (commonPrefix f t) f = take (commonPrefix f t) t
  ∧ (commonPrefix f t ≤ length f)%nat ∧ (commonPrefix f t ≤ length t)%nat.
Proof.
  revert t; induction f as [|x f IH]; intros [|y t]; simpl;
    try (repeat split; lia || done).
  destruct (streq x y) eqn:E; [|repeat split; lia || done].
  apply streq_spec in E as ->. destruct (IH t) as (E & ? & ?).
  simpl. rewrite E. repeat split; lia || done.
Qed.

Lemma normSegs_dotdots acc k rest :
  Forall goodSeg acc →
  normSegs false acc (replicate k dotdot ++ rest)
  = normSegs false (drop k acc) rest.
Proof.
  revert acc; induction k as [|k IH]; intros acc Hacc; [by rewrite drop_0|].
  cbn [replicate app normSegs].
  change (streq dotdot [] || streq dotdot [dot]) with false.
  change (streq dotdot dotdot) with true. cbv iota.
  destruct acc as [|top acc].
  - rewrite IH by done. by rewrite !drop_nil.
  - inversion Hacc as [|? ? (_ & _ & Htop & _) Hacc']; subst.
    rewrite streq_false by done. by rewrite IH.
Qed.

Lemma dotdot_named : dotdot ≠ [] ∧ slash ∉ dotdot.
Proof.
  split; [done|]. intros Hd.
  repeat (apply elem_of_cons in Hd as [Hd|Hd]; [done|]).
  by apply elem_of_nil in Hd.
Qed.

(** [relative(from, to)] leads from [from] to [to]. *)
Lemma resolve_relative from to :
  resolve [from; relative from to] = resolve [to].
Proof.
  unfold relative. cbv zeta.
  set (f := key from). set (t := key to). set (n := commonPrefix f t).
  destruct (commonPrefix_take f t) as (Etake & Hnf & Hnt). fold n in Etake, Hnf, Hnt.
  pose proof (key_good from) as Hf. pose proof (key_good to) as Ht.
  fold f in Hf. fold t in Ht.
  set (L := replicate (length f - n) dotdot ++ drop n t).
  assert (Forall (λ x : jsstring, x ≠ [] ∧ slash ∉ x) L) as HL.
  { apply Forall_app. split.
    - apply Forall_replicate, dotdot_named.
    - apply Forall_drop. eapply Forall_impl; [exact Ht|].
      by intros x (? & _ & _ & ?). }
  assert (normSegs false (reverse f) L = t) as Hnorm.
  { unfold L. rewrite normSegs_dotdots by by apply Forall_reverse.
    rewrite normSegs_good by by apply Forall_drop.
    rewrite <- reverse_take, reverse_involutive.
    replace (length f - (length f - n))%nat with n by lia.
    by rewrite Etake, take_drop. }
  destruct (resolve_key to) as [_ ->]. fold t.
  destruct L as [|l0 L'] eqn:EL.
  - simpl joinSlash. rewrite resolve_pair by done. fold f.
    change (split []) with [([] : jsstring)]. rewrite normSegs_empty.
    simpl in Hnorm. simpl. by rewrite Hnorm.
  - rewrite <- EL in *. rewrite resolve_pair.
    + fold f. rewrite split_joinSlash; [by rewrite Hnorm| by rewrite EL |].
      eapply Forall_impl; [exact HL|]. by intros x [_ ?].
    + apply joinSlash_head; [by rewrite EL | done].
Qed.

End Relative.

(** ** The link of an agent *)

Section Links.
Context `{Host}.

Lemma readlink_run p w w' t :
  readlink p w = (w', Ok t) →
  files w' = files w ∧ nodeAt (files w) (key p) = Some (Symlink t).
Proof.
  unfold readlink. intros (w1 & [] & Hf & Hrun)%bind_Ok.
  apply fault_run in Hf as (Hf & _ & _).
  apply bind_Ok in Hrun as (w2 & m & Hg & Hrun).
  injection Hg as <- <-. rewrite Hf in Hrun.
  destruct (nodeAt (files w) (key p)) as [[c| |t']|]; try done.
  injection Hrun as <- <-. done.
Qed.

Lemma symlink_run target p ty w w' :
  symlink target p ty w = (w', Ok tt) →
  files w' = <[key p := Symlink target]> (files w)
  ∧ target ≠ [] ∧ nodeAt (files w) (key p) = None.
Proof.
  unfold symlink. intros (w1 & [] & Hf & Hrun)%bind_Ok.
  apply fault_run in Hf as (Hf & _ & _).
  destruct (tooLong p); [done|].
  apply update_run in Hrun as [Hrun _]. rewrite Hf in Hrun.
  destruct target as [|c target]; [done|].
  destruct (nodeAt (files w) (key p)) as [n|]; [done|].
  destruct (nodeAt (files w) (parentKey (key p))) as [[c'| |t']|]; try done.
  by injection Hrun as <-.
Qed.

Lemma nodeAt_Symlink m k t : nodeAt m k = Some (Symlink t) → m !! k = Some (Symlink t).
Proof. by destruct k. Qed.

(** The inner [try] of [createSymlink] says [true] only for a link
    that is there and leads to the target. *)
Lemma existingLink_run linkPath resolvedTarget w w' :
  try_catch
    (stats <- lstat linkPath ;;
     if isSymbolicLink stats then
       existingTarget <- readlink linkPath ;;
       if streq (resolveSymlinkTarget linkPath existingTarget) resolvedTarget
       then ret true
       else rm linkPath false false ;; ret false
     else rm linkPath true false ;; ret false)
    (λ e, (if isELOOP e
           then try_catch (rm linkPath false true) (λ _, ret tt)
           else ret tt) ;;
          ret false) w
  = (w', Ok true) →
  files w' = files w
  ∧ ∃ t, files w !! key linkPath = Some (Symlink t)
         ∧ resolveSymlinkTarget linkPath t = resolvedTarget.
Proof.
  unfold try_catch.
  destruct (bind (lstat linkPath) _ w) as [w1 [b|e|]] eqn:E; [| |done].
  - intros [= <- ->].
    apply bind_Ok in E as (w2 & stats & Hl & E).
    apply lstat_run in Hl as [Hl _].
    destruct (isSymbolicLink stats).
    + apply bind_Ok in E as (w3 & t & Hr & E).
      apply readlink_run in Hr as [Hr Hn].
      destruct (streq _ _) eqn:Es.
      * injection E as <-. split; [congruence|].
        exists t. rewrite <- Hl. split; [by apply nodeAt_Symlink|].
        by apply streq_spec.
      * by apply bind_Ok in E as (w4 & [] & _ & [=]).
    + by apply bind_Ok in E as (w4 & [] & _ & [=]).
  - by intros (w2 & [] & _ & [=])%bind_Ok.
Qed.

Lemma createSymlink_true target linkPath w w' :
  createSymlink target linkPath w = (w', Ok true) →
  (resolve [target] = resolve [linkPath] ∧ w' = w)
  ∨ (resolve [target] ≠ resolve [linkPath]
     ∧ ∃ t, files w' !! key linkPath = Some (Symlink t)
            ∧ resolveSymlinkTarget linkPath t = resolve [target]).
Proof.
  unfold createSymlink, try_catch at 1. cbv zeta.
  destruct (streq (resolve [target]) (resolve [linkPath])) eqn:Es.
  { intros [= <-]. left. split; [by apply streq_spec | done]. }
  apply streq_false_ne in Es.
  match goal with
  | |- context [bind ?inner _ w] =>
      destruct (inner w) as [w1 r1] eqn:Einner
  end.
  rewrite bind_run, Einner.
  destruct r1 as [[]|e|]; [| |intros [= _ ?]; done|done].
  - intros [= <-]. right. split; [done|].
    apply existingLink_run in Einner as (Hf & t & Ht & Hr).
    exists t. by rewrite Hf.
  - destruct (bind (mkdir (dirname linkPath)) _ w1) as [w2 [b|e|]] eqn:E;
      [|intros [= _ ?]; done|done].
    intros [= <- _]. right. split; [done|].
    apply bind_Ok in E as (w3 & [] & _ & E).
    apply bind_Ok in E as (w4 & [] & Hs & [= <- _]).
    apply symlink_run in Hs as (Hs & _ & _).
    exists (relative (dirname linkPath) target).
    rewrite Hs, lookup_insert_eq. split; [done|].
    apply resolve_relative.
Qed.

(** X20: [createSymlink] never throws, and it says [true] in two cases
    only: the target and the link are the same path, and nothing was
    touched; or there is a link at the link path, the one that was
    there or a new one, and its text leads from the directory of the
    link to the target. *)
Theorem createSymlink_links target linkPath :
  always (λ _, True) (createSymlink target linkPath)
  ∧ ∀ w w',
      createSymlink target linkPath w = (w', Ok true) →
      (resolve [target] = resolve [linkPath] ∧ w' = w)
      ∨ (resolve [target] ≠ resolve [linkPath]
         ∧ ∃ t, files w' !! key linkPath = Some (Symlink t)
                ∧ resolveSymlinkTarget linkPath t = resolve [target]).
Proof.
  split; [apply always_createSymlink|]. intros w w'.
  apply createSymlink_true.
Qed.

End Links.

(** ** Where an install makes its changes *)

Section Confined.
Context `{Host}.

Opaque MAXSYMLINKS.

(** The path that a call changes. *)
Definition changed (op : Op) : jsstring :=
  match op with
  | OpMkdir path | OpRm path | OpSymlink _ path | OpWriteFile path _
  | OpCopyFile _ path => path
  end.

(** The calls made from [w] to [w'] change paths in [P] only. *)
Definition touches (P : list jsstring → Prop) (w w' : World) : Prop :=
  ∃ ops, journal w' = journal w ++ ops
         ∧ Forall (λ op, P (key (changed op))) ops.

Global Instance touches_preorder P : PreOrder (touches P).
Proof.
  split.
  - intros w. exists []. by rewrite app_nil_r.
  - intros w1 w2 w3 (ops1 & E1 & H1) (ops2 & E2 & H2).
    exists (ops1 ++ ops2). rewrite E2, E1, <- app_assoc.
    split; [done | by apply Forall_app].
Qed.

Lemma touches_mono (P Q : list jsstring → Prop) w w' :
  (∀ k, P k → Q k) → touches P w w' → touches Q w w'.
Proof.
  intros HPQ (ops & E & Hops). exists ops. split; [done|].
  eapply Forall_impl; [exact Hops|]. intros op. apply HPQ.
Qed.

Lemma same_touches P w w' : same w w' → touches P w w'.
Proof. intros [_ E]. exists []. by rewrite app_nil_r. Qed.

Lemma touches_reads {A} P (m : M A) : stable same m → stable (touches P) m.
Proof. apply stable_weaken. intros w w'. apply same_touches. Qed.

Lemma touches_update P change op :
  P (key (changed op)) → stable (touches P) (update change op).
Proof.
  intros HP w. unfold update.
  destruct (change (files w)) as [e|m']; simpl; [reflexivity|].
  exists [op]. split; [done | by constructor].
Qed.

Local Ltac touch :=
  first
    [ apply stable_ret; apply _
    | apply stable_throw; apply _
    | apply touches_reads, same_fault
    | apply touches_reads, same_get
    | apply touches_reads, same_liftE
    | apply touches_reads, same_lstat
    | apply touches_reads, same_readlink
    | apply touches_reads, same_readdir
    | apply stable_bind; [apply _ | | intros ?]
    | apply stable_try_catch; [apply _ | | intros ?] ].

Lemma stable_ret_bind {A B} (R : World → World → Prop) (a : A)
    (k : A → M B) :
  stable R (k a) → stable R (bind (ret a) k).
Proof. intros Hk w. apply Hk. Qed.

Lemma touches_mkdir P p : P (key p) → stable (touches P) (mkdir p).
Proof.
  intros HP. unfold mkdir. touch; [touch|].
  destruct (tooLong p); [touch | by apply touches_update].
Qed.

Lemma touches_rm P p recursive force :
  P (key p) → stable (touches P) (rm p recursive force).
Proof.
  intros HP. unfold rm. touch; [touch|]. touch; [touch|].
  repeat case_match; try touch; by apply touches_update.
Qed.

Lemma touches_symlink P t p ty : P (key p) → stable (touches P) (symlink t p ty).
Proof.
  intros HP. unfold symlink. touch; [touch|].
  destruct (tooLong p); [touch | by apply touches_update].
Qed.

Lemma touches_writeFile P p c : P (key p) → stable (touches P) (writeFile p c).
Proof.
  intros HP. unfold writeFile. touch; [touch|].
  destruct (tooLong p); [touch | by apply touches_update].
Qed.

(** At [D] or below it. *)
Definition inside (D : list jsstring) (k : list jsstring) : Prop :=
  D `prefix_of` k.

Lemma inside_child D n k : inside (D ++ [n]) k → inside D k.
Proof. intros Hk. etrans; [|exact Hk]. by exists [n]. Qed.

Lemma touches_cpNode fuel src dest :
  stable (touches (inside (key dest))) (cpNode fuel src dest).
Proof.
  revert src dest; induction fuel as [|fuel IH]; intros src dest; simpl.
  - apply stable_diverge; apply _.
  - apply stable_bind; [apply _ | apply touches_reads, same_fault |].
    intros _. apply stable_bind; [apply _ | apply touches_reads, same_get |].
    intros m. apply stable_bind; [apply _ | apply touches_reads, same_liftE |].
    intros s. apply stable_bind; [apply _ | |].
    { repeat case_match; (apply stable_ret || apply stable_throw); apply _. }
    intros d. destruct (tooLong dest); [apply stable_throw; apply _|].
    apply stable_bind; [apply _ | |].
    { repeat case_match; (apply stable_ret || apply stable_throw); apply _. }
    intros _.
    assert (stable (touches (inside (key dest)))
              (forEach (children m (key s.1))
                 (λ e, cpNode fuel (join [s.1; e.1]) (join [dest; e.1]))))
      as Hrec.
    { apply stable_forEach; [apply _|]. intros e He.
      eapply stable_weaken; [|apply IH].
      intros w w'. apply touches_mono. intros k.
      rewrite key_join by (by eapply children_valid). apply inside_child. }
    assert (inside (key dest) (key dest)) as Hd by done.
    destruct s as [sp [c| |t]]; simpl.
    + destruct d as [[dp [c'| |t']]|];
        try (apply stable_throw; apply _); by apply touches_update.
    + destruct d as [[dp [c'| |t']]|]; try (apply stable_throw; apply _).
      * case_bool_decide; [apply stable_throw; apply _|].
        apply stable_bind; [apply _ | apply stable_ret; apply _ | done].
      * case_bool_decide; [apply stable_throw; apply _|].
        apply stable_bind; [apply _ | | done].
        by apply touches_update.
    + apply stable_throw; apply _.
Qed.

Lemma touches_copyDirectory fuel src dest :
  stable (touches (inside (key dest))) (copyDirectory fuel src dest).
Proof.
  revert src dest; induction fuel as [|fuel IH]; intros src dest; simpl.
  - apply stable_diverge; apply _.
  - apply stable_bind; [apply _ | by apply touches_mkdir |]. intros _.
    eapply stable_bind_partial;
      [apply _ | apply touches_reads, same_readdir
      | apply partial_readdir_names |].
    intros entries Hnames. apply stable_forEach; [apply _|].
    intros entry [_ He]%list_elem_of_filter.
    assert (goodSeg (name entry)) as Hgood
      by (by eapply Forall_forall in Hnames).
    destruct (isDirectory (dtype entry)).
    + eapply stable_weaken; [|apply IH]. intros w w'.
      apply touches_mono. intros k. rewrite key_join by done.
      apply inside_child.
    + eapply stable_weaken; [|apply touches_cpNode]. intros w w'.
      apply touches_mono. intros k. rewrite key_join by done.
      apply inside_child.
Qed.

Local Ltac touch2 :=
  first
    [ by apply touches_rm
    | by apply touches_mkdir
    | by apply touches_symlink
    | by apply touches_writeFile
    | apply stable_ret; apply _
    | apply stable_throw; apply _
    | apply touches_reads, same_lstat
    | apply touches_reads, same_readlink
    | apply stable_bind; [apply _ | | intros ?]
    | apply stable_try_catch; [apply _ | | intros ?] ].

Lemma touches_ensureDirectory P p :
  P (key p) → stable (touches P) (ensureDirectory p).
Proof.
  intros HP. unfold ensureDirectory. touch2; [|touch2].
  touch2.
  - touch2; [touch2|]. destruct (isSymbolicLink _); touch2.
  - destruct (negb _); [|touch2]. destruct (isELOOP _); touch2.
Qed.

Lemma touches_createSymlink P target linkPath :
  P (key linkPath) → P (key (dirname linkPath)) →
  stable (touches P) (createSymlink target linkPath).
Proof.
  intros HP Hdir. unfold createSymlink. cbv zeta.
  touch2; [|touch2]. destruct (streq _ _); [touch2|].
  touch2.
  - touch2.
    + touch2; [touch2|]. destruct (isSymbolicLink _).
      * touch2; [touch2|]. destruct (streq _ _); [touch2|].
        touch2; touch2.
      * touch2; touch2.
    + touch2; [|touch2]. destruct (isELOOP _); [|touch2].
      touch2; touch2.
  - destruct a; [touch2|]. touch2; [touch2|]. touch2; touch2.
Qed.

(** The paths that an install for one skill may change: its canonical
    directory and its directory for the agent, what lies below them,
    and the directory of the agent itself. *)
Definition ownPaths (canonicalDir agentBase agentDir : jsstring)
    (k : list jsstring) : Prop :=
  inside (key canonicalDir) k ∨ inside (key agentDir) k ∨ k = key agentBase.

(** X21: every call by which [installSkillForAgent] changes the file
    system, be it [mkdir], [rm], [symlink] or [cp], is given a path
    in the canonical directory of the skill or in its directory for
    the agent; the one exception is the [mkdir] of the directory of
    the agent itself, the parent of the link.  This holds whatever
    the outcome of the install. *)
Theorem installSkillForAgent_confined
    fuel skill agentType options agentBase :
  agentBaseOf agentType options = Some agentBase →
  let canonicalDir := join [canonicalBaseOf options; skillNameOf skill] in
  let agentDir := join [agentBase; skillNameOf skill] in
  stable (touches (ownPaths canonicalDir agentBase agentDir))
    (installSkillForAgent fuel skill agentType options).
Proof.
  intros Hbase canonicalDir agentDir.
  unfold installSkillForAgent, agentBaseOf in *. cbv zeta.
  rewrite Hbase, joinArgs_defined.
  fold (skillNameOf skill). fold (canonicalBaseOf options).
  fold canonicalDir. apply stable_ret_bind. fold agentDir.
  assert (ownPaths canonicalDir agentBase agentDir (key canonicalDir))
    as Hc by (by left).
  assert (ownPaths canonicalDir agentBase agentDir (key agentDir))
    as Ha by (right; by left).
  assert (ownPaths canonicalDir agentBase agentDir (key (dirname agentDir)))
    as Hd.
  { right. right. apply key_dirname_join, sanitizeName_goodSeg. }
  assert (∀ src, stable (touches (ownPaths canonicalDir agentBase agentDir))
                   (copyDirectory fuel src canonicalDir)) as Hcc.
  { intros src. eapply stable_weaken; [|apply touches_copyDirectory].
    intros w w'. apply touches_mono. intros k. by left. }
  assert (∀ src, stable (touches (ownPaths canonicalDir agentBase agentDir))
                   (copyDirectory fuel src agentDir)) as Hca.
  { intros src. eapply stable_weaken; [|apply touches_copyDirectory].
    intros w w'. apply touches_mono. intros k. right. by left. }
  destruct (negb (isPathSafe _ _)); [touch2|].
  destruct (negb (isPathSafe _ _)); [touch2|].
  touch2; [|touch2].
  destruct (default symlink_mode (Options.mode options)).
  - touch2; [by apply touches_ensureDirectory|].
    touch2; [apply Hcc|].
    touch2; [by apply touches_createSymlink|].
    destruct (negb _); [|touch2].
    touch2.
    { touch2; touch2. }
    touch2; [touch2|].
    touch2; [apply Hca | touch2].
  - touch2; [touch2|].
    touch2; [apply Hca | touch2].
Qed.

End Confined.

(** ** Directories that stay reachable *)

Section Reachable.
Context `{Host}.


Opaque MAXSYMLINKS.

Lemma follow_more b b' m p r :
  (b ≤ b')%nat → follow b m p = inr r → follow b' m p = inr r.
Proof.
  revert b' p; induction b as [|b IH]; intros b' p Hb; [done|].
  destruct b' as [|b']; [lia|]. simpl.
  destruct (nodeAt m (key p)) as [[c| |t]|]; try done.
  apply IH. lia.
Qed.

(** Every path that led to a directory still leads to it. *)
Definition keepsReach (m m' : gmap (list jsstring) node) : Prop :=
  ∀ b p q, (b ≤ MAXSYMLINKS)%nat →
           follow b m p = inr (q, Dir) → follow b m' p = inr (q, Dir).

Global Instance keepsReach_preorder : PreOrder keepsReach.
Proof.
  split; [by intros m b p q|].
  intros m1 m2 m3 H1 H2 b p q Hb Hf. by apply H2, H1.
Qed.

(** Directories stay, and so do the links that led to one. *)
Definition keepsLinked (m m' : gmap (list jsstring) node) : Prop :=
  keepsDirs m m'
  ∧ ∀ k t q, m !! k = Some (Symlink t) →
             follow MAXSYMLINKS m (render k) = inr (q, Dir) →
             m' !! k = Some (Symlink t).

Lemma nodeAt_Dir_kept m m' k :
  keepsDirs m m' → nodeAt m k = Some Dir → nodeAt m' k = Some Dir.
Proof. intros Hd. destruct k; [done | apply Hd]. Qed.

Lemma keepsLinked_reach m m' : keepsLinked m m' → keepsReach m m'.
Proof.
  intros [Hd Hl] b. induction b as [|b IH]; intros p q Hb; [done|].
  intros Hf. pose proof Hf as Hf'. simpl in Hf |- *.
  destruct (nodeAt m (key p)) as [[c| |t]|] eqn:E; try done.
  - by rewrite (nodeAt_Dir_kept _ _ _ Hd E).
  - apply nodeAt_Symlink in E as E'.
    assert (follow MAXSYMLINKS m (render (key p)) = inr (q, Dir)) as Hmax.
    { rewrite (follow_key _ _ _ p) by apply key_render_key.
      by eapply follow_more. }
    assert (nodeAt m' (key p) = Some (Symlink t)) as ->.
    { destruct (key p); [done|]. simpl. by eapply Hl. }
    apply IH; [lia | done].
Qed.

Lemma keepsLinked_insert m k n :
  m !! k ≠ Some Dir → (∀ t, m !! k ≠ Some (Symlink t)) →
  keepsLinked m (<[k := n]> m).
Proof.
  intros Hd Hl. split.
  - intros k' E. rewrite lookup_insert_ne; [done|]. by intros ->.
  - intros k' t q E _. rewrite lookup_insert_ne; [done|].
    intros ->. by apply (Hl t).
Qed.

Lemma keepsLinked_mkdirFrom m pre rest m' :
  mkdirFrom m pre rest = inr m' → keepsLinked m m'.
Proof.
  intros Hm. pose proof (mkdirFrom_frame _ _ _ _ Hm) as Hf. split.
  - intros k E. destruct (Hf k) as [->|(E' & _)]; [done | congruence].
  - intros k t q E _. destruct (Hf k) as [->|(E' & _)]; [done | congruence].
Qed.


Lemma keepsLinked_putFile m p c m' : putFile m p c = inr m' → keepsLinked m m'.
Proof.
  intros Hp. pose proof Hp as (Hk & -> & Hd)%putFile_spec.
  apply keepsLinked_insert; [done|]. intros t E.
  unfold putFile in Hp. destruct (key p) as [|x k]; [done|].
  unfold nodeAt at 1 in Hp. rewrite E in Hp. done.
Qed.

Lemma keepsLinked_writeThrough p c m m' :
  writeThrough p c m = inr m' → keepsLinked m m'.
Proof.
  unfold writeThrough. destruct (landing _ _ _) as [e|t]; [done|].
  apply keepsLinked_putFile.
Qed.

Global Instance keepsLinked_refl : Reflexive keepsLinked.
Proof. intros m. split; [done|]. by intros k t q E _. Qed.


Lemma keepsReach_update change op :
  (∀ m m', change m = inr m' → keepsLinked m m') →
  stable (onFiles keepsReach) (update change op).
Proof.
  intros Hc. apply stable_update; [|apply _].
  intros m m' E. by apply keepsLinked_reach, Hc.
Qed.





(** *** A directory that was made *)

Lemma mkdirFrom_resolves m pre rest m' :
  mkdirFrom m pre rest = inr m' → rest ≠ [] → Forall goodSeg (pre ++ rest) →
  ∃ q, follow MAXSYMLINKS m' (render (pre ++ rest)) = inr (q, Dir).
Proof.
  revert m pre; induction rest as [|x rest IH]; intros m pre; [done|].
  intros Hrun _ Hgood. destruct rest as [|y rest].
  - simpl in Hrun.
    assert (key (render (pre ++ [x])) = pre ++ [x]) as Hk
      by by apply key_render.
    assert (pre ++ [x] ≠ []) as Hne by by destruct pre.
    destruct (m !! (pre ++ [x])) as [[c| |t]|] eqn:E; try done.
    + injection Hrun as <-. eexists. apply follow_here; [|done].
      rewrite Hk. by destruct (pre ++ [x]).
    + destruct (follow MAXSYMLINKS m (render (pre ++ [x])))
        as [e|[q [c| |t']]] eqn:Ef; try done.
      injection Hrun as <-. by exists q.
    + injection Hrun as <-. eexists. apply follow_here; [|done].
      rewrite Hk. destruct (pre ++ [x]); [done|]. simpl.
      by rewrite lookup_insert_eq.
  - cbn [mkdirFrom] in Hrun.
    replace (pre ++ x :: y :: rest) with ((pre ++ [x]) ++ y :: rest) in *
      by by rewrite <- app_assoc.
    destruct (m !! (pre ++ [x])) as [[c| |t]|]; try done;
      by eapply IH.
Qed.

Lemma mkdir_resolves p w w' :
  mkdir p w = (w', Ok tt) →
  ∃ q, follow MAXSYMLINKS (files w') p = inr (q, Dir).
Proof.
  intros (_ & _ & Hm)%mkdir_run.
  destruct (key p) as [|x k] eqn:Ek.
  - eexists. apply follow_here; [by rewrite Ek | done].
  - apply mkdirFrom_resolves in Hm as [q Hq]; [|done|].
    + exists q. rewrite <- Hq. apply follow_key.
      rewrite app_nil_l, <- Ek. by rewrite key_render_key.
    + rewrite app_nil_l, <- Ek. apply key_good.
Qed.


(** *** The link and the directory it leads to *)

(** The directories that are not at [L] or below it stay. *)
Definition keepsOutside (L : list jsstring)
    (m m' : gmap (list jsstring) node) : Prop :=
  ∀ k, ¬ L `prefix_of` k → nodeAt m k = Some Dir → nodeAt m' k = Some Dir.

Global Instance keepsOutside_preorder L : PreOrder (keepsOutside L).
Proof.
  split; [by intros m k|]. intros m1 m2 m3 H1 H2 k Hk E. by apply H2, H1.
Qed.








End Reachable.

(** ** An installed skill is found installed *)

Section RoundTrip.
Context `{Host}.

Opaque MAXSYMLINKS.



Lemma installed_when_reachable skillName agentType options agentBase w q :
  agentBaseOf agentType options = Some agentBase →
  faults w = [] →
  follow MAXSYMLINKS (files w) (join [agentBase; sanitizeName skillName])
  = inr q →
  isSkillInstalled skillName agentType options w = (w, Ok true).
Proof.
  intros Hbase Hw Hq. rewrite (isSkillInstalled_base _ _ _ agentBase) by done.
  unfold try_catch. rewrite bind_run, access_calm by done. by rewrite Hq.
Qed.


End RoundTrip.

(** ** Reading back what was written *)

Section ReadBack.
Context `{Host}.

Opaque MAXSYMLINKS.

Lemma landing_follow b m p target c m' :
  landing b m p = inr target → putFile m target c = inr m' →
  follow b m' p = inr (target, File c).
Proof.
  revert p; induction b as [|b IH]; intros p; [done|]. cbn [landing follow].
  intros Hl Hp. pose proof Hp as (Hk & -> & Hd)%putFile_spec.
  destruct (nodeAt m (key p)) as [[c'| |t]|] eqn:E.
  - injection Hl as <-. rewrite key_render_key in *.
    destruct (key p) as [|x k] eqn:Ek; [done|]. simpl.
    by rewrite lookup_insert_eq.
  - injection Hl as <-. rewrite key_render_key in *.
    destruct (key p) as [|x k] eqn:Ek; [done|]. simpl in E. done.
  - assert (nodeAt (<[key target := File c]> m) (key p)
            = Some (Symlink t)) as ->.
    { destruct (key p) as [|x k] eqn:Ek; [done|]. simpl in *.
      rewrite lookup_insert_ne; [done|]. intros Ek'.
      unfold putFile in Hp. rewrite Ek' in Hp. unfold nodeAt at 1 in Hp.
      rewrite E in Hp. done. }
    by apply IH.
  - injection Hl as <-. rewrite key_render_key in *.
    destruct (key p) as [|x k] eqn:Ek; [done|]. simpl.
    by rewrite lookup_insert_eq.
Qed.

Lemma writeFile_run p c w w' :
  writeFile p c w = (w', Ok tt) →
  writeThrough p c (files w) = inr (files w').
Proof.
  unfold writeFile. intros (w1 & [] & Hf & Hrun)%bind_Ok.
  apply fault_run in Hf as (Hf & _ & _).
  destruct (tooLong p); [done|].
  apply update_run in Hrun as [Hrun _]. by rewrite Hf in Hrun.
Qed.

(** What [writeFile] wrote is what [readFile] finds. *)
Lemma writeFile_follow p c w w' :
  writeFile p c w = (w', Ok tt) →
  ∃ q, follow MAXSYMLINKS (files w') p = inr (q, File c).
Proof.
  intros Hw%writeFile_run. unfold writeThrough in Hw.
  destruct (landing MAXSYMLINKS (files w) p) as [e|target] eqn:El; [done|].
  exists target. by eapply landing_follow.
Qed.

Lemma readFile_calm p w q c :
  faults w = [] → follow MAXSYMLINKS (files w) p = inr (q, File c) →
  readFile p w = (w, Ok c).
Proof.
  intros Hw Hf. unfold readFile, bind, fault, get. rewrite Hw. cbn.
  by rewrite Hf.
Qed.

Lemma keepsReach_writeFile p c : stable (onFiles keepsReach) (writeFile p c).
Proof.
  unfold writeFile.
  apply stable_bind; [apply _ | apply stable_same, same_fault; apply _ |].
  intros _. destruct (tooLong p); [apply stable_throw; apply _|].
  apply keepsReach_update. intros m m'. apply keepsLinked_writeThrough.
Qed.

(** X23: a remote skill that [installRemoteSkillForAgent] reports as
    installed in copy mode can be read back: once the environment
    lets the calls through, [readFile] finds the content of the skill
    in [SKILL.md] under the path of the result, and
    [isSkillInstalled] finds the skill under its install name. *)
Theorem installRemoteSkillForAgent_copy_readable
    skill agentType options agentBase w w' r :
  Options.mode options = Some copy_mode →
  agentBaseOf agentType options = Some agentBase →
  installRemoteSkillForAgent skill agentType options w = (w', Ok r) →
  InstallResult.success r = true →
  faults w' = [] →
  InstallResult.path r
  = join [agentBase; sanitizeName (RemoteSkill.installName skill)]
  ∧ readFile (join [InstallResult.path r; js "SKILL.md"]) w'
    = (w', Ok (RemoteSkill.content skill))
  ∧ isSkillInstalled (RemoteSkill.installName skill) agentType options w'
    = (w', Ok true).
Proof.
  intros Hmode Hbase Hrun Hok Hcalm. revert Hrun.
  unfold installRemoteSkillForAgent. unfold agentBaseOf in Hbase.
  cbv zeta. rewrite Hbase, joinArgs_defined, bind_run, Hmode. cbn [ret default].
  set (agentDir := join [agentBase; _]).
  destruct (negb (isPathSafe _ _)).
  { intros [= _ <-]. done. }
  destruct (negb (isPathSafe _ _)).
  { intros [= _ <-]. done. }
  unfold try_catch.
  match goal with
  | |- (match ?body w with _ => _ end) = _ → _ =>
      destruct (body w) as [w2 [r2|e|]] eqn:Ebody
  end; [|intros [= _ <-]; done|done].
  intros [= -> ->].
  apply bind_Ok in Ebody as (w1 & [] & Hmk & Ebody).
  apply bind_Ok in Ebody as (w3 & [] & Hwr & [= <- <-]).
  cbn [InstallResult.path]. split; [done|].
  destruct (writeFile_follow _ _ _ _ Hwr) as [q Hq].
  split; [by eapply readFile_calm|].
  destruct (mkdir_resolves _ _ _ Hmk) as [d Hd].
  eapply (installed_when_reachable _ _ _ agentBase); [done | done |].
  pose proof (keepsReach_writeFile (join [agentDir; js "SKILL.md"])
                (RemoteSkill.content skill) w1) as Hk.
  rewrite Hwr in Hk. by apply Hk.
Qed.

End ReadBack.

(** ** The deprecated installer *)

Section Mintlify.
Context `{Host}.

(** A Mintlify skill as a remote skill: the site is the install name. *)
Definition asRemoteSkill (skill : MintlifySkill.t)
    (providerId sourceIdentifier : jsstring) : RemoteSkill.t :=
  RemoteSkill.mk (MintlifySkill.name skill) (MintlifySkill.description skill)
    (MintlifySkill.content skill) (MintlifySkill.mintlifySite skill)
    (MintlifySkill.sourceUrl skill) providerId sourceIdentifier.

(** The deprecated [installMintlifySkillForAgent] does what
    [installRemoteSkillForAgent] does for the same skill with the
    site as its install name, whatever the provider: the same calls,
    the same result, the same failures. *)
Theorem installMintlifySkillForAgent_as_remote
    skill providerId sourceIdentifier agentType options :
  installMintlifySkillForAgent skill agentType options
  = installRemoteSkillForAgent
      (asRemoteSkill skill providerId sourceIdentifier) agentType options.
Proof. reflexivity. Qed.

End Mintlify.

(** ** A directory in place of a link *)

Section RealDirectory.
Context `{Host}.

Opaque MAXSYMLINKS.






End RealDirectory.

(** ** Where a remote install makes its changes *)

Section RemoteConfined.
Context `{Host}.

Opaque MAXSYMLINKS.

Lemma inside_entry D n k : goodSeg n → k = D ++ [n] → inside D k.
Proof. intros _ ->. by exists [n]. Qed.

(** X25: every call by which [installRemoteSkillForAgent] changes the
    file system is given a path in the canonical directory of the
    skill or in its directory for the agent; the one exception is the
    [mkdir] of the directory of the agent itself, the parent of the
    link.  This holds whatever the outcome of the install. *)
Theorem installRemoteSkillForAgent_confined
    skill agentType options agentBase :
  agentBaseOf agentType options = Some agentBase →
  let canonicalDir :=
    join [canonicalBaseOf options; remoteSkillNameOf skill] in
  let agentDir := join [agentBase; remoteSkillNameOf skill] in
  stable (touches (ownPaths canonicalDir agentBase agentDir))
    (installRemoteSkillForAgent skill agentType options).
Proof.
  intros Hbase canonicalDir agentDir.
  unfold installRemoteSkillForAgent, agentBaseOf in *. cbv zeta.
  rewrite Hbase, joinArgs_defined.
  fold (remoteSkillNameOf skill). fold (canonicalBaseOf options).
  fold canonicalDir. apply stable_ret_bind. fold agentDir.
  set (P := ownPaths canonicalDir agentBase agentDir).
  assert (P (key canonicalDir)) as Hc by (by left).
  assert (P (key agentDir)) as Ha by (right; by left).
  assert (P (key (dirname agentDir))) as Hd.
  { right. right. apply key_dirname_join, sanitizeName_goodSeg. }
  assert (P (key (join [canonicalDir; js "SKILL.md"]))) as Hcf.
  { left. rewrite key_join by apply SKILL_md_goodSeg. by exists [js "SKILL.md"]. }
  assert (P (key (join [agentDir; js "SKILL.md"]))) as Haf.
  { right. left. rewrite key_join by apply SKILL_md_goodSeg.
    by exists [js "SKILL.md"]. }
  assert (∀ A (a : A), stable (touches P) (ret a)) as Hret
    by (intros; apply stable_ret; apply _).
  destruct (negb (isPathSafe _ _)); [apply Hret|].
  destruct (negb (isPathSafe _ _)); [apply Hret|].
  apply stable_try_catch; [apply _ | |intros e; apply Hret].
  destruct (default symlink_mode (Options.mode options)).
  - apply stable_bind; [apply _ | by apply touches_ensureDirectory |].
    intros _.
    apply stable_bind; [apply _ | by apply touches_writeFile |]. intros _.
    apply stable_bind; [apply _ | by apply touches_createSymlink |].
    intros created. destruct (negb created); [|apply Hret].
    apply stable_bind; [apply _ | |].
    { apply stable_try_catch;
        [apply _ | by apply touches_rm | intros ?; apply Hret]. }
    intros _. apply stable_bind; [apply _ | by apply touches_mkdir |].
    intros _.
    apply stable_bind;
      [apply _ | by apply touches_writeFile | intros _; apply Hret].
  - apply stable_bind; [apply _ | by apply touches_mkdir |]. intros _.
    apply stable_bind;
      [apply _ | by apply touches_writeFile | intros _; apply Hret].
Qed.

End RemoteConfined.

(** ** Installing a well-known skill *)

Section WellKnown.
Context `{Host}.

Lemma partial_writeSkillFiles skill targetDir :
  partial (λ _, True) (writeSkillFiles skill targetDir).
Proof.
  unfold writeSkillFiles.
  apply partial_seq; [apply partial_mkdir|]. intros _.
  apply partial_forEach. intros [filePath content].
  destruct (negb (isPathSafe _ _)); [by apply partial_ret|].
  apply partial_seq; [|intros _; apply partial_writeFile].
  destruct (negb (streq _ _)); [apply partial_mkdir | by apply partial_ret].
Qed.

(** X26: for an agent that has a directory in the scope,
    [installWellKnownSkillForAgent] never throws and never runs
    forever: it returns a result, a success or a failure with its
    message, whose path is the one [getInstallPath] computes for the
    install name of the skill, and whose canonical path, if it has
    one, is the one [getCanonicalPath] computes. *)
Theorem installWellKnownSkillForAgent_returns skill agentType options :
  supportsScope (default false (Options.global options)) agentType →
  always
    (λ r, reported r
          ∧ getInstallPath (WellKnownSkill.installName skill) agentType
              options
            = inr (InstallResult.path r)
          ∧ ∀ c, InstallResult.canonicalPath r = Some c →
                 getCanonicalPath (WellKnownSkill.installName skill) options
                 = inr c)
    (installWellKnownSkillForAgent skill agentType options).
Proof.
  intros [base Hbase]%supportsScope_agentBase.
  destruct (getInstallPath_base (WellKnownSkill.installName skill) _ _ _ Hbase)
    as (Hpath & Hsafe).
  destruct (getCanonicalPath_base (WellKnownSkill.installName skill) options)
    as (Hcanon & Hcsafe).
  rewrite Hpath, Hcanon.
  unfold installWellKnownSkillForAgent, agentBaseOf in *. cbv zeta.
  rewrite Hbase, joinArgs_defined.
  rewrite <- canonicalBaseOf_options in *. unfold canonicalBaseOf in *.
  set (agentDir := join [base; _]) in *.
  set (canonicalDir := join [getCanonicalSkillsDir _ _; _]) in *.
  eapply always_bind; [apply (always_ret (λ a, a = agentDir)); done|].
  intros a ->. change (default [] (Some base)) with base.
  rewrite Hsafe, Hcsafe. cbn [negb].
  set (Q := λ r : InstallResult.t,
         reported r ∧ inr agentDir = inr (InstallResult.path r)
         ∧ ∀ c, InstallResult.canonicalPath r = Some c →
                inr canonicalDir = inr c).
  assert (∀ mode msg, Q (failed agentDir mode msg)) as Hfail.
  { intros mode msg. split; [apply reported_failed|]. by split. }
  apply (always_try_catch Q); [|intros e; apply always_ret, Hfail].
  assert (∀ failedLink, Q (InstallResult.mk true agentDir (Some canonicalDir)
                             symlink_mode failedLink None)) as Hlinked.
  { intros f. split; [by left|]. split; [done|]. by intros c [= <-]. }
  destruct (default symlink_mode (Options.mode options)).
  - apply partial_seq; [apply partial_writeSkillFiles|]. intros _.
    apply partial_seq; [apply always_partial, always_createSymlink|].
    intros created. destruct (negb created); [|apply partial_ret, Hlinked].
    apply partial_seq.
    { apply partial_try_catch; [apply partial_rm | intros ?; by apply partial_ret]. }
    intros _. apply partial_seq; [apply partial_writeSkillFiles|]. intros _.
    apply partial_ret, Hlinked.
  - apply partial_seq; [apply partial_writeSkillFiles|]. intros _.
    apply partial_ret. split; [by left|]. by split.
Qed.

End WellKnown.

(** ** A copy for the agent *)

Section InstalledCopy.
Context `{Host}.

Opaque MAXSYMLINKS.

Lemma mkdir_there p w w' :
  mkdir p w = (w', Ok tt) →
  nodeAt (files w) (key p) = Some Dir →
  (∀ x, emptyAt (files w) (key p ++ [x])) →
  nodeAt (files w') (key p) = Some Dir
  ∧ (∀ m0, m0 ⊆ files w → m0 ⊆ files w')
  ∧ ∀ x, emptyAt (files w') (key p ++ [x]).
Proof.
  intros (_ & _ & Hm)%mkdir_run Hthere Hinside.
  pose proof (mkdirFrom_frame _ _ _ _ Hm) as Hframe.
  pose proof (keepsLinked_mkdirFrom _ _ _ _ Hm) as [Hdirs _].
  split; [|split].
  - by eapply nodeAt_Dir_kept.
  - intros m0 Hsub. apply map_subseteq_spec. intros k n Hk.
    pose proof (lookup_weaken _ _ _ _ Hk Hsub) as Hw.
    destruct (Hframe k) as [E|(E & _)]; congruence.
  - intros x k Hk. destruct (Hframe k) as [E|(_ & _ & Hp & _)].
    + rewrite E. by apply (Hinside x).
    + simpl in Hp. by destruct (prefix_snoc_above (key p) x k).
Qed.

(** The same into a directory that is there, with nothing in it. *)
Lemma copyDirectory_into fuel depth src dest w w' m0 :
  copyDirectory fuel src dest w = (w', Ok tt) →
  m0 ⊆ files w → nodeAt (files w) (key dest) = Some Dir →
  (∀ x, emptyAt (files w) (key dest ++ [x])) →
  nodeAt m0 (key src) = Some Dir →
  Copied depth true m0 (files w') (key src) (key dest).
Proof.
  destruct fuel as [|fuel]; [done|].
  intros Hrun Hsub Hthere Hinside Hsrc.
  destruct depth as [|depth]; [done|].
  change (copyDirectory (S fuel) src dest) with
    (mkdir dest ;;
     entries <- readdir src ;;
     forEach
       (filter (λ entry, isExcluded (name entry) (isDirectory (dtype entry))
                         = false) entries)
       (λ entry,
          let srcPath := join [src; name entry] in
          let destPath := join [dest; name entry] in
          if isDirectory (dtype entry)
          then copyDirectory fuel srcPath destPath
          else cp srcPath destPath)) in Hrun.
  apply bind_Ok in Hrun as (w1 & [] & Hmk & Hrun).
  apply mkdir_there in Hmk as (Hdir & Hsub1 & Hempty1); [|done|done].
  specialize (Hsub1 _ Hsub).
  apply bind_Ok in Hrun as (w2 & entries & Hrd & Hloop).
  apply readdir_Ok in Hrd as (Hf2 & q & Hq & ->).
  rewrite (follow_here _ _ Dir) in Hq;
    [|by eapply nodeAt_extends|done].
  injection Hq as <-. rewrite key_render_key in Hloop.
  set (entries := map (λ e, mkDirent e.1 (statsOf e.2))
                    (children (files w1) (key src))) in *.
  assert (NoDup (name <$> entries)) as Hnd.
  { unfold entries. rewrite <- list_fmap_compose.
    apply (children_NoDup (files w1) (key src)). }
  assert (∀ e, e ∈ entries → goodSeg (name e)) as Hgood.
  { intros e (c & -> & Hc)%list_elem_of_fmap. by eapply children_valid. }
  set (kept := filter (λ entry, isExcluded (name entry)
                                  (isDirectory (dtype entry)) = false)
                 entries) in *.
  destruct (forEach_apart name
              (λ entry,
                 let srcPath := join [src; name entry] in
                 let destPath := join [dest; name entry] in
                 if isDirectory (dtype entry)
                 then copyDirectory fuel srcPath destPath
                 else cp srcPath destPath)
              (λ e m', ∀ n, m0 !! (key src ++ [name e]) = Some n →
                 statsOf n = dtype e →
                 if isDirectory (dtype e)
                 then Copied depth true m0 m' (key src ++ [name e])
                        (key dest ++ [name e])
                 else copiedNode depth m0 m' (join [src; name e])
                        (key dest ++ [name e]))
              (key dest) m0 kept)
    with (w := w2) (w' := w') as (_ & Hkeep & Hapart & HQ).
  - by apply NoDup_fmap_filter.
  - intros e [_ He]%list_elem_of_filter. cbv zeta.
    destruct (isDirectory (dtype e)).
    + eapply stable_weaken; [|apply within_copyDirectory].
      intros u u'. unfold onFiles. by rewrite key_join by auto.
    + eapply stable_weaken; [|apply below_cpNode].
      intros u u'. unfold onFiles. rewrite key_join by auto.
      apply below_within.
  - intros e u u' [_ He]%list_elem_of_filter Hu Hsubu Hemptyu n Hn Hst.
    cbv zeta in Hu. destruct (isDirectory (dtype e)) eqn:Hd.
    + rewrite <- !key_join by auto.
      apply (copyDirectory_spec fuel depth _ _ u u'); [done | done | |].
      * by rewrite key_join by auto.
      * rewrite key_join by auto.
        destruct n as [c| |t]; try (by rewrite <- Hst in Hd).
        by destruct (key src).
    + rewrite <- (key_join dest) by auto.
      apply (cpNode_spec (S PATH_MAX) depth _ _ u u'); [done | done | |].
      * by rewrite key_join by auto.
      * rewrite key_join by auto. by destruct (key dest).
  - intros e m1 m2 Hsame HQ1 n Hn Hst. specialize (HQ1 n Hn Hst).
    destruct (isDirectory (dtype e));
      [by eapply Copied_local | by eapply copiedNode_local].
  - done.
  - by rewrite Hf2.
  - intros e _. rewrite Hf2. apply Hempty1.
  - rewrite Hf2 in *. split.
    + destruct (key dest) as [|x k] eqn:Ek; [done|]. simpl in *.
      by apply Hkeep.
    + intros x n Hx Hv. cbn [andb].
      assert (mkDirent x (statsOf n) ∈ entries) as Hin.
      { apply list_elem_of_fmap. exists (x, n). split; [done|].
        apply children_spec. split; [|done]. by eapply lookup_weaken. }
      destruct (isExcluded x (isDirectory (statsOf n))) eqn:Hex.
      * eapply apart_emptyAt; [exact Hapart | | apply Hempty1].
        intros (e & Hname & [Hk He]%list_elem_of_filter)%list_elem_of_fmap.
        assert (e = mkDirent x (statsOf n)) as ->
          by (by eapply (NoDup_fmap_same name entries)).
        simpl in Hk. congruence.
      * assert (mkDirent x (statsOf n) ∈ kept) as Hkept
          by (by apply list_elem_of_filter).
        specialize (HQ _ Hkept n Hx eq_refl). simpl in HQ.
        destruct (isDirectory (statsOf n)); [done|].
        unfold copiedNode in HQ.
        rewrite (follow_key _ _ _ (render (key src ++ [x]))) in HQ; [done|].
        rewrite key_join by (by apply validName_goodSeg).
        symmetry. apply key_snoc_render; [apply key_good | done].
Qed.


(** X27: in copy mode, when [installSkillForAgent] reports success
    for a skill whose path is a directory and for an agent under
    whose directory of that skill nothing was stored, this directory
    mirrors the directory of the skill, as [copyDirectory] mirrors:
    without the excluded entries, and with what a link leads to in
    place of the link. *)
Theorem installSkillForAgent_copy_mirrors
    fuel depth skill agentType options agentBase w w' r :
  Options.mode options = Some copy_mode →
  agentBaseOf agentType options = Some agentBase →
  let agentDir := join [agentBase; skillNameOf skill] in
  nodeAt (files w) (key (Skill.path skill)) = Some Dir →
  emptyAt (files w) (key agentDir) →
  installSkillForAgent fuel skill agentType options w = (w', Ok r) →
  InstallResult.success r = true →
  InstallResult.path r = agentDir
  ∧ Copied depth true (files w) (files w')
      (key (Skill.path skill)) (key agentDir).
Proof.
  intros Hmode Hbase agentDir Hsrc Hempty Hrun Hok. revert Hrun.
  unfold installSkillForAgent. unfold agentBaseOf in Hbase.
  cbv zeta. rewrite Hbase, joinArgs_defined, bind_run, Hmode.
  cbn [ret default]. fold (skillNameOf skill). fold agentDir.
  destruct (negb (isPathSafe _ _)).
  { intros [= _ <-]. done. }
  destruct (negb (isPathSafe _ _)).
  { intros [= _ <-]. done. }
  unfold try_catch.
  match goal with
  | |- (match ?body w with _ => _ end) = _ → _ =>
      destruct (body w) as [w2 [r2|e|]] eqn:Ebody
  end; [|intros [= _ <-]; done|done].
  intros [= -> ->].
  apply bind_Ok in Ebody as (w1 & [] & Hmk & Ebody).
  apply bind_Ok in Ebody as (w3 & [] & Hcp & [= <- <-]).
  split; [done|].
  apply mkdir_Ok_tree in Hmk as (Hdir & Hsub & Hinside); [|done].
  eapply copyDirectory_into; [exact Hcp | by apply Hsub | done | done | done].
Qed.

End InstalledCopy.

(** ** The properties on the sample trees *)

Definition claudeBase : jsstring := js "/work/.claude/skills".

Lemma agentBaseOf_claude :
  @agentBaseOf asciiHost claude_code symlinkOptions = Some claudeBase.
Proof. vm_compute. reflexivity. Qed.

Lemma getInstallPath_returns_witness :
  @getInstallPath asciiHost (js "My Skill!") claude_code symlinkOptions
  = inr (join [claudeBase; @sanitizeName asciiHost (js "My Skill!")])
  ∧ @key asciiHost (join [claudeBase; @sanitizeName asciiHost (js "My Skill!")])
    = @key asciiHost claudeBase ++ [@sanitizeName asciiHost (js "My Skill!")]
  ∧ @isPathSafe asciiHost claudeBase
      (join [claudeBase; @sanitizeName asciiHost (js "My Skill!")])
    = true.
Proof.
  apply (@getInstallPath_returns asciiHost (js "My Skill!") claude_code
           symlinkOptions claudeBase).
  vm_compute. reflexivity.
Defined.

Example getInstallPath_my_skill :
  @getInstallPath asciiHost (js "My Skill!") claude_code symlinkOptions
  = inr (js "/work/.claude/skills/my-skill")
  ∧ @getCanonicalPath asciiHost (js "../../etc/passwd") symlinkOptions
    = inr (js "/work/.agents/skills/etc-passwd")
  ∧ @getInstallPath asciiHost (js "foo") replit
      (Options.mk (Some true) None None)
    = inl (NodeError undefinedPath).
Proof. repeat split; vm_compute; reflexivity. Qed.

Definition fooLinked : InstallResult.t :=
  InstallResult.mk true fooAgentDir (Some fooCanonicalDir) symlink_mode
    None None.

Definition fooCopied : InstallResult.t :=
  InstallResult.mk true fooAgentDir None copy_mode None None.

Lemma installSkillForAgent_reports_paths_witness :
  @getInstallPath asciiHost (getSkillDisplayName fooSkill)
    claude_code symlinkOptions
  = inr (InstallResult.path fooLinked)
  ∧ ∀ c, InstallResult.canonicalPath fooLinked = Some c →
         @getCanonicalPath asciiHost (getSkillDisplayName fooSkill)
           symlinkOptions
         = inr c.
Proof.
  apply (@installSkillForAgent_reports_paths asciiHost 97 fooSkill claude_code
           symlinkOptions workTree
           (@installSkillForAgent asciiHost 97 fooSkill claude_code
              symlinkOptions workTree).1).
  apply run_fst. vm_compute. reflexivity.
Defined.

Lemma installSkillForAgent_throws_iff_witness :
  ((∃ e, run (@installSkillForAgent asciiHost 97 fooSkill replit
                (Options.mk (Some true) None None)) workTree = Throw e)
   ↔ default false (Options.global (Options.mk (Some true) None None)) = true
     ∧ replit = replit)
  ∧ (¬ (default false (Options.global (Options.mk (Some true) None None))
        = true ∧ replit = replit)
     → ∃ r, run (@installSkillForAgent asciiHost 97 fooSkill replit
                   (Options.mk (Some true) None None)) workTree = Ok r
            ∧ reported r).
Proof.
  apply (@installSkillForAgent_throws_iff asciiHost 97 fooSkill replit
           (Options.mk (Some true) None None) workTree).
  simpl. lia.
Defined.


(** Before the install the skill is not found; after it, it is. *)
Example isSkillInstalled_foo :
  run (@isSkillInstalled asciiHost (js "foo") claude_code symlinkOptions)
    workTree
  = Ok false
  ∧ run (@isSkillInstalled asciiHost (js "foo") claude_code symlinkOptions)
      (@installSkillForAgent asciiHost 97 fooSkill claude_code symlinkOptions
         workTree).1
    = Ok true
  ∧ run (@overwriteChecks asciiHost [fooSkill] [claude_code; cursor] false)
      workTree
    = Ok [OverwriteCheck.mk (js "foo") claude_code false;
          OverwriteCheck.mk (js "foo") cursor false]
  ∧ run (@overwriteChecks asciiHost [fooSkill] [claude_code; replit] true)
      workTree
    = Throw undefinedPath.
Proof. repeat split; vm_compute; reflexivity. Qed.

Lemma installSkillForAgent_confined_witness :
  touches (@ownPaths asciiHost fooCanonicalDir claudeBase fooAgentDir)
    workTree
    (@installSkillForAgent asciiHost 97 fooSkill claude_code symlinkOptions
       workTree).1.
Proof.
  apply (@installSkillForAgent_confined asciiHost 97 fooSkill claude_code
           symlinkOptions claudeBase).
  vm_compute. reflexivity.
Defined.

(** The calls of the install of [foo] for one agent, in order. *)
Example installSkillForAgent_journal :
  journal (@installSkillForAgent asciiHost 97 fooSkill claude_code
             symlinkOptions workTree).1
  = [OpMkdir (js "/work/.agents/skills/foo");
     OpMkdir (js "/work/.agents/skills/foo");
     OpCopyFile (js "/src/foo/SKILL.md")
       (js "/work/.agents/skills/foo/SKILL.md");
     OpMkdir (js "/work/.claude/skills");
     OpSymlink (js "../../.agents/skills/foo")
       (js "/work/.claude/skills/foo")].
Proof. vm_compute. reflexivity. Qed.


Definition fooRemoteCopied : InstallResult.t :=
  InstallResult.mk true
    (join [claudeBase;
           @sanitizeName asciiHost (RemoteSkill.installName fooRemote)])
    None copy_mode None None.

Lemma installRemoteSkillForAgent_copy_readable_witness :
  InstallResult.path fooRemoteCopied
  = join [claudeBase;
          @sanitizeName asciiHost (RemoteSkill.installName fooRemote)]
  ∧ @readFile asciiHost (join [InstallResult.path fooRemoteCopied; js "SKILL.md"])
      (@installRemoteSkillForAgent asciiHost fooRemote claude_code copyOptions
         workTree).1
    = ((@installRemoteSkillForAgent asciiHost fooRemote claude_code
          copyOptions workTree).1,
       Ok (RemoteSkill.content fooRemote))
  ∧ @isSkillInstalled asciiHost (RemoteSkill.installName fooRemote)
      claude_code copyOptions
      (@installRemoteSkillForAgent asciiHost fooRemote claude_code copyOptions
         workTree).1
    = ((@installRemoteSkillForAgent asciiHost fooRemote claude_code
          copyOptions workTree).1, Ok true).
Proof.
  apply (@installRemoteSkillForAgent_copy_readable asciiHost fooRemote
           claude_code copyOptions claudeBase workTree).
  - reflexivity.
  - vm_compute. reflexivity.
  - apply run_fst. vm_compute. reflexivity.
  - reflexivity.
  - vm_compute. reflexivity.
Defined.

(** A project whose canonical directory for [foo] is a link. *)
Definition linkedStore : World :=
  tree [dirAt "/work"; dirAt "/work/.agents"; dirAt "/work/.agents/skills";
        linkAt "/work/.agents/skills/foo" "/elsewhere";
        dirAt "/elsewhere"; fileAt "/elsewhere/keep.md" "kept"].


(** The link is gone, and what it led to is as it was. *)
Example ensureDirectory_linkedStore :
  at_ linkedStore "/work/.agents/skills/foo" = Some (Symlink (js "/elsewhere"))
  ∧ at_ (@ensureDirectory asciiHost fooCanonicalDir linkedStore).1
      "/work/.agents/skills/foo"
    = Some Dir
  ∧ at_ (@ensureDirectory asciiHost fooCanonicalDir linkedStore).1
      "/elsewhere/keep.md"
    = Some (File (js "kept")).
Proof. repeat split; vm_compute; reflexivity. Qed.

Lemma installRemoteSkillForAgent_confined_witness :
  touches
    (@ownPaths asciiHost
       (join [@canonicalBaseOf asciiHost symlinkOptions;
              @remoteSkillNameOf asciiHost fooRemote])
       claudeBase
       (join [claudeBase; @remoteSkillNameOf asciiHost fooRemote]))
    workTree
    (@installRemoteSkillForAgent asciiHost fooRemote claude_code
       symlinkOptions workTree).1.
Proof.
  apply (@installRemoteSkillForAgent_confined asciiHost fooRemote claude_code
           symlinkOptions claudeBase).
  vm_compute. reflexivity.
Defined.

Lemma installWellKnownSkillForAgent_returns_witness :
  ∃ r,
    (@installWellKnownSkillForAgent asciiHost fooFiles claude_code
       symlinkOptions workTree).2 = Ok r
    ∧ (reported r
       ∧ @getInstallPath asciiHost (WellKnownSkill.installName fooFiles)
           claude_code symlinkOptions
         = inr (InstallResult.path r)
       ∧ ∀ c, InstallResult.canonicalPath r = Some c →
              @getCanonicalPath asciiHost (WellKnownSkill.installName fooFiles)
                symlinkOptions
              = inr c).
Proof.
  apply (@installWellKnownSkillForAgent_returns asciiHost fooFiles claude_code
           symlinkOptions).
  intros [=].
Defined.

Example installWellKnownSkillForAgent_fooFiles :
  run (@installWellKnownSkillForAgent asciiHost fooFiles claude_code
         symlinkOptions) workTree
  = Ok (InstallResult.mk true (js "/work/.claude/skills/foo")
          (Some (js "/work/.agents/skills/foo")) symlink_mode None None)
  ∧ at_ (@installWellKnownSkillForAgent asciiHost fooFiles claude_code
           symlinkOptions workTree).1 "/work/.agents/skills/foo/docs/guide.md"
    = Some (File (js "guide"))
  ∧ at_ (@installWellKnownSkillForAgent asciiHost fooFiles claude_code
           symlinkOptions workTree).1 "/work/.agents/skills/evil.md"
    = None.
Proof. repeat split; vm_compute; reflexivity. Qed.

Lemma installSkillForAgent_copy_mirrors_witness :
  InstallResult.path fooCopied = join [claudeBase; @skillNameOf asciiHost fooSkill]
  ∧ @Copied asciiHost 2 true (files workTree)
      (files (@installSkillForAgent asciiHost 97 fooSkill claude_code
                copyOptions workTree).1)
      (@key asciiHost (Skill.path fooSkill))
      (@key asciiHost (join [claudeBase; @skillNameOf asciiHost fooSkill])).
Proof.
  apply (@installSkillForAgent_copy_mirrors asciiHost 97 2 fooSkill
           claude_code copyOptions claudeBase workTree
           (@installSkillForAgent asciiHost 97 fooSkill claude_code
              copyOptions workTree).1 fooCopied).
  - reflexivity.
  - vm_compute. reflexivity.
  - vm_compute. reflexivity.
  - apply emptyAt_check. vm_compute. reflexivity.
  - apply run_fst. vm_compute. reflexivity.
  - reflexivity.
Defined.

(** The skills and the cases of [tests/skill-matching.test.ts]. *)
Definition makeSkill (name : string) : Skill.t :=
  Skill.mk (lit name) (js "desc") (js "/tmp/skill") None false.

Definition testSkills : list Skill.t :=
  [makeSkill "convex-best-practices"; makeSkill "Convex Best Practices";
   makeSkill "simple-skill"; makeSkill "foo"; makeSkill "bar"].

Example filterSkills_tests :
  @filterSkills asciiHost testSkills [js "foo"] = [makeSkill "foo"]
  ∧ @filterSkills asciiHost testSkills [js "FOO"] = [makeSkill "foo"]
  ∧ @filterSkills asciiHost testSkills [js "convex-best-practices"]
    = [makeSkill "convex-best-practices"]
  ∧ @filterSkills asciiHost testSkills [js "foo"; js "bar"]
    = [makeSkill "foo"; makeSkill "bar"]
  ∧ @filterSkills asciiHost testSkills [js "Convex Best Practices"]
    = [makeSkill "Convex Best Practices"]
  ∧ @filterSkills asciiHost testSkills [js "convex best practices"]
    = [makeSkill "Convex Best Practices"]
  ∧ @filterSkills asciiHost testSkills [js "Convex"; js "Best"; js "Practices"]
    = []
  ∧ @filterSkills asciiHost testSkills [js "Convex"; js "Best"] = []
  ∧ @filterSkills asciiHost testSkills [js "nonexistent"] = []
  ∧ @filterSkills asciiHost testSkills [] = [].
Proof. repeat split; vm_compute; reflexivity. Qed.

Lemma overwriteChecks_outcome_witness :
  (∃ checks,
     (@overwriteChecks asciiHost [fooSkill] [claude_code; cursor] false
        workTree).2 = Ok checks
     ∧ map checkedPair checks
       = [(js "foo", claude_code); (js "foo", cursor)])
  ∧ run (@overwriteChecks asciiHost [fooSkill] [claude_code; replit] true)
      workTree
    = Throw undefinedPath.
Proof.
  split.
  - apply (proj1 (proj2 (@overwriteChecks_outcome asciiHost [fooSkill]
                           [claude_code; cursor] false))).
    repeat (constructor; [intros [=]|]). constructor.
  - apply (proj2 (proj2 (@overwriteChecks_outcome asciiHost [fooSkill]
                           [claude_code; replit] true))).
    + reflexivity.
    + apply list_elem_of_In. simpl. auto.
    + discriminate.
Defined.

(** The tree after the canonical copy of [foo]. *)
Definition fooCanonicalStore : World :=
  (@canonicalStage asciiHost 97 fooSkill fooCanonicalDir workTree).1.

Lemma createSymlink_links_witness :
  (@resolve asciiHost [fooCanonicalDir] = @resolve asciiHost [fooAgentDir]
   ∧ (@createSymlink asciiHost fooCanonicalDir fooAgentDir
        fooCanonicalStore).1
     = fooCanonicalStore)
  ∨ (@resolve asciiHost [fooCanonicalDir] ≠ @resolve asciiHost [fooAgentDir]
     ∧ ∃ t,
         files (@createSymlink asciiHost fooCanonicalDir fooAgentDir
                  fooCanonicalStore).1
           !! @key asciiHost fooAgentDir
         = Some (Symlink t)
         ∧ @resolveSymlinkTarget asciiHost fooAgentDir t
           = @resolve asciiHost [fooCanonicalDir]).
Proof.
  apply (proj2 (@createSymlink_links asciiHost fooCanonicalDir fooAgentDir)
           fooCanonicalStore).
  apply run_fst. vm_compute. reflexivity.
Defined.
